(** * qlbridge/schema: the catalog tree (Schema, Table, Field)

    A shallow embedding of [schema/schema.go].  Go pointers are addresses
    into a store ([*Schema], [*Table] and [*Field] objects are shared and
    mutated in place); Go maps are [gmap]s whose values may be [None] for
    a nil pointer; unsigned and signed machine integers are [Z]. *)

From Stdlib Require Import ZArith String Ascii List Sorted Permutation Lia.
From stdpp Require Import base option functions gmap strings list sorting fin_maps.

Local Open Scope string_scope.
Local Open Scope Z_scope.

(** ** Strings: [strings.ToLower], [strings.ToUpper], [sort.Strings] *)

(** A Go string is a sequence of bytes; a rune is a [Z]. *)
Definition byte_val (c : ascii) : Z := Z.of_N (N_of_ascii c).
Definition byte_of (n : Z) : ascii := ascii_of_N (Z.to_N (n mod 256)).

(** *** [unicode/utf8] *)

Module Utf8.

Definition RuneError : Z := 65533.
Definition RuneSelf : Z := 128.
Definition MaxRune : Z := 1114111.
Definition surrogateMin : Z := 55296.
Definition surrogateMax : Z := 57343.

(** The tables [first] and [acceptRanges]: for a leading byte, the
    length of the encoding and the bounds of its second byte.  A byte
    from 0x80 to 0xC1 or from 0xF5 on leads nothing. *)
Definition first (s0 : Z) : option (nat * Z * Z) :=
  if (194 <=? s0) && (s0 <=? 223) then Some (2%nat, 128, 191)
  else if s0 =? 224 then Some (3%nat, 160, 191)
  else if (225 <=? s0) && (s0 <=? 236) then Some (3%nat, 128, 191)
  else if s0 =? 237 then Some (3%nat, 128, 159)
  else if (238 <=? s0) && (s0 <=? 239) then Some (3%nat, 128, 191)
  else if s0 =? 240 then Some (4%nat, 144, 191)
  else if (241 <=? s0) && (s0 <=? 243) then Some (4%nat, 128, 191)
  else if s0 =? 244 then Some (4%nat, 128, 143)
  else None.

Definition byte_at (s : string) (i : nat) : Z :=
  match String.get i s with
  | Some c => byte_val c
  | None => 0
  end.

(** A continuation byte, from [locb] to [hicb]. *)
Definition continuation (b : Z) : bool := (128 <=? b) && (b <=? 191).

(** [utf8.DecodeRuneInString], which is also what [range] over a string
    does: the first rune and its width in bytes; an encoding that is
    invalid or cut short gives [RuneError] and the width 1. *)
Definition DecodeRuneInString (s : string) : Z * nat :=
  match s with
  | EmptyString => (RuneError, 0%nat)
  | String c0 _ =>
      let s0 := byte_val c0 in
      if s0 <? RuneSelf then (s0, 1%nat)
      else
        match first s0 with
        | None => (RuneError, 1%nat)
        | Some (sz, lo, hi) =>
            if (String.length s <? sz)%nat then (RuneError, 1%nat)
            else
              let s1 := byte_at s 1 in
              if (s1 <? lo) || (hi <? s1) then (RuneError, 1%nat)
              else if (sz <=? 2)%nat then
                (Z.lor (Z.shiftl (Z.land s0 31) 6) (Z.land s1 63), 2%nat)
              else
                let s2 := byte_at s 2 in
                if negb (continuation s2) then (RuneError, 1%nat)
                else if (sz <=? 3)%nat then
                  (Z.lor (Z.shiftl (Z.land s0 15) 12)
                     (Z.lor (Z.shiftl (Z.land s1 63) 6) (Z.land s2 63)), 3%nat)
                else
                  let s3 := byte_at s 3 in
                  if negb (continuation s3) then (RuneError, 1%nat)
                  else
                    (Z.lor (Z.shiftl (Z.land s0 7) 18)
                       (Z.lor (Z.shiftl (Z.land s1 63) 12)
                          (Z.lor (Z.shiftl (Z.land s2 63) 6) (Z.land s3 63))),
                     4%nat)
        end
  end.

Definition bytes (l : list Z) : string :=
  fold_right (λ b s, String (byte_of b) s) EmptyString l.

(** [utf8.AppendRune]: a surrogate or a rune out of range is written as
    [RuneError]. *)
Definition EncodeRune (r : Z) : string :=
  if (0 <=? r) && (r <=? 127) then bytes [r]
  else if (0 <=? r) && (r <=? 2047) then
    bytes [Z.lor 192 (Z.shiftr r 6); Z.lor 128 (Z.land r 63)]
  else
    let r := if (r <? 0) || (MaxRune <? r)
                || ((surrogateMin <=? r) && (r <=? surrogateMax))
             then RuneError else r in
    if r <=? 65535 then
      bytes [Z.lor 224 (Z.shiftr r 12); Z.lor 128 (Z.land (Z.shiftr r 6) 63);
             Z.lor 128 (Z.land r 63)]
    else
      bytes [Z.lor 240 (Z.shiftr r 18); Z.lor 128 (Z.land (Z.shiftr r 12) 63);
             Z.lor 128 (Z.land (Z.shiftr r 6) 63); Z.lor 128 (Z.land r 63)].

End Utf8.

(** *** [unicode]: the case of a rune *)

Module Unicode.

Definition MaxASCII : Z := 127.
Definition UpperCase : nat := 0.
Definition LowerCase : nat := 1.
Definition TitleCase : nat := 2.

(** The delta of a range in which upper and lower case alternate. *)
Definition UpperLower : Z := Utf8.MaxRune + 1.

Record CaseRange : Type := {
  cr_Lo : Z;
  cr_Hi : Z;
  cr_Delta : list Z
}.

(** [unicode.CaseRanges], its entries for the runes up to U+017F (Basic
    Latin, Latin-1 Supplement, Latin Extended-A).  The table of the
    library goes on beyond; a rune above U+017F is kept as it is here. *)
Definition CaseRanges : list CaseRange :=
  [ {| cr_Lo := 65; cr_Hi := 90; cr_Delta := [0; 32; 0] |};
    {| cr_Lo := 97; cr_Hi := 122; cr_Delta := [-32; 0; -32] |};
    {| cr_Lo := 181; cr_Hi := 181; cr_Delta := [743; 0; 743] |};
    {| cr_Lo := 192; cr_Hi := 214; cr_Delta := [0; 32; 0] |};
    {| cr_Lo := 216; cr_Hi := 222; cr_Delta := [0; 32; 0] |};
    {| cr_Lo := 224; cr_Hi := 246; cr_Delta := [-32; 0; -32] |};
    {| cr_Lo := 248; cr_Hi := 254; cr_Delta := [-32; 0; -32] |};
    {| cr_Lo := 255; cr_Hi := 255; cr_Delta := [121; 0; 121] |};
    {| cr_Lo := 256; cr_Hi := 303;
       cr_Delta := [UpperLower; UpperLower; UpperLower] |};
    {| cr_Lo := 304; cr_Hi := 304; cr_Delta := [0; -199; 0] |};
    {| cr_Lo := 305; cr_Hi := 305; cr_Delta := [-232; 0; -232] |};
    {| cr_Lo := 306; cr_Hi := 311;
       cr_Delta := [UpperLower; UpperLower; UpperLower] |};
    {| cr_Lo := 313; cr_Hi := 328;
       cr_Delta := [UpperLower; UpperLower; UpperLower] |};
    {| cr_Lo := 330; cr_Hi := 375;
       cr_Delta := [UpperLower; UpperLower; UpperLower] |};
    {| cr_Lo := 376; cr_Hi := 376; cr_Delta := [0; -121; 0] |};
    {| cr_Lo := 377; cr_Hi := 382;
       cr_Delta := [UpperLower; UpperLower; UpperLower] |};
    {| cr_Lo := 383; cr_Hi := 383; cr_Delta := [-300; 0; -300] |} ].

(** [unicode.to]: the range of the rune is looked for (the ranges are
    disjoint, the library searches them by bisection); in an alternating
    range the runes at even offsets are upper case, the others lower. *)
Definition to (case : nat) (r : Z) (caseRange : list CaseRange) : Z :=
  match List.find (λ cr, (cr_Lo cr <=? r) && (r <=? cr_Hi cr)) caseRange with
  | Some cr =>
      let delta := nth case (cr_Delta cr) 0 in
      if Utf8.MaxRune <? delta then
        cr_Lo cr + Z.lor (Z.ldiff (r - cr_Lo cr) 1) (Z.land (Z.of_nat case) 1)
      else r + delta
  | None => r
  end.

Definition ToLower (r : Z) : Z :=
  if r <=? MaxASCII then
    if (65 <=? r) && (r <=? 90) then r + 32 else r
  else to LowerCase r CaseRanges.

Definition ToUpper (r : Z) : Z :=
  if r <=? MaxASCII then
    if (97 <=? r) && (r <=? 122) then r - 32 else r
  else to UpperCase r CaseRanges.

End Unicode.

Module GoStrings.

(** [strings.Map]: every rune of the string, an invalid byte counting
    as [RuneError], is mapped and written back in UTF-8; a negative
    result is dropped.  [skip] counts the bytes of the current rune that
    are still to be passed. *)
Fixpoint Map_from (mapping : Z → Z) (skip : nat) (s : string) : string :=
  match s with
  | EmptyString => EmptyString
  | String _ s' =>
      match skip with
      | S skip => Map_from mapping skip s'
      | O =>
          let '(c, width) := Utf8.DecodeRuneInString s in
          let r := mapping c in
          String.append (if 0 <=? r then Utf8.EncodeRune r else EmptyString)
                        (Map_from mapping (width - 1) s')
      end
  end.

Definition Map (mapping : Z → Z) (s : string) : string := Map_from mapping 0 s.

(** The two flags of the first loop of [ToLower] and [ToUpper]. *)
Fixpoint isASCII (s : string) : bool :=
  match s with
  | EmptyString => true
  | String c s' => (byte_val c <? Utf8.RuneSelf) && isASCII s'
  end.

Fixpoint hasUpper (s : string) : bool :=
  match s with
  | EmptyString => false
  | String c s' => ((65 <=? byte_val c) && (byte_val c <=? 90)) || hasUpper s'
  end.

Fixpoint hasLower (s : string) : bool :=
  match s with
  | EmptyString => false
  | String c s' => ((97 <=? byte_val c) && (byte_val c <=? 122)) || hasLower s'
  end.

(** The byte loops of the ASCII case: ['A'..'Z'] and ['a'..'z'] differ
    by 32, every other byte is kept. *)
Definition lower_byte (c : ascii) : ascii :=
  let n := N_of_ascii c in
  if ((65 <=? n) && (n <=? 90))%N then ascii_of_N (n + 32) else c.

Definition upper_byte (c : ascii) : ascii :=
  let n := N_of_ascii c in
  if ((97 <=? n) && (n <=? 122))%N then ascii_of_N (n - 32) else c.

Fixpoint lower_bytes (s : string) : string :=
  match s with
  | EmptyString => EmptyString
  | String c s' => String (lower_byte c) (lower_bytes s')
  end.

Fixpoint upper_bytes (s : string) : string :=
  match s with
  | EmptyString => EmptyString
  | String c s' => String (upper_byte c) (upper_bytes s')
  end.

(** [strings.ToLower]: a string of ASCII bytes is mapped byte by byte
    (and returned as it is when it has no capital), any other string
    goes through [Map] with [unicode.ToLower]. *)
Definition ToLower (s : string) : string :=
  if isASCII s then
    if hasUpper s then lower_bytes s else s
  else Map Unicode.ToLower s.

Definition ToUpper (s : string) : string :=
  if isASCII s then
    if hasLower s then upper_bytes s else s
  else Map Unicode.ToUpper s.

(** Go compares strings byte-wise, which is [String.leb]. *)
Definition string_le (a b : string) : Prop := String.leb a b = true.

#[global] Instance string_le_dec : RelDecision string_le.
Proof. intros a b. unfold string_le. apply _. Defined.

#[global] Instance string_le_total : Total string_le.
Proof. intros a b. apply String.leb_total. Qed.

(** [sort.Strings] rearranges the slice in ascending order. *)
Definition sort_Strings (l : list string) : list string :=
  merge_sort string_le l.

End GoStrings.
Export GoStrings.

(** ** [hash/fnv]: the 64-bit FNV-1 hash of [fnv.New64] *)

Module Fnv.

Definition offset64 : Z := 14695981039346656037.
Definition prime64 : Z := 1099511628211.

(** One byte: multiply (wrapping at 64 bits), then xor the byte in. *)
Definition step (h : Z) (c : ascii) : Z :=
  Z.lxor ((h * prime64) mod 2 ^ 64) (Z.of_N (N_of_ascii c)).

Fixpoint write (h : Z) (s : string) : Z :=
  match s with
  | EmptyString => h
  | String c s' => write (step h c) s'
  end.

Definition Sum64 (s : string) : Z := write offset64 s.

End Fnv.

(** ** [time]: instants and durations *)

Module GoTime.

(** [time.Duration] is a signed count of nanoseconds. *)
Definition Duration := Z.
Definition Nanosecond : Duration := 1.
Definition Second : Duration := 1000000000 * Nanosecond.
Definition Minute : Duration := 60 * Second.

(** A [time.Time] as the number of nanoseconds elapsed since the zero
    instant (January 1, year 1, 00:00:00 UTC). *)
Definition Time := Z.
Definition zero : Time := 0.
Definition IsZero (t : Time) : bool := t =? 0.
Definition After (t u : Time) : bool := u <? t.
Definition Add (t : Time) (d : Duration) : Time := t + d.

End GoTime.

(** ** The entity model *)

(** Addresses of [*Schema], [*Table] and [*Field] objects. *)
Definition sptr := nat.
Definition tptr := nat.
Definition fptr := nat.
Bind Scope nat_scope with sptr tptr fptr.

(** [Conn] is an opaque handle of the backend. *)
Definition Conn := nat.

(** Go [error] values: the package's sentinel, the errors built with
    [fmt.Errorf] (one constructor per format string, carrying the
    formatted name) and the errors a backend hands over. *)
Inductive error : Type :=
| ErrNotFound
| ErrCouldNotFindTable (tableName : string)
| ErrCouldNotFindDataSource (tableName : string)
| ErrCouldNotEstablishConnection (tableName : string)
| ErrCouldNotFindSchema (schemaName : string)
| ErrBackend (msg : string).

(** The two results of a Go function returning [(T, error)]. *)
Inductive result (A : Type) : Type :=
| Ok (a : A)
| Err (e : error).
Arguments Ok {A} a.
Arguments Err {A} e.

(** [value.ValueType] is a [uint8]. *)
Definition ValueType := Z.

(** [driver.Value] is an empty interface; a describe row holds strings,
    and [nil] where nothing was stored. *)
Inductive Value : Type :=
| VNil
| VString (s : string).

(** [TablePartition] is declared in another file of the package; the code
    here reads its [Table] name and passes the descriptor around. *)
Record TablePartition : Type := {
  pt_Table : string;
  pt_Keys : list string
}.

Record Field : Type := {
  idx : Z;
  row : list Value;
  Field_Name : string;
  Description : string;
  Key : string;
  Extra : string;
  Length : Z;
  Field_Type : ValueType;
  NativeType : ValueType;
  NoNulls : bool;
  Collation : string
}.

Record Table : Type := {
  Table_Name : string;
  NameOriginal : string;
  Fields : list fptr;
  FieldMap : gmap string fptr;
  Table_Schema : option sptr;
  Partition : option TablePartition;
  PartitionCt : Z;
  tblID : Z;
  Table_lastRefreshed : GoTime.Time
}.

Record ConfigSource : Type := {
  Conf_Name : string;
  SourceType : string;
  TablesToLoad : list string;
  Partitions : list (option TablePartition);
  Conf_PartitionCt : Z
}.

(** The [Source] interface, with its three methods as the answers of the
    backend; a backend answers the same question the same way for the
    length of one operation.  A table it hands over is an address of the
    store. *)
Record Source : Type := {
  src_Tables : list string;
  src_Table : string → option tptr * option error;
  src_Open : string → option Conn * option error
}.

Record Schema : Type := {
  Schema_Name : string;
  Conf : option ConfigSource;
  DS : option Source;
  InfoSchema : option sptr;
  parent : option sptr;
  schemas : gmap string (option sptr);
  tableSchemas : gmap string (option sptr);
  tableMap : gmap string (option tptr);
  tableNames : list string;
  Schema_lastRefreshed : GoTime.Time
}.

(** The store: what every address points to.  The maps of a schema and
    of a table are the ones their constructors allocate ([NewSchemaSource],
    [NewTable]): a write to a nil map is not modelled. *)
Record store : Type := {
  sch : sptr → Schema;
  tbl : tptr → Table;
  fld : fptr → Field
}.

(** *** Field assignments *)

Definition set_schemas (v : gmap string (option sptr)) (s : Schema) : Schema :=
  {| Schema_Name := Schema_Name s; Conf := Conf s; DS := DS s;
     InfoSchema := InfoSchema s; parent := parent s; schemas := v;
     tableSchemas := tableSchemas s; tableMap := tableMap s;
     tableNames := tableNames s;
     Schema_lastRefreshed := Schema_lastRefreshed s |}.

Definition set_parent (v : option sptr) (s : Schema) : Schema :=
  {| Schema_Name := Schema_Name s; Conf := Conf s; DS := DS s;
     InfoSchema := InfoSchema s; parent := v; schemas := schemas s;
     tableSchemas := tableSchemas s; tableMap := tableMap s;
     tableNames := tableNames s;
     Schema_lastRefreshed := Schema_lastRefreshed s |}.

Definition set_tableSchemas (v : gmap string (option sptr)) (s : Schema) : Schema :=
  {| Schema_Name := Schema_Name s; Conf := Conf s; DS := DS s;
     InfoSchema := InfoSchema s; parent := parent s; schemas := schemas s;
     tableSchemas := v; tableMap := tableMap s;
     tableNames := tableNames s;
     Schema_lastRefreshed := Schema_lastRefreshed s |}.

Definition set_tableMap (v : gmap string (option tptr)) (s : Schema) : Schema :=
  {| Schema_Name := Schema_Name s; Conf := Conf s; DS := DS s;
     InfoSchema := InfoSchema s; parent := parent s; schemas := schemas s;
     tableSchemas := tableSchemas s; tableMap := v;
     tableNames := tableNames s;
     Schema_lastRefreshed := Schema_lastRefreshed s |}.

Definition set_tableNames (v : list string) (s : Schema) : Schema :=
  {| Schema_Name := Schema_Name s; Conf := Conf s; DS := DS s;
     InfoSchema := InfoSchema s; parent := parent s; schemas := schemas s;
     tableSchemas := tableSchemas s; tableMap := tableMap s;
     tableNames := v;
     Schema_lastRefreshed := Schema_lastRefreshed s |}.

Definition set_Table_Schema (v : option sptr) (t : Table) : Table :=
  {| Table_Name := Table_Name t; NameOriginal := NameOriginal t;
     Fields := Fields t; FieldMap := FieldMap t; Table_Schema := v;
     Partition := Partition t; PartitionCt := PartitionCt t;
     tblID := tblID t; Table_lastRefreshed := Table_lastRefreshed t |}.

Definition set_Partition (v : option TablePartition) (t : Table) : Table :=
  {| Table_Name := Table_Name t; NameOriginal := NameOriginal t;
     Fields := Fields t; FieldMap := FieldMap t;
     Table_Schema := Table_Schema t;
     Partition := v; PartitionCt := PartitionCt t;
     tblID := tblID t; Table_lastRefreshed := Table_lastRefreshed t |}.

Definition set_PartitionCt (v : Z) (t : Table) : Table :=
  {| Table_Name := Table_Name t; NameOriginal := NameOriginal t;
     Fields := Fields t; FieldMap := FieldMap t;
     Table_Schema := Table_Schema t;
     Partition := Partition t; PartitionCt := v;
     tblID := tblID t; Table_lastRefreshed := Table_lastRefreshed t |}.

Definition set_tblID (v : Z) (t : Table) : Table :=
  {| Table_Name := Table_Name t; NameOriginal := NameOriginal t;
     Fields := Fields t; FieldMap := FieldMap t;
     Table_Schema := Table_Schema t;
     Partition := Partition t; PartitionCt := PartitionCt t;
     tblID := v; Table_lastRefreshed := Table_lastRefreshed t |}.

Definition set_Fields (v : list fptr) (t : Table) : Table :=
  {| Table_Name := Table_Name t; NameOriginal := NameOriginal t;
     Fields := v; FieldMap := FieldMap t;
     Table_Schema := Table_Schema t;
     Partition := Partition t; PartitionCt := PartitionCt t;
     tblID := tblID t; Table_lastRefreshed := Table_lastRefreshed t |}.

Definition set_FieldMap (v : gmap string fptr) (t : Table) : Table :=
  {| Table_Name := Table_Name t; NameOriginal := NameOriginal t;
     Fields := Fields t; FieldMap := v;
     Table_Schema := Table_Schema t;
     Partition := Partition t; PartitionCt := PartitionCt t;
     tblID := tblID t; Table_lastRefreshed := Table_lastRefreshed t |}.

Definition set_idx (v : Z) (f : Field) : Field :=
  {| idx := v; row := row f; Field_Name := Field_Name f;
     Description := Description f; Key := Key f; Extra := Extra f;
     Length := Length f; Field_Type := Field_Type f;
     NativeType := NativeType f; NoNulls := NoNulls f;
     Collation := Collation f |}.

Definition set_row (v : list Value) (f : Field) : Field :=
  {| idx := idx f; row := v; Field_Name := Field_Name f;
     Description := Description f; Key := Key f; Extra := Extra f;
     Length := Length f; Field_Type := Field_Type f;
     NativeType := NativeType f; NoNulls := NoNulls f;
     Collation := Collation f |}.

(** Writing through a pointer. *)
Definition upd_sch (p : sptr) (f : Schema → Schema) (st : store) : store :=
  {| sch := <[p := f (sch st p)]> (sch st); tbl := tbl st; fld := fld st |}.

Definition upd_tbl (p : tptr) (f : Table → Table) (st : store) : store :=
  {| sch := sch st; tbl := <[p := f (tbl st p)]> (tbl st); fld := fld st |}.

Definition upd_fld (p : fptr) (f : Field → Field) (st : store) : store :=
  {| sch := sch st; tbl := tbl st; fld := <[p := f (fld st p)]> (fld st) |}.

(** A map read [m[k]] of a pointer-valued map: [nil] when the key is
    missing, and whether the key is there. *)
Definition map_get {A} (m : gmap string (option A)) (k : string) : option A :=
  match m !! k with
  | Some v => v
  | None => None
  end.

Definition map_has {A} (m : gmap string A) (k : string) : bool :=
  bool_decide (is_Some (m !! k)).

(** ** Schema: construction, staleness and lookups *)

(** [SchemaRefreshInterval], as the package initialises it. *)
Definition SchemaRefreshInterval : GoTime.Duration := - GoTime.Minute * 5.

Definition NewSchemaSource (schemaName : string) (ds : option Source) : Schema :=
  {| Schema_Name := ToLower schemaName; Conf := None; DS := ds;
     InfoSchema := None; parent := None; schemas := ∅;
     tableSchemas := ∅; tableMap := ∅; tableNames := [];
     Schema_lastRefreshed := GoTime.zero |}.

Definition NewSchema (schemaName : string) : Schema :=
  NewSchemaSource schemaName None.

(** [time.Now()] is an input of the staleness checks. *)
Definition Schema_Since (now : GoTime.Time) (m : Schema) (dur : GoTime.Duration)
    : bool :=
  if GoTime.IsZero (Schema_lastRefreshed m) then false
  else if GoTime.After (Schema_lastRefreshed m) (GoTime.Add now dur) then true
  else false.

(** The interval is a package variable: [interval] is its current value. *)
Definition Schema_Current (now : GoTime.Time) (interval : GoTime.Duration)
    (m : Schema) : bool :=
  Schema_Since now m interval.

Definition Table_Since (now : GoTime.Time) (m : Table) (dur : GoTime.Duration)
    : bool :=
  if GoTime.IsZero (Table_lastRefreshed m) then false
  else if GoTime.After (Table_lastRefreshed m) (GoTime.Add now dur) then true
  else false.

Definition Table_Current (now : GoTime.Time) (interval : GoTime.Duration)
    (m : Table) : bool :=
  Table_Since now m interval.

Definition Schema_Tables (m : Schema) : list string := tableNames m.

Section Lookup.

(** [expr.LeftRight] lives in the [expr] package: it splits
    [schema.table] into its left and right parts and tells whether the
    name had that form. *)
Variable LeftRight : string → string * string * bool.

Definition Schema_Table (m : Schema) (tableName : string) : result tptr :=
  let tableName := ToLower tableName in
  match tableMap m !! tableName with
  | Some (Some t) => Ok t
  | _ =>
      let '(_, tableName, ok) := LeftRight tableName in
      if ok then
        match tableMap m !! tableName with
        | Some (Some t) => Ok t
        | _ => Err (ErrCouldNotFindTable tableName)
        end
      else Err (ErrCouldNotFindTable tableName)
  end.

End Lookup.

Definition Schema_OpenConn (st : store) (m : sptr) (tableName : string)
    : result Conn :=
  let tableName := ToLower tableName in
  match tableSchemas (sch st m) !! tableName with
  | Some (Some s) =>
      match DS (sch st s) with
      | Some ds =>
          match src_Open ds tableName with
          | (_, Some err) => Err err
          | (None, None) => Err (ErrCouldNotEstablishConnection tableName)
          | (Some conn, None) => Ok conn
          end
      | None => Err (ErrCouldNotFindDataSource tableName)
      end
  | _ => Err (ErrCouldNotFindDataSource tableName)
  end.

Definition Schema_Schema (st : store) (m : sptr) (schemaName : string)
    : result sptr :=
  let schemaName := ToLower schemaName in
  match schemas (sch st m) !! schemaName with
  | Some (Some child) =>
      match DS (sch st child) with
      | Some _ => Ok child
      | None => Err (ErrCouldNotFindSchema schemaName)
      end
  | _ => Err (ErrCouldNotFindSchema schemaName)
  end.

Definition Schema_SchemaForTable (st : store) (m : sptr) (tableName : string)
    : result sptr :=
  let tableName := ToLower tableName in
  if bool_decide (Schema_Name (sch st m) = "schema") then Ok m
  else
    match tableSchemas (sch st m) !! tableName with
    | Some (Some ss) =>
        match DS (sch st ss) with
        | Some _ => Ok ss
        | None => Err ErrNotFound
        end
    | _ => Err ErrNotFound
    end.

(** ** Schema: structural operations

    An operation that does not return (a nil dereference, a lock that is
    never granted, a recursion that never ends) has no result: [None]. *)

(** [addChildSchema]: the parent's write lock is held when the child's
    read lock is taken, so a schema attached to itself waits forever.
    The loop stores every entry of the child's table map, in whatever
    order the map is ranged over. *)
Definition addChildSchema (st : store) (m child : sptr) : option store :=
  if bool_decide (m = child) then None
  else
    let st :=
      upd_sch m (λ s, set_schemas
                        (<[Schema_Name (sch st child) := Some child]> (schemas s)) s)
        st in
    let st := upd_sch child (set_parent (Some m)) st in
    Some (foldr (λ '(tableName, t) st,
                   let st :=
                     upd_sch m (λ s, set_tableSchemas
                                       (<[tableName := Some child]> (tableSchemas s)) s)
                       st in
                   upd_sch m (λ s, set_tableMap (<[tableName := t]> (tableMap s)) s) st)
                st (map_to_list (tableMap (sch st child)))).

(** The partition loop of [loadTable]: every descriptor of that table is
    stored in turn, so the last one stays. *)
Fixpoint loadTable_partitions (tableName : string) (t : tptr)
    (pts : list (option TablePartition)) (st : store) : option store :=
  match pts with
  | [] => Some st
  | None :: _ => None
  | Some tp :: pts =>
      let st := if bool_decide (pt_Table tp = tableName)
                then upd_tbl t (set_Partition (Some tp)) st else st in
      loadTable_partitions tableName t pts st
  end.

(** [loadTable] returns its error; [m.DS] is called without a nil check. *)
Definition loadTable (st : store) (m : sptr) (tableName : string)
    : option (store * option error) :=
  match DS (sch st m) with
  | None => None
  | Some ds =>
      match src_Table ds tableName with
      | (_, Some err) => Some (st, Some err)
      | (None, None) => Some (st, Some ErrNotFound)
      | (Some t, None) =>
          let st := upd_tbl t (set_Table_Schema (Some m)) st in
          st ← match Conf (sch st m) with
               | Some conf => loadTable_partitions tableName t (Partitions conf) st
               | None => Some st
               end;
          let name := Table_Name (tbl st t) in
          let st :=
            upd_sch m (λ s, set_tableMap (<[name := Some t]> (tableMap s)) s) st in
          let st :=
            upd_sch m (λ s, set_tableSchemas (<[name := Some m]> (tableSchemas s)) s)
              st in
          Some (st, None)
      end
  end.

(** The scan of [addschemaForTableUnlocked] over the name list. *)
Definition found_in (tableName : string) (names : list string) : bool :=
  foldl (λ found curTableName,
           if bool_decide (tableName = curTableName) then true else found)
        false names.

Definition addschemaForTableUnlocked (st : store) (m : sptr)
    (tableName : string) (ss : sptr) : option store :=
  if found_in tableName (tableNames (sch st m)) then Some st
  else
    let st :=
      upd_sch m (λ s, set_tableNames (sort_Strings (tableNames s ++ [tableName])) s)
        st in
    let t := map_get (tableMap (sch st ss)) tableName in
    '(st, t) ← match t with
               | Some _ => Some (st, t)
               | None =>
                   '(st, err) ← loadTable st m tableName;
                   match err with
                   | Some _ => Some (st, None)
                   | None => Some (st, map_get (tableMap (sch st ss)) tableName)
                   end
               end;
    if map_has (tableMap (sch st m)) tableName then Some st
    else
      let st :=
        upd_sch m (λ s, set_tableSchemas (<[tableName := Some ss]> (tableSchemas s)) s)
          st in
      Some (upd_sch m (λ s, set_tableMap (<[tableName := t]> (tableMap s)) s) st).

(** The partition loop of [addTable]: a descriptor of the configuration
    is taken only while the table has none. *)
Fixpoint addTable_partitions (t : tptr) (pts : list (option TablePartition))
    (st : store) : option store :=
  match pts with
  | [] => Some st
  | None :: _ => None
  | Some pt :: pts =>
      let st := if bool_decide (Table_Name (tbl st t) = pt_Table pt)
                   && bool_decide (Partition (tbl st t) = None)
                then upd_tbl t (set_Partition (Some pt)) st else st in
      addTable_partitions t pts st
  end.

Definition tbl_init (t : tptr) (s : option sptr) (st : store) : store :=
  upd_tbl t (set_Table_Schema s) st.

Definition addTable (st : store) (m : sptr) (t : tptr) : option store :=
  let st := upd_tbl t (set_tblID (Fnv.Sum64 (Table_Name (tbl st t)))) st in
  let st :=
    upd_sch m (λ s, set_tableMap (<[Table_Name (tbl st t) := Some t]> (tableMap s)) s)
      st in
  st ← match Conf (sch st m) with
       | Some conf =>
           if 0 <? Conf_PartitionCt conf
           then Some (upd_tbl t (set_PartitionCt (Conf_PartitionCt conf)) st)
           else addTable_partitions t (Partitions conf) st
       | None => Some st
       end;
  let st := tbl_init t (Some m) st in
  match Table_Schema (tbl st t) with
  | Some ss => addschemaForTableUnlocked st m (Table_Name (tbl st t)) ss
  | None => None
  end.

Definition AddTable (st : store) (m : sptr) (t : tptr) : option store :=
  addTable st m t.

(** Folding a failing step over a list. *)
Fixpoint forM {A} (step : store → A → option store) (l : list A) (st : store)
    : option store :=
  match l with
  | [] => Some st
  | x :: l => st ← step st x; forM step l st
  end.

Section Refresh.

(** Go ranges over a map in an unspecified order: [range_order] is the
    order in which the children are visited. *)
Variable range_order : gmap string (option sptr) → list (string * option sptr).

(** [fuel] bounds the depth of the recursion through the children. *)
Fixpoint refreshSchemaUnlocked (fuel : nat) (st : store) (m : sptr) : option store :=
  match fuel with
  | O => None
  | S fuel =>
      ds ← DS (sch st m);
      st ← forM (λ st tableName, addschemaForTableUnlocked st m tableName m)
                (src_Tables ds) st;
      forM (λ st '(_, child),
              ss ← child;
              st ← refreshSchemaUnlocked fuel st ss;
              forM (λ st tableName, addschemaForTableUnlocked st m tableName ss)
                   (Schema_Tables (sch st ss)) st)
           (range_order (schemas (sch st m))) st
  end.

End Refresh.

(** ** Table: field management *)

(** The scan of [AddField]: the position of the first field of that
    name, where the loop breaks. *)
Fixpoint AddField_scan (st : store) (name : string) (i : nat)
    (fields : list fptr) : option nat :=
  match fields with
  | [] => None
  | curFld :: fields =>
      if bool_decide (Field_Name (fld st curFld) = name) then Some i
      else AddField_scan st name (S i) fields
  end.

Definition Table_AddField (st : store) (m : tptr) (f : fptr) : store :=
  let st :=
    match AddField_scan st (Field_Name (fld st f)) 0 (Fields (tbl st m)) with
    | Some i => upd_tbl m (λ t, set_Fields (<[i := f]> (Fields t)) t) st
    | None =>
        let st := upd_fld f (set_idx (Z.of_nat (length (Fields (tbl st m))))) st in
        upd_tbl m (λ t, set_Fields (Fields t ++ [f]) t) st
    end in
  upd_tbl m (λ t, set_FieldMap (<[Field_Name (fld st f) := f]> (FieldMap t)) t) st.

Definition Field_Id (m : Field) : Z := idx m.
Definition Table_Id (m : Table) : Z := tblID m.

(** ** Field: the describe row *)

Definition DescribeFullCols : list string :=
  ["Field"; "Type"; "Collation"; "Null"; "Key"; "Default"; "Extra";
   "Privileges"; "Comment"].

Section Describe.

(** [ValueType.String] belongs to the [value] package. *)
Variable ValueType_String : ValueType → string.

(** The row built on the first call: [make] gives nine nil values, the
    nine assignments fill them. *)
Definition build_row (m : Field) : list Value :=
  let r := replicate (length DescribeFullCols) VNil in
  let r := <[0%nat := VString (Field_Name m)]> r in
  let r := <[1%nat := VString (ValueType_String (Field_Type m))]> r in
  let r := <[2%nat := VString (Collation m)]> r in
  let r := <[3%nat := VString ""]> r in
  let r := <[4%nat := VString ""]> r in
  let r := <[5%nat := VString ""]> r in
  let r := <[6%nat := VString (Extra m)]> r in
  let r := <[7%nat := VString ""]> r in
  <[8%nat := VString (Description m)]> r.

(** [AsRow] returns the row and leaves it memoized in the field. *)
Definition Field_AsRow (st : store) (m : fptr) : list Value * store :=
  if (0 <? length (row (fld st m)))%nat then (row (fld st m), st)
  else
    let st := upd_fld m (λ f, set_row (build_row f) f) st in
    (row (fld st m), st).

End Describe.

(** ** Sequences of structural operations *)

Inductive op : Type :=
| OpAddTable (m : sptr) (t : tptr)
| OpAddChildSchema (m child : sptr)
| OpRefresh (m : sptr).

Section Run.

Variable range_order : gmap string (option sptr) → list (string * option sptr).

Definition run_op (fuel : nat) (st : store) (o : op) : option store :=
  match o with
  | OpAddTable m t => AddTable st m t
  | OpAddChildSchema m child => addChildSchema st m child
  | OpRefresh m => refreshSchemaUnlocked range_order fuel st m
  end.

Definition run_ops (fuel : nat) (ops : list op) (st : store) : option store :=
  forM (run_op fuel) ops st.

End Run.

(** ** Constructors of tables and fields *)

Definition NewTable (table : string) : Table :=
  {| Table_Name := ToLower table; NameOriginal := table; Fields := [];
     FieldMap := ∅; Table_Schema := None; Partition := None;
     PartitionCt := 0; tblID := 0; Table_lastRefreshed := GoTime.zero |}.

(** The literal [&Field{Type: valType, Name: name}] of [AddFieldType]. *)
Definition Field_literal (name : string) (valType : ValueType) : Field :=
  {| idx := 0; row := []; Field_Name := name; Description := ""; Key := "";
     Extra := ""; Length := 0; Field_Type := valType; NativeType := 0;
     NoNulls := false; Collation := "" |}.

Definition NewFieldBase (name : string) (valType : ValueType) (size : Z)
    (desc : string) : Field :=
  {| idx := 0; row := []; Field_Name := name; Description := desc; Key := "";
     Extra := ""; Length := size mod 2 ^ 32; Field_Type := valType;
     NativeType := valType; NoNulls := false; Collation := "" |}.

Definition NewField (name : string) (valType : ValueType) (size : Z)
    (allowNulls : bool) (key collation description : string) : Field :=
  {| idx := 0; row := []; Field_Name := name; Description := description;
     Key := key; Extra := description; Length := size mod 2 ^ 32;
     Field_Type := valType; NativeType := valType;
     NoNulls := negb allowNulls; Collation := collation |}.

(** [AddFieldType] allocates the literal at [f] and registers it. *)
Definition Table_AddFieldType (st : store) (m : tptr) (f : fptr)
    (name : string) (valType : ValueType) : store :=
  Table_AddField (upd_fld f (λ _, Field_literal name valType) st) m f.

(** Modelled from the spec: [expr.LeftRight], whose source is in the
    [expr] package.  A name is split on its [schema.table] separator,
    the first dot; a name without one is returned whole, with [false]. *)
Definition LeftRight_dot (val : string) : string * string * bool :=
  match index 0 "." val with
  | Some i =>
      (substring 0 i val, substring (S i) (String.length val - S i) val, true)
  | None => ("", val, false)
  end.

(** ** Sample catalogs *)

Module Sample.

(** A store in which nothing has been registered yet. *)
Definition blank : store :=
  {| sch := λ _, NewSchema "";
     tbl := λ _, NewTable "";
     fld := λ _, Field_literal "" 0 |}.

(** A backend that lists nothing and knows no table. *)
Definition quiet : Source :=
  {| src_Tables := [];
     src_Table := λ _, (None, None);
     src_Open := λ _, (None, None) |}.

(** A backend that opens connection 7 for ["orders"], fails on
    ["broken"] and answers nothing at all for any other name. *)
Definition shop : Source :=
  {| src_Tables := ["orders"];
     src_Table := λ _, (None, None);
     src_Open := λ name,
       if bool_decide (name = "orders") then (Some 7%nat, None)
       else if bool_decide (name = "broken") then (None, Some (ErrBackend "down"))
       else (None, None) |}.

(** A schema at address 0 backed by [shop], owner of three names; a
    fourth name has a nil owner, a fifth an owner without a source (the
    schema at address 1). *)
Definition market : store :=
  {| sch := <[0%nat := set_tableSchemas
                         {["orders" := Some 0%nat; "broken" := Some 0%nat;
                           "ghost" := Some 0%nat; "orphan" := None;
                           "stray" := Some 1%nat]}
                         (NewSchemaSource "market" (Some shop))]> (sch blank);
     tbl := tbl blank;
     fld := fld blank |}.

(** Map iteration in the order of [map_to_list]. *)
Definition in_order (m : gmap string (option sptr)) : list (string * option sptr) :=
  map_to_list m.

(** Parent at address 0, child at address 1, both backed by [quiet];
    tables ["t1"] and ["t2"] at addresses 1 and 2. *)
Definition family : store :=
  {| sch := <[0%nat := NewSchemaSource "p" (Some quiet)]>
            (<[1%nat := NewSchemaSource "c" (Some quiet)]> (sch blank));
     tbl := <[1%nat := NewTable "t1"]> (<[2%nat := NewTable "t2"]> (tbl blank));
     fld := fld blank |}.

(** A schema configured with a catalog-wide partition count of 4, and a
    table at address 1 that carries its own descriptor. *)
Definition four : ConfigSource :=
  {| Conf_Name := "conf"; SourceType := "mem"; TablesToLoad := [];
     Partitions := []; Conf_PartitionCt := 4 |}.

Definition own_descriptor : TablePartition :=
  {| pt_Table := "orders"; pt_Keys := ["id"] |}.

Definition partitioned : store :=
  {| sch := <[0%nat := {| Schema_Name := "s"; Conf := Some four; DS := None;
                          InfoSchema := None; parent := None; schemas := ∅;
                          tableSchemas := ∅; tableMap := ∅; tableNames := [];
                          Schema_lastRefreshed := GoTime.zero |}]> (sch blank);
     tbl := <[0%nat := NewTable "users"]>
            (<[1%nat := set_Partition (Some own_descriptor) (NewTable "orders")]>
               (tbl blank));
     fld := fld blank |}.

(** A table at address 0 with the fields A, B and C at addresses 0, 1
    and 2, registered in that order; a second B at address 3. *)
Definition abc : store :=
  let st := {| sch := sch blank;
               tbl := <[0%nat := NewTable "t"]> (tbl blank);
               fld := fld blank |} in
  let st := Table_AddFieldType st 0 0 "A" 11 in
  let st := Table_AddFieldType st 0 1 "B" 11 in
  let st := Table_AddFieldType st 0 2 "C" 11 in
  upd_fld 3%nat (λ _, NewField "B" 20 32 true "" "utf8" "second B") st.

(** The family once the table t1 has been added to the child. *)
Definition with_t1 : store := default family (AddTable family 1 1).

End Sample.

(** ** Predicates of the statements *)

(** The owner of a table cannot be resolved: the owner map has no entry
    for the name, a nil entry, or an owner without a source. *)
Definition owner_unresolved (st : store) (m : sptr) (name : string) : Prop :=
  tableSchemas (sch st m) !! name = None
  ∨ tableSchemas (sch st m) !! name = Some None
  ∨ ∃ s, tableSchemas (sch st m) !! name = Some (Some s)
         ∧ DS (sch st s) = None.

(** The answer of the owner's [Source.Open]. *)
Definition owner_opens (st : store) (m : sptr) (name : string)
    (answer : option Conn * option error) : Prop :=
  ∃ s ds, tableSchemas (sch st m) !! name = Some (Some s)
          ∧ DS (sch st s) = Some ds
          ∧ src_Open ds name = answer.

(** The memoized row of a field is up to date: not built yet, or the row
    of the field as it is now. *)
Definition row_current (ValueType_String : ValueType → string) (f : Field) : Prop :=
  row f = [] ∨ row f = build_row ValueType_String f.

(** The invariant of the three indexes as the catalog is meant to keep
    it: the names of the list, the keys of the table map and the keys of
    the owner map are the same set, and the list is ascending. *)
Definition indexes_agree (s : Schema) : Prop :=
  list_to_set (tableNames s) = dom (tableMap s)
  ∧ dom (tableMap s) = dom (tableSchemas s)
  ∧ Sorted string_le (tableNames s).

(** What the three operations keep: the name list is ascending and has no
    duplicates, every name of the list is a key of the table map, and
    every key of the owner map is a key of the table map. *)
Definition names_sorted (s : Schema) : Prop :=
  Sorted string_le (tableNames s) ∧ NoDup (tableNames s).

Definition owners_have_tables (s : Schema) : Prop :=
  dom (tableSchemas s) ⊆ dom (tableMap s).

Definition names_have_tables (s : Schema) : Prop :=
  ∀ n, n ∈ tableNames s → n ∈ dom (tableMap s).

Definition indexes_nested (s : Schema) : Prop :=
  names_sorted s ∧ names_have_tables s ∧ owners_have_tables s.

Definition catalog_ok (st : store) : Prop := ∀ p, indexes_nested (sch st p).

(** The reading of the partition rule in which the descriptor a table
    carries keeps the catalog-wide count from being applied. *)
Definition explicit_descriptor_wins (st : store) (m : sptr) (t : tptr) : Prop :=
  ∀ conf pt st',
    Conf (sch st m) = Some conf → Conf_PartitionCt conf = 4 →
    Partition (tbl st t) = Some pt → pt_Table pt = Table_Name (tbl st t) →
    AddTable st m t = Some st' →
    Partition (tbl st' t) = Some pt
    ∧ PartitionCt (tbl st' t) = PartitionCt (tbl st t).

(** ** Shapes of a schema after an operation *)

(** A schema after a successful load: the table found under its own
    name, owned by the loading schema. *)
Definition loaded (m : sptr) (name : string) (t : tptr) (s : Schema) : Schema :=
  set_tableSchemas (<[name := Some m]> (tableSchemas s))
    (set_tableMap (<[name := Some t]> (tableMap s)) s).

Definition maybe_loaded (m : sptr) (s s' : Schema) : Prop :=
  s' = s ∨ ∃ name t, s' = loaded m name t s.

(** No nil descriptor in the configuration of a schema. *)
Definition conf_ok (s : Schema) : Prop :=
  ∀ conf, Conf s = Some conf → Forall is_Some (Partitions conf).

(** A schema after [addschemaForTableUnlocked] stored a new entry. *)
Definition registered (ss : sptr) (n : string) (t : option tptr) (s : Schema)
    : Schema :=
  set_tableMap (<[n := t]> (tableMap s))
    (set_tableSchemas (<[n := Some ss]> (tableSchemas s)) s).

Definition named (n : string) (s : Schema) : Schema :=
  set_tableNames (sort_Strings (tableNames s ++ [n])) s.

Definition attach_step (m child : sptr) : string * option tptr → store → store :=
  λ '(tableName, t) st,
    let st :=
      upd_sch m (λ s, set_tableSchemas (<[tableName := Some child]> (tableSchemas s)) s)
        st in
    upd_sch m (λ s, set_tableMap (<[tableName := t]> (tableMap s)) s) st.

Definition attached (child : sptr) (cm : gmap string (option tptr)) (s : Schema)
    : Schema :=
  set_tableMap (cm ∪ tableMap s)
    (set_tableSchemas (((λ _, Some child) <$> cm) ∪ tableSchemas s) s).

(** The branch of [addTable] on the configuration. *)
Definition addTable_configure (m : sptr) (t : tptr) (st : store) : option store :=
  match Conf (sch st m) with
  | Some conf =>
      if 0 <? Conf_PartitionCt conf
      then Some (upd_tbl t (set_PartitionCt (Conf_PartitionCt conf)) st)
      else addTable_partitions t (Partitions conf) st
  | None => Some st
  end.






(** ** Table: lookups of fields and columns *)

Definition Table_HasField (m : Table) (name : string) : bool :=
  map_has (FieldMap m) name.

Definition Field_ValueType (m : Field) : ValueType := Field_Type m.

Section Column.

(** [value.UnknownType] belongs to the [value] package. *)
Variable UnknownType : ValueType.

Definition Table_Column (st : store) (m : tptr) (col : string) : ValueType * bool :=
  match FieldMap (tbl st m) !! col with
  | Some f => (Field_ValueType (fld st f), true)
  | None =>
      match FieldMap (tbl st m) !! ToLower col with
      | Some f => (Field_ValueType (fld st f), true)
      | None => (UnknownType, false)
      end
  end.

End Column.

(** The two column fields of a [Table], [FieldPositions] and [cols]:
    [SetColumns] and [SetColumnsFromFields] write both and read neither. *)
Record Columns : Type := {
  FieldPositions : gmap string Z;
  cols : list string
}.

(** The loop of [SetColumns]: [cols[idx] = col] stores back what was
    read. *)
Fixpoint SetColumns_loop (idx : nat) (todo : list string)
    (acc : gmap string Z * list string) : gmap string Z * list string :=
  match todo with
  | [] => acc
  | col :: todo =>
      SetColumns_loop (S idx) todo
        (<[col := Z.of_nat idx]> (fst acc), <[idx := col]> (snd acc))
  end.

Definition Table_SetColumns (columns : list string) : Columns :=
  let '(positions, columns) := SetColumns_loop 0 columns (∅, columns) in
  {| FieldPositions := positions; cols := columns |}.

(** The loop of [SetColumnsFromFields], over the field list, into a
    slice of as many empty strings. *)
Fixpoint SetColumnsFromFields_loop (st : store) (idx : nat) (fields : list fptr)
    (acc : gmap string Z * list string) : gmap string Z * list string :=
  match fields with
  | [] => acc
  | f :: fields =>
      let col := ToLower (Field_Name (fld st f)) in
      SetColumnsFromFields_loop st (S idx) fields
        (<[col := Z.of_nat idx]> (fst acc), <[idx := col]> (snd acc))
  end.

Definition Table_SetColumnsFromFields (st : store) (m : tptr) : Columns :=
  let fields := Fields (tbl st m) in
  let '(positions, columns) :=
    SetColumnsFromFields_loop st 0 fields (∅, replicate (length fields) "") in
  {| FieldPositions := positions; cols := columns |}.

Definition Table_Columns (c : Columns) : list string := cols c.
Definition Table_FieldNamesPositions (c : Columns) : gmap string Z :=
  FieldPositions c.

(** The names of the fields of a table, in the order of the list. *)
Definition field_names (st : store) (m : tptr) : list string :=
  map (λ p, Field_Name (fld st p)) (Fields (tbl st m)).

(** Every field of the list carries its position as its ordinal. *)
Definition idx_is_position (st : store) (m : tptr) : Prop :=
  ∀ i p, Fields (tbl st m) !! i = Some p → idx (fld st p) = Z.of_nat i.

(** ** Answers of a lookup *)

(** What [OpenConn] makes of the answer of [Source.Open]. *)
Definition conn_or_error (name : string) (answer : option Conn * option error)
    : result Conn :=
  match answer with
  | (_, Some err) => Err err
  | (None, None) => Err (ErrCouldNotEstablishConnection name)
  | (Some conn, None) => Ok conn
  end.

(** The first descriptor of a configuration made for a table name: the
    one [addTable] gives a table that has none. *)
Fixpoint first_partition (name : string) (pts : list (option TablePartition))
    : option TablePartition :=
  match pts with
  | [] => None
  | Some pt :: pts =>
      if bool_decide (name = pt_Table pt) then Some pt
      else first_partition name pts
  | None :: pts => first_partition name pts
  end.

(** ** Shapes of a table after [AddTable] *)

(** The branch of [addTable] on a configuration, on the table itself. *)
Definition configured (conf : ConfigSource) (x : Table) : Table :=
  if 0 <? Conf_PartitionCt conf then set_PartitionCt (Conf_PartitionCt conf) x
  else
    match Partition x with
    | Some _ => x
    | None => set_Partition (first_partition (Table_Name x) (Partitions conf)) x
    end.

(** The table [AddTable] leaves behind: identifier, configuration,
    owning schema. *)
Definition added (m : sptr) (conf : option ConfigSource) (x : Table) : Table :=
  let x := set_tblID (Fnv.Sum64 (Table_Name x)) x in
  let x := match conf with Some conf => configured conf x | None => x end in
  set_Table_Schema (Some m) x.

(** ** Table: refresh time *)

Definition set_Table_lastRefreshed (v : GoTime.Time) (t : Table) : Table :=
  {| Table_Name := Table_Name t; NameOriginal := NameOriginal t;
     Fields := Fields t; FieldMap := FieldMap t;
     Table_Schema := Table_Schema t;
     Partition := Partition t; PartitionCt := PartitionCt t;
     tblID := tblID t; Table_lastRefreshed := v |}.

(** [SetRefreshed], with [time.Now()] as an input. *)
Definition Table_SetRefreshed (now : GoTime.Time) (m : Table) : Table :=
  set_Table_lastRefreshed now m.

(** ** What the structural operations leave alone *)

(** No name, key or child is ever dropped, and the name, the source, the
    configuration and the refresh time of a schema are never written. *)
Definition grows (st st' : store) : Prop :=
  ∀ p, Schema_Name (sch st' p) = Schema_Name (sch st p)
       ∧ DS (sch st' p) = DS (sch st p)
       ∧ Conf (sch st' p) = Conf (sch st p)
       ∧ Schema_lastRefreshed (sch st' p) = Schema_lastRefreshed (sch st p)
       ∧ dom (schemas (sch st p)) ⊆ dom (schemas (sch st' p))
       ∧ (∀ x, x ∈ tableNames (sch st p) → x ∈ tableNames (sch st' p))
       ∧ dom (tableMap (sch st p)) ⊆ dom (tableMap (sch st' p))
       ∧ dom (tableSchemas (sch st p)) ⊆ dom (tableSchemas (sch st' p)).

(** The children and the parent of every schema are the same, a name
    that had a table still has one, and no table was renamed. *)
Definition keeps (st st' : store) : Prop :=
  (∀ p, schemas (sch st' p) = schemas (sch st p)
        ∧ parent (sch st' p) = parent (sch st p)
        ∧ ∀ k x, tableMap (sch st p) !! k = Some (Some x) →
                 ∃ y, tableMap (sch st' p) !! k = Some (Some y))
  ∧ ∀ q, Table_Name (tbl st' q) = Table_Name (tbl st q).

(** [c] is a child of [m]. *)
Definition child_of (st : store) (m c : sptr) : Prop :=
  ∃ name, schemas (sch st m) !! name = Some (Some c).

(** The names a schema can see: the ones in its list, the ones its
    source lists, and the ones its children can see. *)
Inductive visible (st : store) : sptr → string → Prop :=
| visible_name m n :
    n ∈ tableNames (sch st m) → visible st m n
| visible_listed m ds n :
    DS (sch st m) = Some ds → n ∈ src_Tables ds → visible st m n
| visible_child m c n :
    child_of st m c → visible st c n → visible st m n.

(** A schema that cannot be refreshed: it has no source, a nil child, a
    child that cannot be refreshed, or it is its own descendant. *)
Inductive unrefreshable (st : store) : sptr → Prop :=
| unrefreshable_source m :
    DS (sch st m) = None → unrefreshable st m
| unrefreshable_nil m name :
    schemas (sch st m) !! name = Some None → unrefreshable st m
| unrefreshable_child m c :
    child_of st m c → unrefreshable st c → unrefreshable st m
| unrefreshable_cycle m :
    tc (child_of st) m m → unrefreshable st m.

(** What every step of a refresh does to the store. *)
Definition settles (st st' : store) : Prop := grows st st' ∧ keeps st st'.


(** No descriptor of the list is for the table [n]. *)
Definition no_descriptor (n : string) (pts : list (option TablePartition)) : Prop :=
  Forall (λ o, ∀ tp, o = Some tp → pt_Table tp ≠ n) pts.

(** A name of the list has a table. *)
Definition listed_has_table (st : store) (m : sptr) (n : string) : Prop :=
  n ∈ tableNames (sch st m) → ∃ x, tableMap (sch st m) !! n = Some (Some x).

(** ** Building a table column by column *)

(** A run of [AddFieldType] calls on one table; each call allocates its
    field, at the address given with the name and the type. *)
Definition add_columns (m : tptr) (l : list (fptr * string * ValueType))
    (st : store) : store :=
  foldl (λ st '(f, name, valType), Table_AddFieldType st m f name valType) st l.

(** The fields of the table are those of the calls, each with its
    position, name and type, and is found under its name. *)
Definition columns_built (m : tptr) (l : list (fptr * string * ValueType))
    (st : store) : Prop :=
  Fields (tbl st m) = l.*1.*1
  ∧ ∀ i f name valType,
      l !! i = Some (f, name, valType) →
      idx (fld st f) = Z.of_nat i
      ∧ Field_Name (fld st f) = name
      ∧ Field_Type (fld st f) = valType
      ∧ FieldMap (tbl st m) !! name = Some f.

(** ** A sample catalog with a source that describes a table *)

Module Stock.

(** A backend that lists ["t1"] and describes it by the table at
    address 1. *)
Definition warehouse : Source :=
  {| src_Tables := ["t1"];
     src_Table := λ name,
       if bool_decide (name = "t1") then (Some 1%nat, None) else (None, None);
     src_Open := λ _, (None, None) |}.

(** Parent at address 0 backed by [Sample.quiet], child at address 1
    backed by [warehouse]; the tables of [Sample.family]. *)
Definition apart : store :=
  {| sch := <[0%nat := NewSchemaSource "p" (Some Sample.quiet)]>
            (<[1%nat := NewSchemaSource "c" (Some warehouse)]> (sch Sample.blank));
     tbl := tbl Sample.family;
     fld := fld Sample.blank |}.

(** The child attached to the parent, and the parent refreshed. *)
Definition joined : store := default apart (addChildSchema apart 0 1).

Definition refreshed : store :=
  default joined (refreshSchemaUnlocked Sample.in_order 2 joined 0).

(** The child alone, refreshed. *)
Definition child_refreshed : store :=
  default apart (refreshSchemaUnlocked Sample.in_order 1 apart 1).

(** The sample family after the child got t1, was attached, got t2, and
    the parent was refreshed. *)
Definition history : list op :=
  [OpAddChildSchema 0 1; OpAddTable 1 2; OpRefresh 0].

Definition grown : store :=
  default Sample.with_t1 (run_ops Sample.in_order 2 history Sample.with_t1).

(** The family with t1 in the child, the child attached. *)
Definition attached_t1 : store :=
  default Sample.with_t1 (addChildSchema Sample.with_t1 0 1).

(** The family with both tables in the child. *)
Definition with_t2 : store := default Sample.with_t1 (AddTable Sample.with_t1 1 2).

(** Two columns for the table at address 0. *)
Definition two_columns : list (fptr * string * ValueType) :=
  [(0%nat, "a", 11); (1%nat, "b", 12)].

(** The name made of a dotless i (U+0131, the bytes C4 B1) and a d, and
    a schema that holds a table under it. *)
Definition dotless_id : string :=
  String (ascii_of_nat 196) (String (ascii_of_nat 177) "d").

Definition dotless : Schema :=
  set_tableMap {[dotless_id := Some 5%nat]} (NewSchema "shop").

(** A schema that holds a table under an ASCII name. *)
Definition orders : Schema :=
  set_tableMap {["orders" := Some 5%nat]} (NewSchema "shop").



End Stock.

(** * Properties *)

(** ** Strings *)

Section StringFacts.

Lemma lower_byte_idem c : lower_byte (lower_byte c) = lower_byte c.
Proof. destruct c as [[] [] [] [] [] [] [] []]; reflexivity. Qed.

Lemma lower_upper_byte c : lower_byte (upper_byte c) = lower_byte c.
Proof. destruct c as [[] [] [] [] [] [] [] []]; reflexivity. Qed.

Lemma lower_byte_ascii c :
  (byte_val c <? Utf8.RuneSelf) = true →
  (byte_val (lower_byte c) <? Utf8.RuneSelf) = true.
Proof. destruct c as [[] [] [] [] [] [] [] []]; intros H; exact H || reflexivity. Qed.

Lemma upper_byte_ascii c :
  (byte_val c <? Utf8.RuneSelf) = true →
  (byte_val (upper_byte c) <? Utf8.RuneSelf) = true.
Proof. destruct c as [[] [] [] [] [] [] [] []]; intros H; exact H || reflexivity. Qed.

Lemma lower_byte_fix c :
  ((65 <=? byte_val c) && (byte_val c <=? 90)) = false → lower_byte c = c.
Proof.
  destruct c as [[] [] [] [] [] [] [] []]; intros H; reflexivity || discriminate H.
Qed.

Lemma upper_byte_fix c :
  ((97 <=? byte_val c) && (byte_val c <=? 122)) = false → upper_byte c = c.
Proof.
  destruct c as [[] [] [] [] [] [] [] []]; intros H; reflexivity || discriminate H.
Qed.

Lemma isASCII_lower_bytes s : isASCII s = true → isASCII (lower_bytes s) = true.
Proof.
  induction s as [|c s IH]; simpl; [auto|].
  intros [Hc Hs]%andb_true_iff. now rewrite lower_byte_ascii, IH.
Qed.

Lemma isASCII_upper_bytes s : isASCII s = true → isASCII (upper_bytes s) = true.
Proof.
  induction s as [|c s IH]; simpl; [auto|].
  intros [Hc Hs]%andb_true_iff. now rewrite upper_byte_ascii, IH.
Qed.

Lemma lower_bytes_fix s : hasUpper s = false → lower_bytes s = s.
Proof.
  induction s as [|c s IH]; simpl; [auto|].
  intros [Hc Hs]%orb_false_iff. now rewrite lower_byte_fix, IH.
Qed.

Lemma upper_bytes_fix s : hasLower s = false → upper_bytes s = s.
Proof.
  induction s as [|c s IH]; simpl; [auto|].
  intros [Hc Hs]%orb_false_iff. now rewrite upper_byte_fix, IH.
Qed.

(** On a name of ASCII bytes the two mappings are the byte loops. *)
Lemma ToLower_ascii s : isASCII s = true → ToLower s = lower_bytes s.
Proof.
  intros H. unfold ToLower. rewrite H.
  destruct (hasUpper s) eqn:Hu; [reflexivity|]. now rewrite lower_bytes_fix.
Qed.

Lemma ToUpper_ascii s : isASCII s = true → ToUpper s = upper_bytes s.
Proof.
  intros H. unfold ToUpper. rewrite H.
  destruct (hasLower s) eqn:Hu; [reflexivity|]. now rewrite upper_bytes_fix.
Qed.

Lemma lower_bytes_idem s : lower_bytes (lower_bytes s) = lower_bytes s.
Proof.
  induction s as [|c s IH]; simpl; [reflexivity|].
  now rewrite lower_byte_idem, IH.
Qed.

Lemma lower_upper_bytes s : lower_bytes (upper_bytes s) = lower_bytes s.
Proof.
  induction s as [|c s IH]; simpl; [reflexivity|].
  now rewrite lower_upper_byte, IH.
Qed.

Lemma ToLower_idem s : isASCII s = true → ToLower (ToLower s) = ToLower s.
Proof.
  intros H. rewrite (ToLower_ascii s H).
  rewrite ToLower_ascii by now apply isASCII_lower_bytes.
  apply lower_bytes_idem.
Qed.

Lemma ToLower_ToUpper s : isASCII s = true → ToLower (ToUpper s) = ToLower s.
Proof.
  intros H. rewrite (ToUpper_ascii s H), (ToLower_ascii s H).
  rewrite ToLower_ascii by now apply isASCII_upper_bytes.
  apply lower_upper_bytes.
Qed.

Lemma sort_Strings_Sorted l : Sorted string_le (sort_Strings l).
Proof. apply Sorted_merge_sort; apply _. Qed.

Lemma sort_Strings_perm l : sort_Strings l ≡ₚ l.
Proof. apply merge_sort_Permutation. Qed.

Lemma elem_of_sort_Strings x l : x ∈ sort_Strings l ↔ x ∈ l.
Proof. now rewrite sort_Strings_perm. Qed.

Lemma NoDup_sort_Strings l : NoDup (sort_Strings l) ↔ NoDup l.
Proof. now rewrite sort_Strings_perm. Qed.

End StringFacts.

(** ** Connections *)

Section OpenConn.

Variables (st : store) (m : sptr) (tableName : string).

Let name := ToLower tableName.

Lemma OpenConn_cases :
  (owner_unresolved st m name
     ∧ Schema_OpenConn st m tableName = Err (ErrCouldNotFindDataSource name))
  ∨ (∃ c e, owner_opens st m name (c, Some e) ∧ Schema_OpenConn st m tableName = Err e)
  ∨ (owner_opens st m name (None, None)
     ∧ Schema_OpenConn st m tableName = Err (ErrCouldNotEstablishConnection name))
  ∨ (∃ conn, owner_opens st m name (Some conn, None)
     ∧ Schema_OpenConn st m tableName = Ok conn).
Proof.
  unfold owner_unresolved, owner_opens, Schema_OpenConn. fold name.
  destruct (tableSchemas (sch st m) !! name) as [[s|]|] eqn:Hs.
  - destruct (DS (sch st s)) as [ds|] eqn:Hds.
    + destruct (src_Open ds name) as [[c|] [e|]] eqn:Ho; right.
      * left. exists (Some c), e. eauto 10.
      * right; right. exists c. eauto 10.
      * left. exists None, e. eauto 10.
      * right; left. eauto 10.
    + left. split; [right; right; eauto|reflexivity].
  - left. auto.
  - left. auto.
Qed.

Lemma owner_opens_resolved a : owner_opens st m name a → ¬ owner_unresolved st m name.
Proof.
  intros (s & ds & Hs & Hds & _) [H|[H|(s' & H & Hn)]]; congruence.
Qed.

Lemma owner_opens_det a b : owner_opens st m name a → owner_opens st m name b → a = b.
Proof.
  intros (s & ds & Hs & Hds & Ha) (s' & ds' & Hs' & Hds' & Hb).
  rewrite Hs in Hs'. injection Hs' as <-.
  rewrite Hds in Hds'. injection Hds' as <-. congruence.
Qed.

(** C5.  [OpenConn] fails exactly when the owner of the (lowercased)
    table name cannot be resolved, when the owner's [Source.Open]
    returns an error, or when it returns neither an error nor a
    connection; the last case is reported with an error of its own.
    In every other case it returns the non-nil connection that
    [Source.Open] gave. *)
Theorem OpenConn_fails_iff :
  ((∃ e, Schema_OpenConn st m tableName = Err e)
     ↔ owner_unresolved st m name
       ∨ (∃ c e, owner_opens st m name (c, Some e))
       ∨ owner_opens st m name (None, None))
  ∧ (∀ conn, Schema_OpenConn st m tableName = Ok conn
             ↔ owner_opens st m name (Some conn, None))
  ∧ (owner_unresolved st m name →
     Schema_OpenConn st m tableName = Err (ErrCouldNotFindDataSource name))
  ∧ (∀ c e, owner_opens st m name (c, Some e) → Schema_OpenConn st m tableName = Err e)
  ∧ (owner_opens st m name (None, None) →
     Schema_OpenConn st m tableName = Err (ErrCouldNotEstablishConnection name)).
Proof.
  pose proof OpenConn_cases as Hc.
  assert (Hu : owner_unresolved st m name →
               Schema_OpenConn st m tableName = Err (ErrCouldNotFindDataSource name)).
  { intros H.
    destruct Hc as [[_ E]|[(c & e' & Ho & _)|[[Ho _]|(conn' & Ho & _)]]];
      [exact E|destruct (owner_opens_resolved _ Ho H)..]. }
  assert (He : ∀ c e, owner_opens st m name (c, Some e) →
                      Schema_OpenConn st m tableName = Err e).
  { intros c e H.
    destruct Hc as [[Hn _]|[(c' & e' & Ho & E)|[[Ho _]|(conn' & Ho & _)]]];
      [destruct (owner_opens_resolved _ H Hn)
      |pose proof (owner_opens_det _ _ Ho H); congruence..]. }
  assert (Hnil : owner_opens st m name (None, None) →
                 Schema_OpenConn st m tableName
                 = Err (ErrCouldNotEstablishConnection name)).
  { intros H.
    destruct Hc as [[Hn _]|[(c' & e' & Ho & _)|[[_ E]|(conn' & Ho & _)]]];
      [destruct (owner_opens_resolved _ H Hn)
      |pose proof (owner_opens_det _ _ Ho H); congruence
      |exact E
      |pose proof (owner_opens_det _ _ Ho H); congruence]. }
  assert (Hok : ∀ conn, owner_opens st m name (Some conn, None) →
                        Schema_OpenConn st m tableName = Ok conn).
  { intros conn H.
    destruct Hc as [[Hn _]|[(c' & e' & Ho & _)|[[Ho _]|(conn' & Ho & E)]]];
      [destruct (owner_opens_resolved _ H Hn)
      |pose proof (owner_opens_det _ _ Ho H); congruence..]. }
  split; [split|split; [intros conn; split|auto]].
  - intros [e E].
    destruct Hc as [[H _]|[(c & e' & H & _)|[[H _]|(conn & _ & H)]]]; eauto.
    congruence.
  - intros [H|[(c & e & H)|H]]; eauto.
  - intros E.
    destruct Hc as [[_ E']|[(c & e' & _ & E')|[[_ E']|(conn' & Ho & E')]]];
      congruence.
  - apply Hok.
Qed.

End OpenConn.

Example OpenConn_market :
  Schema_OpenConn Sample.market 0 "Orders" = Ok 7%nat
  ∧ Schema_OpenConn Sample.market 0 "broken" = Err (ErrBackend "down")
  ∧ Schema_OpenConn Sample.market 0 "GHOST"
    = Err (ErrCouldNotEstablishConnection "ghost")
  ∧ Schema_OpenConn Sample.market 0 "orphan" = Err (ErrCouldNotFindDataSource "orphan")
  ∧ Schema_OpenConn Sample.market 0 "stray" = Err (ErrCouldNotFindDataSource "stray")
  ∧ Schema_OpenConn Sample.market 0 "nobody" = Err (ErrCouldNotFindDataSource "nobody").
Proof. vm_compute. repeat split; reflexivity. Qed.

(** ** Staleness *)

Section Staleness.

Lemma Since_true_iff (last now : GoTime.Time) (dur : GoTime.Duration) :
  (if GoTime.IsZero last then false
   else if GoTime.After last (GoTime.Add now dur) then true else false) = true
  ↔ GoTime.IsZero last = false ∧ GoTime.After last (GoTime.Add now dur) = true.
Proof.
  destruct (GoTime.IsZero last), (GoTime.After last (GoTime.Add now dur));
    intuition congruence.
Qed.

(** C6.  [Since(d)] is true exactly when the last-refresh instant is
    not the zero instant and lies after [now + d], for a schema and for
    a table alike; [Current] is [Since] at the refresh interval, which
    the package sets to minus five minutes, a negative duration. *)
Theorem Since_Current_spec :
  (∀ now (m : Schema) d,
      Schema_Since now m d = true
      ↔ GoTime.IsZero (Schema_lastRefreshed m) = false
        ∧ GoTime.After (Schema_lastRefreshed m) (GoTime.Add now d) = true)
  ∧ (∀ now (t : Table) d,
      Table_Since now t d = true
      ↔ GoTime.IsZero (Table_lastRefreshed t) = false
        ∧ GoTime.After (Table_lastRefreshed t) (GoTime.Add now d) = true)
  ∧ (∀ now (m : Schema) d,
      Schema_Since now m d = true
      ↔ Schema_lastRefreshed m ≠ GoTime.zero ∧ now + d < Schema_lastRefreshed m)
  ∧ (∀ now (t : Table) d,
      Table_Since now t d = true
      ↔ Table_lastRefreshed t ≠ GoTime.zero ∧ now + d < Table_lastRefreshed t)
  ∧ (∀ now interval (m : Schema),
      Schema_Current now interval m = Schema_Since now m interval)
  ∧ (∀ now interval (t : Table),
      Table_Current now interval t = Table_Since now t interval)
  ∧ SchemaRefreshInterval = - (5 * GoTime.Minute)
  ∧ SchemaRefreshInterval = -300000000000
  ∧ SchemaRefreshInterval < 0.
Proof.
  assert (Hz : ∀ last now d,
             GoTime.IsZero last = false ∧ GoTime.After last (GoTime.Add now d) = true
             ↔ last ≠ GoTime.zero ∧ now + d < last).
  { intros last now d. unfold GoTime.IsZero, GoTime.After, GoTime.Add, GoTime.zero.
    rewrite Z.eqb_neq, Z.ltb_lt. reflexivity. }
  split; [intros; apply Since_true_iff|].
  split; [intros; apply Since_true_iff|].
  split; [intros; unfold Schema_Since; rewrite Since_true_iff; apply Hz|].
  split; [intros; unfold Table_Since; rewrite Since_true_iff; apply Hz|].
  repeat split; reflexivity.
Qed.

End Staleness.

(** ** Table lookup *)

Section TableLookup.

Variable LeftRight : string → string * string * bool.

Lemma Table_lowercased m T :
  isASCII T = true →
  Schema_Table LeftRight m T = Schema_Table LeftRight m (ToLower T).
Proof. intros H. unfold Schema_Table. now rewrite ToLower_idem. Qed.

(** C8.  Two names with the same lowercase form get one and the same
    result, a table or the failure: the lookup lowercases the name first.
    For a name of ASCII characters, the name, the lowercased name and the
    uppercased name get the same result. *)
Theorem Table_case_insensitive (m : Schema) :
  (∀ T T', ToLower T = ToLower T' →
           Schema_Table LeftRight m T = Schema_Table LeftRight m T')
  ∧ ∀ T, isASCII T = true →
         Schema_Table LeftRight m T = Schema_Table LeftRight m (ToLower T)
         ∧ Schema_Table LeftRight m T = Schema_Table LeftRight m (ToUpper T)
         ∧ Schema_Table LeftRight m (ToLower T)
           = Schema_Table LeftRight m (ToUpper T).
Proof.
  split.
  - intros T T' H. unfold Schema_Table. now rewrite H.
  - intros T HT.
    assert (Hu : Schema_Table LeftRight m T = Schema_Table LeftRight m (ToUpper T)).
    { unfold Schema_Table. now rewrite ToLower_ToUpper. }
    split; [now apply Table_lowercased|]. split; [exact Hu|].
    now rewrite <- Table_lowercased.
Qed.

(** A direct hit. *)
Lemma Table_hit m T t :
  tableMap m !! ToLower T = Some (Some t) → Schema_Table LeftRight m T = Ok t.
Proof. intros H. unfold Schema_Table. now rewrite H. Qed.

(** A miss on the whole name: the entry is missing or nil. *)
Lemma Table_miss m T :
  map_get (tableMap m) (ToLower T) = None →
  Schema_Table LeftRight m T =
    let '(_, rhs, ok) := LeftRight (ToLower T) in
    if ok then
      match tableMap m !! rhs with
      | Some (Some t) => Ok t
      | _ => Err (ErrCouldNotFindTable rhs)
      end
    else Err (ErrCouldNotFindTable rhs).
Proof.
  unfold map_get, Schema_Table. intros H.
  destruct (tableMap m !! ToLower T) as [[t|]|]; [discriminate|reflexivity..].
Qed.

(** C7.  In a schema that does not hold the qualified name itself, a
    qualified name whose right-hand part is a registered table resolves
    to that table, the one the right-hand part alone resolves to; and a
    qualified name whose right-hand part is not registered is not
    found. *)
Theorem Table_qualified (m : Schema) (qualified lhs rhs : string) :
  LeftRight (ToLower qualified) = (lhs, rhs, true) →
  map_get (tableMap m) (ToLower qualified) = None →
  (∀ t, tableMap m !! rhs = Some (Some t) → ToLower rhs = rhs →
        Schema_Table LeftRight m qualified = Ok t
        ∧ Schema_Table LeftRight m rhs = Ok t)
  ∧ (map_get (tableMap m) rhs = None →
     Schema_Table LeftRight m qualified = Err (ErrCouldNotFindTable rhs)).
Proof.
  intros Hlr Hmiss. rewrite (Table_miss _ _ Hmiss), Hlr. split.
  - intros t Ht Hlow. rewrite Ht. split; [reflexivity|].
    apply Table_hit. now rewrite Hlow.
  - unfold map_get. intros Hr.
    destruct (tableMap m !! rhs) as [[t|]|]; [discriminate|reflexivity..].
Qed.

End TableLookup.

Lemma Table_case_insensitive_witness :
  isASCII "Orders" = true
  ∧ Schema_Table LeftRight_dot Stock.orders "Orders" = Ok 5%nat
  ∧ Schema_Table LeftRight_dot Stock.orders "Orders"
    = Schema_Table LeftRight_dot Stock.orders "orders"
  ∧ Schema_Table LeftRight_dot Stock.orders "Orders"
    = Schema_Table LeftRight_dot Stock.orders "ORDERS".
Proof.
  destruct (Table_case_insensitive LeftRight_dot Stock.orders) as [_ H].
  destruct (H "Orders" eq_refl) as (Hl & Hu & _).
  split; [reflexivity|]. split; [vm_compute; reflexivity|].
  split; [exact Hl|exact Hu].
Defined.

(** The claim for every name, at a name that is not ASCII: the dotless
    i is its own lowercase form and has the capital I as uppercase form,
    so that the uppercased name is looked up as ["id"].  The schema holds
    a table under the name and none under ["id"]. *)
Lemma Table_uppercase_counterexample :
  isASCII Stock.dotless_id = false
  ∧ ToLower Stock.dotless_id = Stock.dotless_id
  ∧ ToUpper Stock.dotless_id = "ID"
  ∧ ToLower (ToUpper Stock.dotless_id) = "id"
  ∧ Schema_Table LeftRight_dot Stock.dotless Stock.dotless_id = Ok 5%nat
  ∧ Schema_Table LeftRight_dot Stock.dotless (ToLower Stock.dotless_id) = Ok 5%nat
  ∧ Schema_Table LeftRight_dot Stock.dotless (ToUpper Stock.dotless_id)
    = Err (ErrCouldNotFindTable "id")
  ∧ Schema_Table LeftRight_dot Stock.dotless Stock.dotless_id
    ≠ Schema_Table LeftRight_dot Stock.dotless (ToUpper Stock.dotless_id).
Proof.
  assert (H1 : Schema_Table LeftRight_dot Stock.dotless Stock.dotless_id = Ok 5%nat)
    by (vm_compute; reflexivity).
  assert (H2 : Schema_Table LeftRight_dot Stock.dotless (ToUpper Stock.dotless_id)
               = Err (ErrCouldNotFindTable "id")) by (vm_compute; reflexivity).
  split; [reflexivity|]. split; [reflexivity|]. split; [reflexivity|].
  split; [reflexivity|]. split; [exact H1|]. split; [vm_compute; reflexivity|].
  split; [exact H2|]. rewrite H1, H2. discriminate.
Qed.

(** The schema of the example: ["orders"] is registered, ["sales.orders"]
    and ["sales.items"] are looked up. *)
Lemma Table_qualified_witness :
  let m := set_tableMap {["orders" := Some 5%nat]} (NewSchema "shop") in
  LeftRight_dot (ToLower "sales.orders") = ("sales", "orders", true)
  ∧ LeftRight_dot (ToLower "Sales.Items") = ("sales", "items", true)
  ∧ Schema_Table LeftRight_dot m "sales.orders" = Ok 5%nat
  ∧ Schema_Table LeftRight_dot m "orders" = Ok 5%nat
  ∧ Schema_Table LeftRight_dot m "Sales.Items" = Err (ErrCouldNotFindTable "items").
Proof.
  intros m.
  assert (H1 : LeftRight_dot (ToLower "sales.orders") = ("sales", "orders", true))
    by reflexivity.
  assert (H2 : LeftRight_dot (ToLower "Sales.Items") = ("sales", "items", true))
    by reflexivity.
  assert (M1 : map_get (tableMap m) (ToLower "sales.orders") = None)
    by (vm_compute; reflexivity).
  assert (M2 : map_get (tableMap m) (ToLower "Sales.Items") = None)
    by (vm_compute; reflexivity).
  destruct (Table_qualified LeftRight_dot m _ _ _ H1 M1) as [Hq _].
  destruct (Hq 5%nat) as [Q1 Q2]; [vm_compute; reflexivity|reflexivity|].
  destruct (Table_qualified LeftRight_dot m _ _ _ H2 M2) as [_ Hn].
  split; [exact H1|]. split; [exact H2|]. split; [exact Q1|].
  split; [exact Q2|]. apply Hn. vm_compute; reflexivity.
Defined.

(** ** The describe row of a field *)

Section DescribeRow.

Variable ValueType_String : ValueType → string.

Lemma build_row_eq (f : Field) :
  build_row ValueType_String f =
    [VString (Field_Name f); VString (ValueType_String (Field_Type f));
     VString (Collation f); VString ""; VString ""; VString "";
     VString (Extra f); VString ""; VString (Description f)].
Proof. reflexivity. Qed.

(** C9.  A field named ["id"] whose memoized row is up to date (a field
    just built has none): [AsRow] returns nine elements, the name ["id"]
    first, the stringified type second, the empty string at positions 3,
    4, 5 and 7, and the field's collation, extra text and description at
    positions 2, 6 and 8.  This holds for every wire type, the integer
    one included.  The row is kept in the field and returned again by the
    next call. *)
Theorem AsRow_shape (st : store) (m : fptr) :
  Field_Name (fld st m) = "id" →
  row_current ValueType_String (fld st m) →
  let f := fld st m in
  let '(r, st') := Field_AsRow ValueType_String st m in
  length r = 9%nat
  ∧ r = [VString "id"; VString (ValueType_String (Field_Type f));
         VString (Collation f); VString ""; VString ""; VString "";
         VString (Extra f); VString ""; VString (Description f)]
  ∧ r !! 0%nat = Some (VString "id")
  ∧ r !! 1%nat = Some (VString (ValueType_String (Field_Type f)))
  ∧ r !! 2%nat = Some (VString (Collation f))
  ∧ r !! 3%nat = Some (VString "")
  ∧ r !! 4%nat = Some (VString "")
  ∧ r !! 5%nat = Some (VString "")
  ∧ r !! 6%nat = Some (VString (Extra f))
  ∧ r !! 7%nat = Some (VString "")
  ∧ r !! 8%nat = Some (VString (Description f))
  ∧ row (fld st' m) = r
  ∧ fst (Field_AsRow ValueType_String st' m) = r.
Proof.
  intros Hname [Hrow|Hrow].
  - set (st1 := upd_fld m (λ f, set_row (build_row ValueType_String f) f) st).
    assert (Hr : row (fld st1 m) = build_row ValueType_String (fld st m)).
    { unfold st1, upd_fld. simpl. now rewrite fn_lookup_insert. }
    assert (E1 : Field_AsRow ValueType_String st m = (row (fld st1 m), st1)).
    { unfold Field_AsRow. now rewrite Hrow. }
    assert (E2 : Field_AsRow ValueType_String st1 m = (row (fld st1 m), st1)).
    { unfold Field_AsRow. now rewrite Hr, build_row_eq. }
    cbv zeta. rewrite E1, E2, Hr, build_row_eq, Hname.
    repeat split; reflexivity.
  - assert (E : Field_AsRow ValueType_String st m = (row (fld st m), st)).
    { unfold Field_AsRow. now rewrite Hrow, build_row_eq. }
    cbv zeta. rewrite E, E, Hrow, build_row_eq, Hname.
    repeat split; reflexivity.
Qed.

End DescribeRow.

(** The field [Field{Name: "id", Type: 11}], with a stringifier that
    names type 11 ["int"]. *)
Lemma AsRow_shape_witness :
  let st := upd_fld 0 (λ _, Field_literal "id" 11) Sample.blank in
  let S := λ t : ValueType, if t =? 11 then "int" else "unknown" in
  fst (Field_AsRow S st 0)
  = [VString "id"; VString "int"; VString ""; VString ""; VString "";
     VString ""; VString ""; VString ""; VString ""].
Proof.
  intros st S.
  pose proof (AsRow_shape S st 0%nat eq_refl (or_introl eq_refl)) as H.
  cbv zeta in H. destruct (Field_AsRow S st 0) as [r st'].
  destruct H as (_ & H & _). rewrite H. reflexivity.
Defined.

(** ** Registering fields *)

Section AddField.

Lemma AddField_scan_Some st name i0 l i :
  AddField_scan st name i0 l = Some i →
  ∃ k old, i = (i0 + k)%nat ∧ l !! k = Some old
           ∧ Field_Name (fld st old) = name
           ∧ ∀ j o, (j < k)%nat → l !! j = Some o → Field_Name (fld st o) ≠ name.
Proof.
  revert i0. induction l as [|c l IH]; intros i0 H; simpl in H; [discriminate|].
  case_bool_decide as Hc.
  - injection H as <-. exists 0%nat, c. repeat split; auto with lia.
  - destruct (IH _ H) as (k & old & -> & Hk & Hn & Hfirst).
    exists (S k), old. repeat split; auto with lia.
    intros [|j] o Hj Ho; simpl in Ho.
    + now injection Ho as <-.
    + eapply Hfirst; [|eassumption]. lia.
Qed.

Lemma AddField_scan_None st name i0 l :
  AddField_scan st name i0 l = None ↔
  ∀ o, o ∈ l → Field_Name (fld st o) ≠ name.
Proof.
  revert i0. induction l as [|c l IH]; intros i0; simpl.
  - split; [intros _ o Ho; inversion Ho|reflexivity].
  - case_bool_decide as Hc.
    + split; [discriminate|]. intros H. destruct (H c); [left|assumption].
    + rewrite IH. split.
      * intros H o [->|Ho]%elem_of_cons; auto.
      * intros H o Ho. apply H. now right.
Qed.

Lemma AddField_scan_is_Some st name l old :
  old ∈ l → Field_Name (fld st old) = name →
  ∃ i, AddField_scan st name 0 l = Some i.
Proof.
  intros Hin Hn. destruct (AddField_scan st name 0 l) as [i|] eqn:E; [eauto|].
  rewrite AddField_scan_None in E. destruct (E _ Hin Hn).
Qed.

(** What [AddField] does when a field of that name is there. *)
Lemma AddField_replace st m f i :
  AddField_scan st (Field_Name (fld st f)) 0 (Fields (tbl st m)) = Some i →
  fld (Table_AddField st m f) = fld st
  ∧ Fields (tbl (Table_AddField st m f) m) = <[i := f]> (Fields (tbl st m))
  ∧ FieldMap (tbl (Table_AddField st m f) m)
    = <[Field_Name (fld st f) := f]> (FieldMap (tbl st m)).
Proof.
  intros H. unfold Table_AddField. rewrite H. simpl.
  rewrite ?fn_lookup_insert. simpl. rewrite ?fn_lookup_insert. auto.
Qed.

(** What [AddField] does when no field has that name. *)
Lemma AddField_append st m f :
  AddField_scan st (Field_Name (fld st f)) 0 (Fields (tbl st m)) = None →
  fld (Table_AddField st m f)
  = <[f := set_idx (Z.of_nat (length (Fields (tbl st m)))) (fld st f)]> (fld st)
  ∧ Fields (tbl (Table_AddField st m f) m) = (Fields (tbl st m) ++ [f])%list
  ∧ FieldMap (tbl (Table_AddField st m f) m)
    = <[Field_Name (fld st f) := f]> (FieldMap (tbl st m)).
Proof.
  intros H. unfold Table_AddField. rewrite H. simpl.
  rewrite ?fn_lookup_insert. simpl. rewrite ?fn_lookup_insert. auto.
Qed.

(** C10.  When [AddField] replaces a field of the same name, it writes
    no ordinal: the replacement keeps the [idx] it came with (zero for a
    field just built), whatever the ordinal of the field it replaces,
    and it takes that field's position in the field list. *)
Theorem AddField_replace_keeps_carried_idx (st : store) (m : tptr) (f old : fptr) :
  old ∈ Fields (tbl st m) →
  Field_Name (fld st old) = Field_Name (fld st f) →
  let st' := Table_AddField st m f in
  Field_Id (fld st' f) = Field_Id (fld st f)
  ∧ fld st' = fld st
  ∧ (∃ i replaced,
        Fields (tbl st m) !! i = Some replaced
        ∧ Field_Name (fld st replaced) = Field_Name (fld st f)
        ∧ (∀ j o, (j < i)%nat → Fields (tbl st m) !! j = Some o →
                  Field_Name (fld st o) ≠ Field_Name (fld st f))
        ∧ Fields (tbl st' m) = <[i := f]> (Fields (tbl st m))
        ∧ Fields (tbl st' m) !! i = Some f
        ∧ (Field_Id (fld st replaced) ≠ Field_Id (fld st f) →
           Field_Id (fld st' f) ≠ Field_Id (fld st replaced)))
  ∧ length (Fields (tbl st' m)) = length (Fields (tbl st m))
  ∧ (∀ name ty, Field_Id (Field_literal name ty) = 0).
Proof.
  intros Hin Hname st'.
  destruct (AddField_scan_is_Some _ _ _ _ Hin Hname) as [i Hi].
  destruct (AddField_replace _ _ _ _ Hi) as (Hf & HF & _).
  destruct (AddField_scan_Some _ _ _ _ _ Hi) as (k & r & Hik & Hk & Hn & Hfirst).
  simpl in Hik. subst i st'. unfold Field_Id. rewrite Hf, HF.
  split; [reflexivity|]. split; [reflexivity|]. split.
  - exists k, r. split; [exact Hk|]. split; [exact Hn|].
    split; [exact Hfirst|]. split; [reflexivity|]. split.
    + apply list_lookup_insert_eq. now apply lookup_lt_Some in Hk.
    + intros Hne He. apply Hne. now rewrite He.
  - split; [apply length_insert|reflexivity].
Qed.

End AddField.

(** The table A, B, C and a second B: the field at address 1 is replaced
    by the one at address 3. *)
Lemma AddField_replace_keeps_carried_idx_witness :
  let st' := Table_AddField Sample.abc 0 3 in
  Field_Id (fld st' 3%nat) = Field_Id (fld Sample.abc 3%nat)
  ∧ Fields (tbl st' 0%nat) !! 1%nat = Some 3%nat.
Proof.
  intros st'.
  assert (Hin : 1%nat ∈ Fields (tbl Sample.abc 0%nat))
    by (vm_compute; repeat constructor).
  assert (Hname : Field_Name (fld Sample.abc 1%nat) = Field_Name (fld Sample.abc 3%nat))
    by reflexivity.
  pose proof (AddField_replace_keeps_carried_idx Sample.abc 0%nat 3%nat 1%nat Hin Hname)
    as (Hid & _ & _).
  split; [exact Hid|vm_compute; reflexivity].
Defined.

(** C3.  The table whose fields are A, B and C, registered in that order
    with the ordinals 0, 1 and 2, and a second field named B, just built:
    after [AddField] the list holds the second B between A and C, and the
    ordinals read through [Id] are 0, 0 and 2. *)
Theorem AddField_replace_example :
  let st := Sample.abc in
  let st' := Table_AddField st 0 3 in
  map (λ p, (Field_Name (fld st p), Field_Id (fld st p))) (Fields (tbl st 0%nat))
  = [("A", 0); ("B", 1); ("C", 2)]
  ∧ Fields (tbl st 0%nat) = [0; 1; 2]%nat
  ∧ Fields (tbl st' 0%nat) = [0; 3; 2]%nat
  ∧ map (λ p, (Field_Name (fld st' p), Field_Id (fld st' p))) (Fields (tbl st' 0%nat))
    = [("A", 0); ("B", 0); ("C", 2)]
  ∧ Description (fld st' 3%nat) = "second B".
Proof. vm_compute. repeat split; reflexivity. Qed.

(** ** The store *)

Section StoreFacts.

Lemma sch_upd_sch p f st q :
  sch (upd_sch p f st) q = if decide (p = q) then f (sch st p) else sch st q.
Proof. reflexivity. Qed.

Lemma sch_upd_sch_eq p f st : sch (upd_sch p f st) p = f (sch st p).
Proof. rewrite sch_upd_sch. now rewrite decide_True. Qed.

Lemma sch_upd_sch_ne p f st q : p ≠ q → sch (upd_sch p f st) q = sch st q.
Proof. intros. rewrite sch_upd_sch. now rewrite decide_False. Qed.

Lemma tbl_upd_tbl p f st q :
  tbl (upd_tbl p f st) q = if decide (p = q) then f (tbl st p) else tbl st q.
Proof. reflexivity. Qed.

Lemma tbl_upd_tbl_eq p f st : tbl (upd_tbl p f st) p = f (tbl st p).
Proof. rewrite tbl_upd_tbl. now rewrite decide_True. Qed.

Lemma tbl_upd_tbl_ne p f st q : p ≠ q → tbl (upd_tbl p f st) q = tbl st q.
Proof. intros. rewrite tbl_upd_tbl. now rewrite decide_False. Qed.

Lemma found_in_acc (n : string) (l : list string) acc :
  foldl (λ found cur, if bool_decide (n = cur) then true else found) acc l
  = acc || bool_decide (n ∈ l).
Proof.
  revert acc. induction l as [|c l IH]; intros acc; cbn [foldl].
  - rewrite (bool_decide_eq_false_2 (n ∈ [])) by (intros H; inversion H).
    now rewrite orb_false_r.
  - rewrite IH. destruct (decide (n = c)) as [<-|Hc].
    + rewrite (bool_decide_eq_true_2 (n = n)) by reflexivity.
      rewrite (bool_decide_eq_true_2 (n ∈ n :: l)) by left.
      now rewrite orb_true_r.
    + rewrite (bool_decide_eq_false_2 (n = c)) by assumption.
      destruct acc; [reflexivity|]. cbn [orb].
      apply bool_decide_ext. rewrite elem_of_cons. tauto.
Qed.

Lemma found_in_true (n : string) l : found_in n l = true ↔ n ∈ l.
Proof.
  unfold found_in. rewrite found_in_acc. simpl. apply bool_decide_eq_true.
Qed.

Lemma found_in_false (n : string) l : found_in n l = false ↔ n ∉ l.
Proof.
  unfold found_in. rewrite found_in_acc. simpl. apply bool_decide_eq_false.
Qed.

Lemma map_has_true {A} (m : gmap string A) k : map_has m k = true ↔ k ∈ dom m.
Proof. unfold map_has. rewrite bool_decide_eq_true. now rewrite elem_of_dom. Qed.

Lemma map_has_false {A} (m : gmap string A) k : map_has m k = false ↔ k ∉ dom m.
Proof. unfold map_has. rewrite bool_decide_eq_false. now rewrite elem_of_dom. Qed.

Lemma forM_inv {A} (I : store → Prop) (step : store → A → option store) l :
  (∀ st x st', x ∈ l → I st → step st x = Some st' → I st') →
  ∀ st st', I st → forM step l st = Some st' → I st'.
Proof.
  induction l as [|x l IH]; intros Hstep st st' HI H; simpl in H.
  - now injection H as <-.
  - destruct (step st x) as [st1|] eqn:E; [|discriminate]. simpl in H.
    eapply IH; [|eapply Hstep; [left|exact HI|exact E]|exact H].
    intros st2 y st3 Hy. apply Hstep. now right.
Qed.

End StoreFacts.

(** ** Structural operations *)

(** Reading a store after writes. *)
Ltac store_simpl :=
  repeat first
    [ rewrite sch_upd_sch_eq
    | rewrite sch_upd_sch_ne by congruence
    | rewrite tbl_upd_tbl_eq
    | rewrite tbl_upd_tbl_ne by congruence
    | rewrite fn_lookup_insert
    | rewrite fn_lookup_insert_ne by congruence ].

Section Structural.

Lemma loadTable_partitions_sch n t pts st st' :
  loadTable_partitions n t pts st = Some st' → sch st' = sch st.
Proof.
  revert st. induction pts as [|[tp|] pts IH]; intros st H; simpl in H.
  - now injection H as <-.
  - rewrite (IH _ H). now case_bool_decide.
  - discriminate.
Qed.

Lemma addTable_partitions_sch t pts st st' :
  addTable_partitions t pts st = Some st' → sch st' = sch st.
Proof.
  revert st. induction pts as [|[tp|] pts IH]; intros st H; simpl in H.
  - now injection H as <-.
  - rewrite (IH _ H). now destruct (_ && _).
  - discriminate.
Qed.

Lemma loadTable_post st m n st' e :
  loadTable st m n = Some (st', e) →
  (∀ p, p ≠ m → sch st' p = sch st p)
  ∧ maybe_loaded m (sch st m) (sch st' m).
Proof.
  unfold loadTable. intros H.
  destruct (DS (sch st m)) as [ds|]; [|discriminate].
  destruct (src_Table ds n) as [[t|] [err|]];
    try (injection H as <- <-; split; [reflexivity|now left]).
  match type of H with (?x ≫= _) = _ => destruct x as [st1|] eqn:E end;
    [|discriminate].
  simpl in H. injection H as <- <-.
  assert (Hs : sch st1 = sch st).
  { destruct (Conf _); [apply loadTable_partitions_sch in E|injection E as <-];
      [rewrite E|]; reflexivity. }
  split.
  - intros p Hp. rewrite !sch_upd_sch_ne by auto. now rewrite Hs.
  - right. exists (Table_Name (tbl st1 t)), t.
    rewrite !sch_upd_sch_eq, Hs. reflexivity.
Qed.

Lemma loadTable_partitions_total n t pts st :
  Forall is_Some pts → is_Some (loadTable_partitions n t pts st).
Proof.
  intros H. revert st. induction H as [|[tp|] pts [x Hx] _ IH]; intros st; simpl.
  - eauto.
  - apply IH.
  - discriminate.
Qed.

Lemma addTable_partitions_total t pts st :
  Forall is_Some pts → is_Some (addTable_partitions t pts st).
Proof.
  intros H. revert st. induction H as [|[tp|] pts [x Hx] _ IH]; intros st; simpl.
  - eauto.
  - apply IH.
  - discriminate.
Qed.

Lemma loadTable_total st m n :
  is_Some (DS (sch st m)) → conf_ok (sch st m) → is_Some (loadTable st m n).
Proof.
  intros [ds Hds] Hc. unfold loadTable. rewrite Hds.
  destruct (src_Table ds n) as [[t|] [err|]]; eauto.
  match goal with |- is_Some (?x ≫= _) => destruct x as [st1|] eqn:E end;
    [simpl; eauto|].
  exfalso. simpl in E.
  destruct (Conf (sch st m)) as [conf|] eqn:Hconf; [|discriminate].
  destruct (loadTable_partitions_total n t (Partitions conf)
              (upd_tbl t (set_Table_Schema (Some m)) st) (Hc _ Hconf))
    as [x Hx].
  congruence.
Qed.

Lemma addschema_post st m n ss st' :
  addschemaForTableUnlocked st m n ss = Some st' →
  (∀ p, p ≠ m → sch st' p = sch st p)
  ∧ ((n ∈ tableNames (sch st m) ∧ sch st' m = sch st m)
     ∨ ((n ∉ tableNames (sch st m))
        ∧ (∃ s2, maybe_loaded m (named n (sch st m)) s2
            ∧ ((n ∈ dom (tableMap s2) ∧ sch st' m = s2)
               ∨ ((n ∉ dom (tableMap s2))
                  ∧ (∃ t, sch st' m = registered ss n t s2
                      ∧ ∀ x, map_get (tableMap (sch st ss)) n = Some x →
                             t = Some x)))))).
Proof.
  unfold addschemaForTableUnlocked. intros H.
  destruct (found_in n (tableNames (sch st m))) eqn:Hf.
  { injection H as <-. apply found_in_true in Hf. auto. }
  apply found_in_false in Hf.
  set (st1 := upd_sch m (λ s, set_tableNames (sort_Strings (tableNames s ++ [n])) s) st)
    in H.
  assert (H1 : sch st1 m = named n (sch st m)) by apply sch_upd_sch_eq.
  assert (H1' : ∀ p, p ≠ m → sch st1 p = sch st p)
    by (intros; now apply sch_upd_sch_ne).
  assert (Hmap : map_get (tableMap (sch st1 ss)) n = map_get (tableMap (sch st ss)) n).
  { destruct (decide (ss = m)) as [->|Hne]; [now rewrite H1|now rewrite H1']. }
  match type of H with (?x ≫= _) = _ => destruct x as [[st2 t2]|] eqn:E end;
    [|discriminate].
  simpl in H.
  assert (Hst2 : (∀ p, p ≠ m → sch st2 p = sch st p)
                 ∧ maybe_loaded m (named n (sch st m)) (sch st2 m)
                 ∧ ∀ x, map_get (tableMap (sch st ss)) n = Some x → t2 = Some x).
  { rewrite Hmap in E.
    destruct (map_get (tableMap (sch st ss)) n) as [x|] eqn:Hx.
    - injection E as <- <-. rewrite H1. repeat split; auto. now left.
    - destruct (loadTable st1 m n) as [[st3 e]|] eqn:El; [|discriminate].
      simpl in E. destruct (loadTable_post _ _ _ _ _ El) as [Hf1 Hl].
      rewrite H1 in Hl.
      destruct e; injection E as <- <-; repeat split; auto;
        try (intros p Hp; rewrite Hf1 by auto; now apply H1'); discriminate. }
  destruct Hst2 as (Hfr & Hl & Ht). split.
  - intros p Hp. destruct (map_has _ _); injection H as <-; auto.
    rewrite !sch_upd_sch_ne by auto. auto.
  - right. split; [exact Hf|]. exists (sch st2 m). split; [exact Hl|].
    destruct (map_has (tableMap (sch st2 m)) n) eqn:Hh; injection H as <-.
    + left. apply map_has_true in Hh. auto.
    + right. apply map_has_false in Hh. split; [exact Hh|].
      exists t2. split; [|exact Ht]. now rewrite !sch_upd_sch_eq.
Qed.

Lemma maybe_loaded_facts m s s' :
  maybe_loaded m s s' →
  tableNames s' = tableNames s
  ∧ DS s' = DS s ∧ Conf s' = Conf s ∧ schemas s' = schemas s
  ∧ dom (tableMap s) ⊆ dom (tableMap s')
  ∧ (owners_have_tables s → owners_have_tables s')
  ∧ (∀ k, tableMap s' !! k = tableMap s !! k
          ∨ (∃ t, tableMap s' !! k = Some (Some t))).
Proof.
  intros [->|(name & t & ->)]; [repeat split; auto|].
  unfold loaded, owners_have_tables. simpl. rewrite !dom_insert_L.
  repeat split; [set_solver..|].
  intros k. rewrite lookup_insert. case_decide; eauto.
Qed.

Lemma addschema_ok st m n ss st' :
  catalog_ok st → addschemaForTableUnlocked st m n ss = Some st' →
  catalog_ok st'.
Proof.
  intros Hok H p. destruct (addschema_post _ _ _ _ _ H) as [Hfr Hm].
  destruct (decide (p = m)) as [->|Hne]; [|rewrite Hfr by auto; apply Hok].
  destruct Hm as [[_ ->]|(Hn & s2 & Hl & Hcase)]; [apply Hok|].
  destruct (Hok m) as ((Hsorted & Hnd) & Hnt & Hot).
  destruct (maybe_loaded_facts _ _ _ Hl) as (Hnames & _ & _ & _ & Hdom & Hown & _).
  simpl in Hnames, Hdom.
  assert (Hs : names_sorted s2).
  { unfold names_sorted. rewrite Hnames. split; [apply sort_Strings_Sorted|].
    apply NoDup_sort_Strings, NoDup_app. repeat split; auto.
    - intros x Hx ->%list_elem_of_singleton. auto.
    - apply NoDup_singleton. }
  assert (Hin : ∀ x, x ∈ tableNames s2 → x ∈ dom (tableMap s2) ∨ x = n).
  { intros x. rewrite Hnames, elem_of_sort_Strings, elem_of_app,
      list_elem_of_singleton.
    intros [Hx|Hx]; auto. }
  specialize (Hown Hot).
  destruct Hcase as [[Hd ->]|(Hd & t & -> & _)].
  - split; [exact Hs|]. split; [|exact Hown].
    intros x Hx. destruct (Hin x Hx) as [?| ->]; auto.
  - unfold indexes_nested, names_sorted, names_have_tables, owners_have_tables
      in *.
    simpl. rewrite !dom_insert_L. split; [exact Hs|]. split.
    + intros x Hx. destruct (Hin x Hx) as [?| ->]; set_solver.
    + set_solver.
Qed.

(** *** [addschemaForTableUnlocked] when the owner has the table *)

Lemma addschema_known st m n ss x :
  map_get (tableMap (sch st ss)) n = Some x →
  ∃ st', addschemaForTableUnlocked st m n ss = Some st'
    ∧ (∀ p, p ≠ m → sch st' p = sch st p)
    ∧ sch st' m
      = (if found_in n (tableNames (sch st m)) then sch st m
         else if map_has (tableMap (sch st m)) n then named n (sch st m)
         else registered ss n (Some x) (named n (sch st m)))
    ∧ tbl st' = tbl st ∧ fld st' = fld st.
Proof.
  intros Hx. unfold addschemaForTableUnlocked.
  destruct (found_in n (tableNames (sch st m))); [eauto 10|].
  change (λ s : Schema, set_tableNames (sort_Strings (tableNames s ++ [n])) s)
    with (named n).
  assert (Hmap : ∀ p, tableMap (sch (upd_sch m (named n) st) p) = tableMap (sch st p)).
  { intros p. destruct (decide (m = p)) as [<-|Hne];
      [now rewrite sch_upd_sch_eq|now rewrite sch_upd_sch_ne]. }
  cbv zeta. rewrite !Hmap, Hx. cbn [mbind option_bind]. rewrite Hmap.
  destruct (map_has (tableMap (sch st m)) n); eexists; (split; [reflexivity|]).
  - split; [intros p Hp; now rewrite sch_upd_sch_ne|].
    split; [apply sch_upd_sch_eq|auto].
  - split; [intros p Hp; now rewrite !sch_upd_sch_ne|].
    split; [now rewrite !sch_upd_sch_eq|auto].
Qed.

(** *** [addChildSchema] *)

Lemma attach_fold m child l st :
  (∀ p, p ≠ m → sch (foldr (attach_step m child) st l) p = sch st p)
  ∧ sch (foldr (attach_step m child) st l) m
    = attached child (list_to_map l) (sch st m)
  ∧ tbl (foldr (attach_step m child) st l) = tbl st
  ∧ fld (foldr (attach_step m child) st l) = fld st.
Proof.
  induction l as [|[k t] l (IH1 & IH2 & IH3 & IH4)].
  - cbn [foldr]. repeat split; auto. unfold attached.
    change (list_to_map []) with (∅ : gmap string (option tptr)).
    rewrite fmap_empty, !(left_id_L ∅ (∪)).
    now destruct (sch st m).
  - cbn [foldr]. unfold attach_step at 1 3 5 7. cbv beta iota zeta.
    split; [|split; [|split]].
    + intros p Hp. rewrite !sch_upd_sch_ne by auto. auto.
    + rewrite !sch_upd_sch_eq, IH2. unfold attached. simpl.
      rewrite fmap_insert, !insert_union_l. reflexivity.
    + exact IH3.
    + exact IH4.
Qed.

Lemma addChildSchema_post st m child st' :
  addChildSchema st m child = Some st' →
  m ≠ child
  ∧ (∀ p, p ≠ m → p ≠ child → sch st' p = sch st p)
  ∧ sch st' child = set_parent (Some m) (sch st child)
  ∧ sch st' m
    = attached child (tableMap (sch st child))
        (set_schemas (<[Schema_Name (sch st child) := Some child]> (schemas (sch st m)))
           (sch st m))
  ∧ tbl st' = tbl st ∧ fld st' = fld st.
Proof.
  unfold addChildSchema. case_bool_decide as Hne; [discriminate|].
  intros H. injection H as <-.
  match goal with |- context [foldr ?f ?s ?l] =>
    change f with (attach_step m child);
    destruct (attach_fold m child l s) as (F1 & F2 & F3 & F4)
  end.
  rewrite F2, F3, F4. split; [exact Hne|]. split; [|split; [|split]].
  - intros p Hp Hp'. rewrite F1 by auto. now store_simpl.
  - rewrite F1 by auto. now store_simpl.
  - rewrite list_to_map_to_list. now store_simpl.
  - auto.
Qed.

Lemma addChildSchema_ok st m child st' :
  catalog_ok st → addChildSchema st m child = Some st' → catalog_ok st'.
Proof.
  intros Hok H p.
  destruct (addChildSchema_post _ _ _ _ H) as (Hne & Hfr & Hc & Hm & _).
  destruct (decide (p = m)) as [->|Hpm].
  - rewrite Hm. destruct (Hok m) as (Hs & Hnt & Hot).
    unfold indexes_nested, names_sorted, names_have_tables, owners_have_tables,
      attached in *.
    simpl. rewrite !dom_union_L, dom_fmap_L. split; [exact Hs|]. split.
    + intros x Hx. specialize (Hnt x Hx). set_solver.
    + set_solver.
  - destruct (decide (p = child)) as [->|Hpc]; [|rewrite Hfr by auto; apply Hok].
    rewrite Hc. apply (Hok child).
Qed.

(** *** [addTable] *)

Lemma addTable_partitions_post t pts st st' :
  addTable_partitions t pts st = Some st' →
  sch st' = sch st ∧ fld st' = fld st
  ∧ (∀ q, q ≠ t → tbl st' q = tbl st q)
  ∧ Table_Name (tbl st' t) = Table_Name (tbl st t)
  ∧ PartitionCt (tbl st' t) = PartitionCt (tbl st t)
  ∧ tblID (tbl st' t) = tblID (tbl st t)
  ∧ (∀ pt, Partition (tbl st t) = Some pt → Partition (tbl st' t) = Some pt)
  ∧ (Partition (tbl st t) = None →
     Partition (tbl st' t) = None
     ∨ ∃ pt, Some pt ∈ pts ∧ pt_Table pt = Table_Name (tbl st t)
             ∧ Partition (tbl st' t) = Some pt).
Proof.
  revert st. induction pts as [|[pt|] pts IH]; intros st H; simpl in H.
  - injection H as <-. repeat split; auto.
  - destruct (IH _ H) as (I1 & I2 & I3 & I4 & I5 & I6 & I7 & I8). clear IH H.
    destruct (bool_decide (Table_Name (tbl st t) = pt_Table pt)
              && bool_decide (Partition (tbl st t) = None)) eqn:Hb.
    + apply andb_true_iff in Hb as [Hn%bool_decide_eq_true Hp%bool_decide_eq_true].
      revert I3 I4 I5 I6 I7 I8. store_simpl. simpl. intros.
      rewrite I1, I2, I4, I5, I6. repeat split; auto.
      * intros q Hq. rewrite I3 by auto. now store_simpl.
      * intros pt' Hpt'. congruence.
      * intros _. right. exists pt. split; [left|]. split; [auto|].
        now apply I7.
    + rewrite I1, I2, I4, I5, I6. repeat split; auto.
      intros Hp. destruct (I8 Hp) as [|(pt' & Hin & Hn & Hpt')]; [now left|].
      right. exists pt'. split; [now right|auto].
  - discriminate.
Qed.

Lemma addTable_configure_post m t st st' :
  addTable_configure m t st = Some st' →
  sch st' = sch st ∧ fld st' = fld st
  ∧ (∀ q, q ≠ t → tbl st' q = tbl st q)
  ∧ Table_Name (tbl st' t) = Table_Name (tbl st t)
  ∧ tblID (tbl st' t) = tblID (tbl st t)
  ∧ (∀ pt, Partition (tbl st t) = Some pt → Partition (tbl st' t) = Some pt).
Proof.
  unfold addTable_configure. intros H.
  destruct (Conf (sch st m)) as [conf|];
    [|injection H as <-; repeat split; auto].
  destruct (0 <? Conf_PartitionCt conf).
  - injection H as <-. simpl. store_simpl. simpl. repeat split; auto.
    intros q Hq. now store_simpl.
  - destruct (addTable_partitions_post _ _ _ _ H)
      as (I1 & I2 & I3 & I4 & I5 & I6 & I7 & I8).
    repeat split; auto.
Qed.

Lemma addTable_post st m t st' :
  addTable st m t = Some st' →
  let n := Table_Name (tbl st t) in
  let s1 := set_tableMap (<[n := Some t]> (tableMap (sch st m))) (sch st m) in
  (∀ p, p ≠ m → sch st' p = sch st p)
  ∧ sch st' m = (if found_in n (tableNames (sch st m)) then s1 else named n s1)
  ∧ fld st' = fld st
  ∧ (∃ st2,
        addTable_configure m t
          (upd_sch m (λ s, set_tableMap (<[n := Some t]> (tableMap s)) s)
             (upd_tbl t (set_tblID (Fnv.Sum64 n)) st)) = Some st2
        ∧ tbl st' = tbl (tbl_init t (Some m) st2)).
Proof.
  intros H n s1. unfold addTable in H.
  match type of H with (?x ≫= _) = _ =>
    change x with
      (addTable_configure m t
         (upd_sch m (λ s, set_tableMap
                            (<[Table_Name (tbl (upd_tbl t (set_tblID (Fnv.Sum64 n)) st) t)
                               := Some t]> (tableMap s)) s)
            (upd_tbl t (set_tblID (Fnv.Sum64 n)) st))) in H
  end.
  assert (Hn0 : Table_Name (tbl (upd_tbl t (set_tblID (Fnv.Sum64 n)) st) t) = n).
  { now store_simpl. }
  rewrite Hn0 in H.
  match type of H with (?x ≫= _) = _ => destruct x as [st2|] eqn:E end;
    [|discriminate].
  cbn [mbind option_bind] in H.
  destruct (addTable_configure_post _ _ _ _ E) as (C1 & C2 & C3 & C4 & C5 & C6).
  assert (Hs : Table_Schema (tbl (tbl_init t (Some m) st2) t) = Some m).
  { unfold tbl_init. now store_simpl. }
  assert (Hn : Table_Name (tbl (tbl_init t (Some m) st2) t) = n).
  { unfold tbl_init. store_simpl. simpl. rewrite C4. now store_simpl. }
  rewrite Hs, Hn in H.
  assert (Hsch : sch (tbl_init t (Some m) st2) m = s1).
  { unfold tbl_init. simpl. rewrite C1. simpl. now store_simpl. }
  assert (Hsch' : ∀ p, p ≠ m → sch (tbl_init t (Some m) st2) p = sch st p).
  { intros p Hp. unfold tbl_init. simpl. rewrite C1. simpl. now store_simpl. }
  destruct (addschema_known (tbl_init t (Some m) st2) m n m t)
    as (st3 & E3 & F1 & F2 & F3 & F4).
  { rewrite Hsch. unfold s1, map_get. simpl. now rewrite lookup_insert_eq. }
  rewrite E3 in H. injection H as <-.
  split; [intros p Hp; rewrite F1 by auto; now apply Hsch'|].
  split.
  - rewrite F2, Hsch.
    assert (Hh : map_has (tableMap s1) n = true).
    { apply map_has_true. unfold s1. simpl. rewrite dom_insert_L. set_solver. }
    rewrite Hh. reflexivity.
  - split; [rewrite F4; unfold tbl_init; simpl; rewrite C2; reflexivity|].
    exists st2. split; [reflexivity|exact F3].
Qed.

Lemma addTable_ok st m t st' :
  catalog_ok st → AddTable st m t = Some st' → catalog_ok st'.
Proof.
  intros Hok H p. destruct (addTable_post _ _ _ _ H) as (Hfr & Hm & _).
  destruct (decide (p = m)) as [->|Hne]; [|rewrite Hfr by auto; apply Hok].
  rewrite Hm. destruct (Hok m) as ((Hsorted & Hnd) & Hnt & Hot).
  set (n := Table_Name (tbl st t)).
  destruct (found_in n (tableNames (sch st m))) eqn:Hf.
  - unfold indexes_nested, names_sorted, names_have_tables, owners_have_tables
      in *.
    simpl. rewrite dom_insert_L. repeat split; auto.
    + intros x Hx. specialize (Hnt x Hx). set_solver.
    + set_solver.
  - apply found_in_false in Hf.
    unfold indexes_nested, names_sorted, names_have_tables, owners_have_tables
      in *.
    simpl. rewrite dom_insert_L. split; [split|split].
    + apply sort_Strings_Sorted.
    + apply NoDup_sort_Strings, NoDup_app. repeat split; auto.
      * intros x Hx ->%list_elem_of_singleton. auto.
      * apply NoDup_singleton.
    + intros x. rewrite elem_of_sort_Strings, elem_of_app, list_elem_of_singleton.
      intros [Hx| ->]; [specialize (Hnt x Hx)|]; set_solver.
    + set_solver.
Qed.

(** *** [refreshSchemaUnlocked] *)

Lemma refresh_ok range_order fuel :
  ∀ st m st', catalog_ok st →
              refreshSchemaUnlocked range_order fuel st m = Some st' →
              catalog_ok st'.
Proof.
  induction fuel as [|fuel IH]; intros st m st' Hok H; simpl in H;
    [discriminate|].
  destruct (DS (sch st m)) as [ds|]; [|discriminate].
  cbn [mbind option_bind] in H.
  match type of H with (?x ≫= _) = _ => destruct x as [st1|] eqn:E1 end;
    [|discriminate].
  cbn [mbind option_bind] in H.
  assert (Hok1 : catalog_ok st1).
  { revert E1. apply forM_inv; [|exact Hok].
    intros s x s' _. apply addschema_ok. }
  revert H. apply forM_inv; [|exact Hok1].
  intros s [k [ss|]] s' _ Hs Hstep; [|discriminate].
  cbn [mbind option_bind] in Hstep.
  destruct (refreshSchemaUnlocked range_order fuel s ss) as [s1|] eqn:Er;
    [|discriminate].
  cbn [mbind option_bind] in Hstep.
  revert Hstep. apply forM_inv; [|eapply IH; eassumption].
  intros s2 x s3 _. apply addschema_ok.
Qed.

Lemma run_ops_ok range_order fuel ops :
  ∀ st st', catalog_ok st → run_ops range_order fuel ops st = Some st' →
            catalog_ok st'.
Proof.
  intros st st'. unfold run_ops. apply forM_inv.
  intros s [m t|m child|m] s' _ Hs Hstep; simpl in Hstep.
  - eapply addTable_ok; eassumption.
  - eapply addChildSchema_ok; eassumption.
  - eapply refresh_ok; eassumption.
Qed.

Lemma NewSchemaSource_ok name ds : indexes_nested (NewSchemaSource name ds).
Proof.
  unfold indexes_nested, names_sorted, names_have_tables, owners_have_tables.
  simpl. repeat split; [constructor|constructor| |set_solver].
  intros n Hn. inversion Hn.
Qed.
End Structural.

(** ** Partitions of a table added to a schema *)

Section Partitions.

Lemma addTable_unfold st m t :
  addTable st m t =
    (st2 ← addTable_configure m t
             (upd_sch m (λ s, set_tableMap (<[Table_Name (tbl st t) := Some t]> (tableMap s)) s)
                (upd_tbl t (set_tblID (Fnv.Sum64 (Table_Name (tbl st t)))) st));
     addschemaForTableUnlocked (tbl_init t (Some m) st2) m
       (Table_Name (tbl st2 t)) m).
Proof.
  unfold addTable, addTable_configure. cbv zeta.
  assert (Hn : Table_Name (tbl (upd_tbl t (set_tblID (Fnv.Sum64 (Table_Name (tbl st t)))) st) t)
               = Table_Name (tbl st t)) by now store_simpl.
  rewrite Hn.
  match goal with |- (?x ≫= _) = _ => destruct x as [st2|]; [|reflexivity] end.
  cbn [mbind option_bind]. unfold tbl_init. store_simpl. reflexivity.
Qed.

(** What [AddTable] does to the table: the identifier, the owning
    schema, and the outcome of the branch on the configuration. *)
Lemma AddTable_table st m t st' :
  AddTable st m t = Some st' →
  ∃ st2,
    addTable_configure m t
      (upd_sch m (λ s, set_tableMap (<[Table_Name (tbl st t) := Some t]> (tableMap s)) s)
         (upd_tbl t (set_tblID (Fnv.Sum64 (Table_Name (tbl st t)))) st)) = Some st2
    ∧ tbl st' t = set_Table_Schema (Some m) (tbl st2 t).
Proof.
  intros H. destruct (addTable_post _ _ _ _ H) as (_ & _ & _ & st2 & E & Ht).
  exists st2. split; [exact E|]. rewrite Ht. unfold tbl_init. now store_simpl.
Qed.



Lemma AddTable_configured st m t st2 :
  addTable_configure m t
    (upd_sch m (λ s, set_tableMap (<[Table_Name (tbl st t) := Some t]> (tableMap s)) s)
       (upd_tbl t (set_tblID (Fnv.Sum64 (Table_Name (tbl st t)))) st)) = Some st2 →
  ∃ st', AddTable st m t = Some st'
         ∧ tbl st' t = set_Table_Schema (Some m) (tbl st2 t).
Proof.
  intros E. unfold AddTable. rewrite addTable_unfold, E. cbn [mbind option_bind].
  destruct (addTable_configure_post _ _ _ _ E) as (C1 & C2 & C3 & C4 & C5 & C6).
  destruct (addschema_known (tbl_init t (Some m) st2) m (Table_Name (tbl st2 t)) m t)
    as (st3 & E3 & _ & _ & Ht & _).
  { unfold tbl_init. simpl. rewrite C1, C4. simpl. store_simpl. simpl.
    unfold map_get. now rewrite lookup_insert_eq. }
  exists st3. split; [exact E3|]. rewrite Ht. unfold tbl_init. now store_simpl.
Qed.

Lemma AddTable_positive_count st m t conf :
  Conf (sch st m) = Some conf → 0 < Conf_PartitionCt conf →
  ∃ st', AddTable st m t = Some st'
         ∧ PartitionCt (tbl st' t) = Conf_PartitionCt conf
         ∧ Partition (tbl st' t) = Partition (tbl st t).
Proof.
  intros Hconf Hct.
  set (st1 := upd_sch m (λ s, set_tableMap (<[Table_Name (tbl st t) := Some t]> (tableMap s)) s)
                (upd_tbl t (set_tblID (Fnv.Sum64 (Table_Name (tbl st t)))) st)).
  assert (Hc1 : Conf (sch st1 m) = Some conf).
  { unfold st1. store_simpl. exact Hconf. }
  assert (Ht1 : tbl st1 t = set_tblID (Fnv.Sum64 (Table_Name (tbl st t))) (tbl st t)).
  { unfold st1. simpl. now store_simpl. }
  destruct (AddTable_configured st m t
              (upd_tbl t (set_PartitionCt (Conf_PartitionCt conf)) st1))
    as (st' & E & Ht).
  { fold st1. unfold addTable_configure. rewrite Hc1.
    now rewrite (proj2 (Z.ltb_lt _ _) Hct). }
  exists st'. split; [exact E|]. rewrite Ht. store_simpl. rewrite Ht1.
  split; reflexivity.
Qed.

(** C2.  A schema whose configuration gives a positive catalog-wide
    partition count (4, say): [AddTable] sets the table's count to it,
    for a table without a descriptor and for a table that carries one
    alike.  The descriptor a table carries is never replaced: it stays
    beside the count.  When the configuration gives no positive count,
    the count of the table stays as it was and a table without a
    descriptor takes, if there is one, a descriptor of the
    configuration made for its name. *)
Theorem AddTable_partition (st : store) (m : sptr) (t : tptr) (conf : ConfigSource) :
  Conf (sch st m) = Some conf →
  (Conf_PartitionCt conf = 4 →
   ∃ st', AddTable st m t = Some st' ∧ PartitionCt (tbl st' t) = 4
          ∧ Partition (tbl st' t) = Partition (tbl st t))
  ∧ (0 < Conf_PartitionCt conf →
     ∃ st', AddTable st m t = Some st'
            ∧ PartitionCt (tbl st' t) = Conf_PartitionCt conf
            ∧ Partition (tbl st' t) = Partition (tbl st t))
  ∧ (∀ st' pt, AddTable st m t = Some st' →
               Partition (tbl st t) = Some pt → Partition (tbl st' t) = Some pt)
  ∧ (Conf_PartitionCt conf ≤ 0 →
     ∀ st', AddTable st m t = Some st' →
            PartitionCt (tbl st' t) = PartitionCt (tbl st t)
            ∧ (Partition (tbl st t) = None →
               Partition (tbl st' t) = None
               ∨ (∃ pt, Some pt ∈ Partitions conf
                        ∧ pt_Table pt = Table_Name (tbl st t)
                        ∧ Partition (tbl st' t) = Some pt))).
Proof.
  intros Hconf.
  set (st1 := upd_sch m (λ s, set_tableMap (<[Table_Name (tbl st t) := Some t]> (tableMap s)) s)
                (upd_tbl t (set_tblID (Fnv.Sum64 (Table_Name (tbl st t)))) st)).
  assert (Hc1 : Conf (sch st1 m) = Some conf).
  { unfold st1. store_simpl. exact Hconf. }
  assert (Ht1 : tbl st1 t = set_tblID (Fnv.Sum64 (Table_Name (tbl st t))) (tbl st t)).
  { unfold st1. simpl. now store_simpl. }
  pose proof (AddTable_positive_count st m t conf Hconf) as Hpos.
  split; [|split; [exact Hpos|split]].
  - intros H4. destruct Hpos as (st' & E & Hct & Hp); [lia|].
    exists st'. rewrite <- H4. auto.
  - intros st' pt H Hpt.
    destruct (AddTable_table _ _ _ _ H) as (st2 & E & Ht). fold st1 in E.
    destruct (addTable_configure_post _ _ _ _ E) as (_ & _ & _ & _ & _ & C6).
    rewrite Ht. simpl. apply C6. rewrite Ht1. exact Hpt.
  - intros Hct st' H.
    destruct (AddTable_table _ _ _ _ H) as (st2 & E & Ht). fold st1 in E.
    unfold addTable_configure in E. rewrite Hc1 in E.
    rewrite (proj2 (Z.ltb_ge _ _) Hct) in E.
    destruct (addTable_partitions_post _ _ _ _ E)
      as (_ & _ & _ & I4 & I5 & _ & _ & I8).
    rewrite Ht. simpl. rewrite I5, Ht1. split; [reflexivity|].
    intros Hp. rewrite Ht1 in I8. apply (I8 Hp).
Qed.

End Partitions.

(** The claim as the partition rule was read, at the sample schema: the
    table at address 1 carries a descriptor made for its name and a count
    of 0, and [AddTable] gives it the count 4 of the catalog. *)
Lemma explicit_descriptor_wins_counterexample :
  ¬ explicit_descriptor_wins Sample.partitioned 0 1.
Proof.
  intros H.
  destruct (AddTable_positive_count Sample.partitioned 0%nat 1%nat Sample.four eq_refl)
    as (st' & E & Hct & Hp); [reflexivity|].
  destruct (H Sample.four Sample.own_descriptor st') as [_ Hc];
    try reflexivity; [exact E|].
  rewrite Hct in Hc. discriminate.
Qed.

Lemma AddTable_partition_witness :
  ∃ st', AddTable Sample.partitioned 0 0 = Some st'
         ∧ PartitionCt (tbl st' 0%nat) = 4
         ∧ Partition (tbl st' 0%nat) = None.
Proof.
  destruct (AddTable_partition Sample.partitioned 0%nat 0%nat Sample.four eq_refl)
    as ((st' & E & Hct & Hp) & _); [reflexivity|].
  exists st'. split; [exact E|]. split; [exact Hct|]. rewrite Hp. reflexivity.
Defined.

(** ** The three indexes *)

Section Indexes.

Variable range_order : gmap string (option sptr) → list (string * option sptr).

(** C1.  After any finite sequence of [AddTable], [addChildSchema] and
    [refreshSchemaUnlocked] that runs to its end, in every schema the
    name list is ascending and free of duplicates, every name of the
    list is a key of the table map, and every key of the owner map is a
    key of the table map. *)
Theorem indexes_nested_preserved (fuel : nat) (ops : list op) (st st' : store) :
  (∀ p, indexes_nested (sch st p)) →
  run_ops range_order fuel ops st = Some st' →
  ∀ p, Sorted string_le (tableNames (sch st' p))
       ∧ NoDup (tableNames (sch st' p))
       ∧ list_to_set (tableNames (sch st' p)) ⊆ dom (tableMap (sch st' p))
       ∧ dom (tableSchemas (sch st' p)) ⊆ dom (tableMap (sch st' p)).
Proof.
  intros Hok H p.
  destruct (run_ops_ok range_order fuel ops st st' Hok H p)
    as ((Hs & Hnd) & Hnt & Hot).
  repeat split; auto.
  intros x Hx%elem_of_list_to_set. now apply Hnt.
Qed.

End Indexes.

Lemma family_ok : ∀ p, indexes_nested (sch Sample.family p).
Proof.
  intros p. unfold Sample.family, Sample.blank. simpl.
  destruct (decide (p = 0%nat)) as [->|H0];
    [rewrite fn_lookup_insert; apply NewSchemaSource_ok
    |rewrite fn_lookup_insert_ne by congruence].
  destruct (decide (p = 1%nat)) as [->|H1];
    [rewrite fn_lookup_insert; apply NewSchemaSource_ok
    |rewrite fn_lookup_insert_ne by congruence].
  apply NewSchemaSource_ok.
Qed.

Lemma family_agree : ∀ p, indexes_agree (sch Sample.family p).
Proof.
  intros p.
  assert (H : ∀ name ds, indexes_agree (NewSchemaSource name ds)).
  { intros name ds. unfold indexes_agree. simpl.
    rewrite !dom_empty_L. repeat split; constructor. }
  unfold Sample.family, Sample.blank. simpl.
  destruct (decide (p = 0%nat)) as [->|H0];
    [rewrite fn_lookup_insert; apply H
    |rewrite fn_lookup_insert_ne by congruence].
  destruct (decide (p = 1%nat)) as [->|H1];
    [rewrite fn_lookup_insert; apply H
    |rewrite fn_lookup_insert_ne by congruence].
  apply H.
Qed.

Lemma not_agree_owner (s : Schema) (n : string) (v : option tptr) :
  tableMap s !! n = Some v → tableSchemas s !! n = None → ¬ indexes_agree s.
Proof.
  intros Hm Ho (_ & Hd & _).
  assert (Hin : n ∈ dom (tableMap s)) by (apply elem_of_dom; eauto).
  rewrite Hd in Hin. apply elem_of_dom in Hin as [x Hx]. congruence.
Qed.

Lemma not_agree_name (s : Schema) (n : string) (v : option tptr) :
  tableMap s !! n = Some v → tableNames s = [] → ¬ indexes_agree s.
Proof.
  intros Hm Hn (Hl & _).
  assert (Hin : n ∈ dom (tableMap s)) by (apply elem_of_dom; eauto).
  rewrite <- Hl, Hn in Hin. set_solver.
Qed.

(** Parent and child of the sample, the table t1 added to the child, the
    child attached, the table t2 added, the parent refreshed. *)
Lemma indexes_nested_preserved_witness :
  ∃ st',
    run_ops Sample.in_order 2
      [OpAddTable 1 1; OpAddChildSchema 0 1; OpAddTable 1 2; OpRefresh 0]
      Sample.family = Some st'
    ∧ ∀ p, Sorted string_le (tableNames (sch st' p))
           ∧ NoDup (tableNames (sch st' p))
           ∧ list_to_set (tableNames (sch st' p)) ⊆ dom (tableMap (sch st' p))
           ∧ dom (tableSchemas (sch st' p)) ⊆ dom (tableMap (sch st' p)).
Proof.
  exists (default Sample.family
            (run_ops Sample.in_order 2
               [OpAddTable 1 1; OpAddChildSchema 0 1; OpAddTable 1 2; OpRefresh 0]
               Sample.family)).
  assert (E : run_ops Sample.in_order 2
                [OpAddTable 1 1; OpAddChildSchema 0 1; OpAddTable 1 2; OpRefresh 0]
                Sample.family
              = Some (default Sample.family
                        (run_ops Sample.in_order 2
                           [OpAddTable 1 1; OpAddChildSchema 0 1; OpAddTable 1 2;
                            OpRefresh 0]
                           Sample.family)))
    by (vm_compute; reflexivity).
  split; [exact E|].
  exact (indexes_nested_preserved Sample.in_order 2 _ _ _ family_ok E).
Defined.

(** The claim that the three indexes hold the same names, at the sample:
    every schema starts with the three indexes empty; after the table t1
    is added to the child, the child has the name and the table but no
    owner for it; after the child is attached, the parent has the table
    and its owner but not the name. *)
Lemma indexes_agree_counterexample :
  (∀ p, indexes_agree (sch Sample.family p))
  ∧ ∃ st',
      run_ops Sample.in_order 2 [OpAddTable 1 1; OpAddChildSchema 0 1]
        Sample.family = Some st'
      ∧ tableNames (sch st' 1%nat) = ["t1"]
      ∧ tableMap (sch st' 1%nat) !! "t1" = Some (Some 1%nat)
      ∧ tableSchemas (sch st' 1%nat) !! "t1" = None
      ∧ tableNames (sch st' 0%nat) = []
      ∧ tableMap (sch st' 0%nat) !! "t1" = Some (Some 1%nat)
      ∧ tableSchemas (sch st' 0%nat) !! "t1" = Some (Some 1%nat)
      ∧ ¬ indexes_agree (sch st' 1%nat)
      ∧ ¬ indexes_agree (sch st' 0%nat).
Proof.
  split; [exact family_agree|].
  exists (default Sample.family
            (run_ops Sample.in_order 2 [OpAddTable 1 1; OpAddChildSchema 0 1]
               Sample.family)).
  split; [vm_compute; reflexivity|].
  split; [vm_compute; reflexivity|]. split; [vm_compute; reflexivity|].
  split; [vm_compute; reflexivity|]. split; [vm_compute; reflexivity|].
  split; [vm_compute; reflexivity|]. split; [vm_compute; reflexivity|].
  split.
  - apply (not_agree_owner _ "t1" (Some 1%nat)); vm_compute; reflexivity.
  - apply (not_agree_name _ "t1" (Some 1%nat)); vm_compute; reflexivity.
Qed.

(** ** Child attachment and refresh *)

Section Snapshot.




Lemma addschema_names st m n ss st' :
  addschemaForTableUnlocked st m n ss = Some st' →
  ∀ p x, x ∈ tableNames (sch st' p)
         ↔ x ∈ tableNames (sch st p) ∨ (p = m ∧ x = n).
Proof.
  intros H p x. destruct (addschema_post _ _ _ _ _ H) as [Hfr Hm].
  destruct (decide (p = m)) as [->|Hne]; [|rewrite Hfr by auto; tauto].
  destruct Hm as [[Hin ->]|(Hn & s2 & Hl & Hcase)].
  { split; [auto|]. intros [?|[_ ->]]; auto. }
  destruct (maybe_loaded_facts _ _ _ Hl) as (Hnames & _).
  assert (Hs2 : x ∈ tableNames s2 ↔ x ∈ tableNames (sch st m) ∨ (m = m ∧ x = n)).
  { rewrite Hnames. simpl.
    rewrite elem_of_sort_Strings, elem_of_app, list_elem_of_singleton. tauto. }
  destruct Hcase as [[_ ->]|(_ & t & -> & _)]; exact Hs2.
Qed.





Lemma forM_names m ss l :
  ∀ st st', forM (λ st n, addschemaForTableUnlocked st m n ss) l st = Some st' →
            (∀ x, x ∈ tableNames (sch st m) → x ∈ tableNames (sch st' m))
            ∧ ∀ x, x ∈ l → x ∈ tableNames (sch st' m).
Proof.
  induction l as [|n l IH]; intros st st' H; simpl in H.
  - injection H as <-. split; [auto|]. intros x Hx. inversion Hx.
  - destruct (addschemaForTableUnlocked st m n ss) as [st1|] eqn:E;
      [|discriminate].
    cbn [mbind option_bind] in H. destruct (IH _ _ H) as [Hmono Hl].
    pose proof (addschema_names _ _ _ _ _ E m) as Hn.
    split.
    + intros x Hx. apply Hmono, Hn. auto.
    + intros x [->|Hx]%elem_of_cons; [apply Hmono, Hn; auto|auto].
Qed.

Variable range_order : gmap string (option sptr) → list (string * option sptr).
Hypothesis range_order_perm : ∀ m, range_order m ≡ₚ map_to_list m.

Variables (P C : sptr) (dsP dsC : Source) (cname k : string).




End Snapshot.

Section ChildAttachment.

Variable LeftRight : string → string * string * bool.
Variable range_order : gmap string (option sptr) → list (string * option sptr).
Hypothesis range_order_perm : ∀ m, range_order m ≡ₚ map_to_list m.


End ChildAttachment.


(** The same run, evaluated: the refresh hands the parent the very table
    that was added to the child. *)
Lemma snapshot_run :
  let st1 := default Sample.with_t1 (addChildSchema Sample.with_t1 0 1) in
  let st2 := default st1 (AddTable st1 1 2) in
  let st3 := default st2 (refreshSchemaUnlocked Sample.in_order 2 st2 0) in
  Schema_Table LeftRight_dot (sch st1 0%nat) "T1" = Ok 1%nat
  ∧ Schema_Table LeftRight_dot (sch st2 0%nat) "t2" = Err (ErrCouldNotFindTable "t2")
  ∧ Schema_Table LeftRight_dot (sch st3 0%nat) "t2" = Ok 2%nat
  ∧ tableNames (sch st3 0%nat) = ["t1"; "t2"]
  ∧ refreshSchemaUnlocked Sample.in_order 1 st2 0 = None
  ∧ refreshSchemaUnlocked Sample.in_order 2 Sample.blank 0 = None.
Proof. vm_compute. repeat split; reflexivity. Qed.

(** ** Fields and columns of a table *)

Section FieldsAndColumns.

Lemma AddField_scan_names st name l :
  AddField_scan st name 0 l = None ↔ name ∉ map (λ p, Field_Name (fld st p)) l.
Proof.
  rewrite AddField_scan_None, list_elem_of_fmap. split.
  - intros H (p & -> & Hp). now apply (H p).
  - intros H o Ho Hn. apply H. exists o. auto.
Qed.

(** X1.  [AddField] of a field whose name no field of the table has:
    the field is appended, its ordinal becomes the length the list had
    (its position), no other field object is touched, and when every
    field carried its position as ordinal before, every field does
    after. *)
Theorem AddField_new_name (st : store) (m : tptr) (f : fptr) :
  Field_Name (fld st f) ∉ field_names st m →
  let st' := Table_AddField st m f in
  Fields (tbl st' m) = (Fields (tbl st m) ++ [f])%list
  ∧ Field_Id (fld st' f) = Z.of_nat (length (Fields (tbl st m)))
  ∧ Field_Name (fld st' f) = Field_Name (fld st f)
  ∧ Field_Type (fld st' f) = Field_Type (fld st f)
  ∧ (∀ p, p ≠ f → fld st' p = fld st p)
  ∧ (idx_is_position st m → idx_is_position st' m).
Proof.
  intros Hnew st'. pose proof Hnew as Hscan.
  apply AddField_scan_names in Hscan.
  destruct (AddField_append _ _ _ Hscan) as (Hf & HF & _). fold st' in Hf, HF.
  assert (Hnotin : f ∉ Fields (tbl st m)).
  { intros Hin. apply Hnew. unfold field_names. apply list_elem_of_fmap. eauto. }
  rewrite Hf, HF. unfold Field_Id. rewrite fn_lookup_insert.
  split; [reflexivity|]. split; [reflexivity|]. split; [reflexivity|].
  split; [reflexivity|]. split.
  - intros p Hp. now rewrite fn_lookup_insert_ne.
  - intros Hpos i p Hi. rewrite HF in Hi. rewrite Hf.
    apply lookup_app_Some in Hi as [Hi|[Hlen Hi]].
    + rewrite fn_lookup_insert_ne; [now apply Hpos|].
      intros <-. apply Hnotin. eapply list_elem_of_lookup_2. exact Hi.
    + apply list_lookup_singleton_Some in Hi as [Hi <-].
      rewrite fn_lookup_insert. simpl. f_equal. lia.
Qed.

Lemma field_names_replace st l i f old :
  l !! i = Some old → Field_Name (fld st old) = Field_Name (fld st f) →
  map (λ p, Field_Name (fld st p)) (<[i := f]> l)
  = map (λ p, Field_Name (fld st p)) l.
Proof.
  revert i. induction l as [|x l IH]; intros [|i] Hi Hn; simpl in *;
    try discriminate.
  - injection Hi as ->. now rewrite Hn.
  - f_equal. now apply IH.
Qed.

Lemma AddField_field_names st m f :
  field_names (Table_AddField st m f) m
  = if bool_decide (Field_Name (fld st f) ∈ field_names st m)
    then field_names st m
    else (field_names st m ++ [Field_Name (fld st f)])%list.
Proof.
  unfold field_names at 1.
  destruct (AddField_scan st (Field_Name (fld st f)) 0 (Fields (tbl st m)))
    as [i|] eqn:E.
  - destruct (AddField_replace _ _ _ _ E) as (Hf & HF & _). rewrite Hf, HF.
    destruct (AddField_scan_Some _ _ _ _ _ E) as (k & old & Hik & Hk & Hn & _).
    simpl in Hik. subst i.
    rewrite (field_names_replace _ _ _ _ _ Hk Hn).
    rewrite bool_decide_eq_true_2; [reflexivity|].
    unfold field_names. apply list_elem_of_fmap. exists old.
    split; [now rewrite Hn|]. eapply list_elem_of_lookup_2. exact Hk.
  - destruct (AddField_append _ _ _ E) as (Hf & HF & _). rewrite Hf, HF.
    pose proof E as Hnew. apply AddField_scan_names in Hnew.
    rewrite bool_decide_eq_false_2 by exact Hnew.
    assert (Hnotin : f ∉ Fields (tbl st m)).
    { intros Hin. apply Hnew. apply list_elem_of_fmap. eauto. }
    rewrite map_app. simpl. rewrite fn_lookup_insert. simpl. f_equal.
    apply map_ext_in. intros p Hp%list_elem_of_In.
    rewrite fn_lookup_insert_ne; [reflexivity|]. now intros <-.
Qed.

(** X2.  [AddField] is an upsert on the names of a table: the name of
    the field is among the names afterwards, the names are those there
    were plus at most this one, the list grows by one field or not at
    all, and names that were pairwise distinct stay so. *)
Theorem AddField_names (st : store) (m : tptr) (f : fptr) :
  let st' := Table_AddField st m f in
  Field_Name (fld st f) ∈ field_names st' m
  ∧ (∀ n, n ∈ field_names st' m
          ↔ n ∈ field_names st m ∨ n = Field_Name (fld st f))
  ∧ (Field_Name (fld st f) ∈ field_names st m →
     length (Fields (tbl st' m)) = length (Fields (tbl st m)))
  ∧ (Field_Name (fld st f) ∉ field_names st m →
     length (Fields (tbl st' m)) = S (length (Fields (tbl st m))))
  ∧ (NoDup (field_names st m) → NoDup (field_names st' m)).
Proof.
  intros st'.
  assert (Hlen : ∀ s, length (Fields (tbl s m)) = length (field_names s m))
    by (intros s; unfold field_names; now rewrite length_map).
  rewrite !Hlen. unfold st'. rewrite AddField_field_names.
  case_bool_decide as Hin.
  - split; [exact Hin|]. split; [intros n; split; [auto|intros [?| ->]; auto]|].
    split; [reflexivity|]. split; [intros H; now destruct H|auto].
  - split; [apply elem_of_app; right; now left|].
    split; [intros n; now rewrite elem_of_app, list_elem_of_singleton|].
    split; [intros H; now destruct Hin|].
    split; [intros _; rewrite length_app; simpl; lia|].
    intros Hnd. apply NoDup_app. split; [exact Hnd|]. split.
    + intros x Hx ->%list_elem_of_singleton. auto.
    + apply NoDup_singleton.
Qed.

Lemma AddField_FieldMap st m f :
  FieldMap (tbl (Table_AddField st m f) m)
  = <[Field_Name (fld st f) := f]> (FieldMap (tbl st m))
  ∧ Field_Type (fld (Table_AddField st m f) f) = Field_Type (fld st f).
Proof.
  destruct (AddField_scan st (Field_Name (fld st f)) 0 (Fields (tbl st m)))
    as [i|] eqn:E.
  - destruct (AddField_replace _ _ _ _ E) as (Hf & _ & HM). now rewrite Hf, HM.
  - destruct (AddField_append _ _ _ E) as (Hf & _ & HM). rewrite Hf, HM.
    now rewrite fn_lookup_insert.
Qed.

Variable UnknownType : ValueType.

(** X3.  After [AddField] the table has the field under its name:
    [HasField] says so, [Column] returns its wire type, also for a name
    in another case when the field's name is lowercase and the table has
    no field under that other spelling; what [HasField] says of any other
    name is what it said before. *)
Theorem AddField_then_lookup (st : store) (m : tptr) (f : fptr) :
  let st' := Table_AddField st m f in
  let name := Field_Name (fld st f) in
  Table_HasField (tbl st' m) name = true
  ∧ FieldMap (tbl st' m) !! name = Some f
  ∧ Table_Column UnknownType st' m name = (Field_Type (fld st f), true)
  ∧ (∀ col, ToLower col = name → FieldMap (tbl st m) !! col = None →
            Table_Column UnknownType st' m col = (Field_Type (fld st f), true))
  ∧ (∀ other, other ≠ name →
              Table_HasField (tbl st' m) other = Table_HasField (tbl st m) other).
Proof.
  intros st' name. destruct (AddField_FieldMap st m f) as [HM HT].
  fold st' name in HM, HT.
  assert (Hl : FieldMap (tbl st' m) !! name = Some f)
    by (rewrite HM; apply lookup_insert_eq).
  assert (Hc : Table_Column UnknownType st' m name = (Field_Type (fld st f), true)).
  { unfold Table_Column, Field_ValueType. now rewrite Hl, HT. }
  split; [apply map_has_true, elem_of_dom; eauto|]. split; [exact Hl|].
  split; [exact Hc|]. split.
  - intros col Hlow Hnone. destruct (decide (col = name)) as [->|Hne]; [exact Hc|].
    unfold Table_Column, Field_ValueType. rewrite HM at 1.
    rewrite lookup_insert_ne by congruence. now rewrite Hnone, Hlow, Hl, HT.
  - intros other Hne. unfold Table_HasField, map_has. rewrite HM.
    now rewrite lookup_insert_ne by congruence.
Qed.

(** A column name that the table has under no spelling. *)
Lemma Column_miss st m col :
  FieldMap (tbl st m) !! col = None →
  FieldMap (tbl st m) !! ToLower col = None →
  Table_Column UnknownType st m col = (UnknownType, false).
Proof. intros H1 H2. unfold Table_Column. now rewrite H1, H2. Qed.

End FieldsAndColumns.

Lemma AddField_new_name_witness :
  let st' := Table_AddField Sample.abc 0 4 in
  Fields (tbl st' 0%nat) = [0; 1; 2; 4]%nat ∧ Field_Id (fld st' 4%nat) = 3.
Proof.
  intros st'.
  assert (Hnew : Field_Name (fld Sample.abc 4%nat) ∉ field_names Sample.abc 0%nat).
  { apply (bool_decide_unpack _). vm_compute. exact I. }
  destruct (AddField_new_name Sample.abc 0%nat 4%nat Hnew) as (HF & Hid & _).
  split; [exact HF|exact Hid].
Defined.

(** ** Column positions *)

Section ColumnPositions.

Lemma SetColumns_loop_snd todo :
  ∀ i pre rest fp,
    length pre = i → length rest = length todo →
    snd (SetColumns_loop i todo (fp, (pre ++ rest)%list)) = (pre ++ todo)%list.
Proof.
  induction todo as [|col todo IH]; intros i pre rest fp Hi Hr; simpl.
  - destruct rest; [reflexivity|discriminate].
  - destruct rest as [|r rest]; [discriminate|]. simpl in Hr.
    rewrite insert_app_r_alt by lia.
    replace (i - length pre)%nat with 0%nat by lia. simpl.
    rewrite (cons_middle col pre rest), (cons_middle col pre todo), !(assoc app).
    apply IH; [rewrite length_app; simpl; lia|lia].
Qed.

Lemma SetColumns_loop_other todo :
  ∀ i fp cs c, c ∉ todo → fst (SetColumns_loop i todo (fp, cs)) !! c = fp !! c.
Proof.
  induction todo as [|col todo IH]; intros i fp cs c Hc; simpl; [reflexivity|].
  apply not_elem_of_cons in Hc as [Hne Hc].
  rewrite IH by exact Hc. simpl. now rewrite lookup_insert_ne.
Qed.

Lemma SetColumns_loop_last todo :
  ∀ i fp cs c j,
    todo !! j = Some c → (∀ j', (j < j')%nat → todo !! j' ≠ Some c) →
    fst (SetColumns_loop i todo (fp, cs)) !! c = Some (Z.of_nat (i + j)).
Proof.
  induction todo as [|col todo IH]; intros i fp cs c j Hj Hlast; [discriminate|].
  simpl. destruct j as [|j]; simpl in Hj.
  - injection Hj as ->. rewrite SetColumns_loop_other.
    + simpl. rewrite lookup_insert_eq. do 2 f_equal. lia.
    + intros [k Hk]%list_elem_of_lookup_1. apply (Hlast (S k)); [lia|exact Hk].
  - rewrite (IH _ _ _ c j Hj).
    + do 2 f_equal. lia.
    + intros j' Hj'. apply (Hlast (S j')). lia.
Qed.

Lemma last_occurrence (l : list string) c :
  c ∈ l → ∃ j, l !! j = Some c ∧ ∀ j', (j < j')%nat → l !! j' ≠ Some c.
Proof.
  induction l as [|x l IH]; intros Hc; [inversion Hc|].
  destruct (decide (c ∈ l)) as [Hin|Hnin].
  - destruct (IH Hin) as (j & Hj & Hlast). exists (S j). split; [exact Hj|].
    intros [|j'] Hlt; [lia|]. simpl. apply Hlast. lia.
  - apply elem_of_cons in Hc as [->|Hc]; [|now destruct Hnin].
    exists 0%nat. split; [reflexivity|]. intros [|j'] Hlt; [lia|]. simpl.
    intros Hj'. apply Hnin. eapply list_elem_of_lookup_2. exact Hj'.
Qed.

Lemma SetColumns_positions columns c :
  FieldPositions (Table_SetColumns columns) !! c
  = fst (SetColumns_loop 0 columns (∅, columns)) !! c
  ∧ cols (Table_SetColumns columns) = columns.
Proof.
  unfold Table_SetColumns.
  pose proof (SetColumns_loop_snd columns 0 [] columns ∅ eq_refl eq_refl) as Hs.
  simpl in Hs. destruct (SetColumns_loop 0 columns (∅, columns)) as [fp cs].
  simpl in *. auto.
Qed.

Lemma SetColumns_char (columns : list string) :
  let c := Table_SetColumns columns in
  Table_Columns c = columns
  ∧ dom (Table_FieldNamesPositions c) = list_to_set columns
  ∧ (∀ name i, FieldPositions c !! name = Some i →
               0 ≤ i < Z.of_nat (length columns)
               ∧ columns !! Z.to_nat i = Some name)
  ∧ (∀ name j, columns !! j = Some name →
               (∀ j', (j < j')%nat → columns !! j' ≠ Some name) →
               FieldPositions c !! name = Some (Z.of_nat j))
  ∧ (NoDup columns →
     ∀ name j, columns !! j = Some name ↔
               FieldPositions c !! name = Some (Z.of_nat j)).
Proof.
  intros c. subst c. set (c := Table_SetColumns columns).
  assert (Hlast : ∀ name j, columns !! j = Some name →
            (∀ j', (j < j')%nat → columns !! j' ≠ Some name) →
            FieldPositions c !! name = Some (Z.of_nat j)).
  { intros name j Hj Hl. unfold c.
    destruct (SetColumns_positions columns name) as [-> _].
    now rewrite (SetColumns_loop_last columns 0 ∅ columns name j Hj Hl). }
  assert (Hnone : ∀ name, name ∉ columns → FieldPositions c !! name = None).
  { intros name Hn. unfold c.
    destruct (SetColumns_positions columns name) as [-> _].
    now rewrite SetColumns_loop_other. }
  assert (Hsome : ∀ name i, FieldPositions c !! name = Some i →
            0 ≤ i < Z.of_nat (length columns) ∧ columns !! Z.to_nat i = Some name).
  { intros name i Hi. destruct (decide (name ∈ columns)) as [Hin|Hnin].
    - destruct (last_occurrence _ _ Hin) as (j & Hj & Hl).
      rewrite (Hlast _ _ Hj Hl) in Hi. injection Hi as <-.
      rewrite Nat2Z.id. split; [|exact Hj]. apply lookup_lt_Some in Hj. lia.
    - rewrite (Hnone _ Hnin) in Hi. discriminate. }
  split; [apply SetColumns_positions; exact ""|].
  split; [|split; [exact Hsome|split; [exact Hlast|]]].
  - apply set_eq. intros name. unfold Table_FieldNamesPositions.
    rewrite elem_of_dom, elem_of_list_to_set. split.
    + intros [i Hi]. destruct (Hsome _ _ Hi) as [_ Hj].
      eapply list_elem_of_lookup_2. exact Hj.
    + intros Hin. destruct (last_occurrence _ _ Hin) as (j & Hj & Hl).
      rewrite (Hlast _ _ Hj Hl). eauto.
  - intros Hnd name j. split.
    + intros Hj. apply Hlast; [exact Hj|]. intros j' Hlt Hj'.
      pose proof (NoDup_lookup _ _ _ _ Hnd Hj Hj'). lia.
    + intros Hp. destruct (Hsome _ _ Hp) as [_ Hj]. now rewrite Nat2Z.id in Hj.
Qed.

(** X4.  [SetColumns] keeps the list it is given and maps every column
    name of the list, and no other name, to a position at which the list
    has it: the last one when the name occurs more than once, so that for
    a list without repetition the map and the list are inverse to each
    other. *)
Theorem SetColumns_spec (columns : list string) :
  let c := Table_SetColumns columns in
  Table_Columns c = columns
  ∧ dom (Table_FieldNamesPositions c) = list_to_set columns
  ∧ (∀ name i, FieldPositions c !! name = Some i →
               0 ≤ i < Z.of_nat (length columns)
               ∧ columns !! Z.to_nat i = Some name)
  ∧ (∀ name j, columns !! j = Some name →
               (∀ j', (j < j')%nat → columns !! j' ≠ Some name) →
               FieldPositions c !! name = Some (Z.of_nat j))
  ∧ (NoDup columns →
     ∀ name j, columns !! j = Some name ↔
               FieldPositions c !! name = Some (Z.of_nat j)).
Proof. exact (SetColumns_char columns). Qed.

Lemma SetColumnsFromFields_loop_eq st fields :
  ∀ i acc,
    SetColumnsFromFields_loop st i fields acc
    = SetColumns_loop i (map (λ p, ToLower (Field_Name (fld st p))) fields) acc.
Proof.
  induction fields as [|f fields IH]; intros i acc; simpl; [reflexivity|].
  apply IH.
Qed.

(** X5.  [SetColumnsFromFields] gives the table the columns that
    [SetColumns] gives it for the lowercased names of its fields, in the
    order of the fields: one column per field, and when two fields have
    the same lowercased name, the position of the later one. *)
Theorem SetColumnsFromFields_spec (st : store) (m : tptr) :
  let lowered := map ToLower (field_names st m) in
  Table_SetColumnsFromFields st m = Table_SetColumns lowered
  ∧ Table_Columns (Table_SetColumnsFromFields st m) = lowered
  ∧ length (Table_Columns (Table_SetColumnsFromFields st m))
    = length (Fields (tbl st m))
  ∧ (∀ i j p q,
        (i < j)%nat → Fields (tbl st m) !! i = Some p →
        Fields (tbl st m) !! j = Some q →
        ToLower (Field_Name (fld st p)) = ToLower (Field_Name (fld st q)) →
        FieldPositions (Table_SetColumnsFromFields st m)
          !! ToLower (Field_Name (fld st p)) ≠ Some (Z.of_nat i)).
Proof.
  intros lowered.
  assert (Hl : lowered = map (λ p, ToLower (Field_Name (fld st p))) (Fields (tbl st m))).
  { unfold lowered, field_names. now rewrite map_map. }
  assert (Hlen : length lowered = length (Fields (tbl st m))).
  { rewrite Hl. apply length_map. }
  assert (E : Table_SetColumnsFromFields st m = Table_SetColumns lowered).
  { unfold Table_SetColumnsFromFields, Table_SetColumns. cbv zeta.
    rewrite SetColumnsFromFields_loop_eq, <- Hl.
    pose proof (SetColumns_loop_snd lowered 0 [] lowered ∅ eq_refl eq_refl) as H1.
    pose proof (SetColumns_loop_snd lowered 0 []
                  (replicate (length (Fields (tbl st m))) "") ∅ eq_refl) as H2.
    rewrite length_replicate in H2. specialize (H2 (eq_sym Hlen)).
    simpl in H1, H2.
    assert (Hf : ∀ c c', fst (SetColumns_loop 0 lowered (∅, c))
                         = fst (SetColumns_loop 0 lowered (∅, c'))).
    { intros c c'. apply map_eq. intros k.
      destruct (decide (k ∈ lowered)) as [Hin|Hnin].
      - destruct (last_occurrence _ _ Hin) as (j & Hj & Hlast).
        now rewrite !(SetColumns_loop_last lowered 0 ∅ _ k j Hj Hlast).
      - now rewrite !SetColumns_loop_other. }
    specialize (Hf lowered (replicate (length (Fields (tbl st m))) "")).
    destruct (SetColumns_loop 0 lowered (∅, lowered)) as [fp1 cs1].
    destruct (SetColumns_loop 0 lowered (∅, replicate _ "")) as [fp2 cs2].
    simpl in *. now subst. }
  destruct (SetColumns_char lowered) as (Hc & _ & Hsome & _).
  rewrite E. split; [reflexivity|]. split; [exact Hc|]. split; [now rewrite Hc|].
  intros i j p q Hij Hi Hj Hn Hpos.
  destruct (SetColumns_positions lowered (ToLower (Field_Name (fld st p))))
    as [Hfp _].
  assert (Hq : lowered !! j = Some (ToLower (Field_Name (fld st p)))).
  { rewrite Hl, list_lookup_fmap, Hj. simpl. now rewrite Hn. }
  destruct (last_occurrence lowered (ToLower (Field_Name (fld st p))))
    as (k & Hk & Hlast); [eapply list_elem_of_lookup_2; exact Hq|].
  rewrite Hfp, (SetColumns_loop_last lowered 0 ∅ _ _ k Hk Hlast) in Hpos.
  injection Hpos as Hik. simpl in Hik. apply Nat2Z.inj in Hik. subst k.
  apply (Hlast j Hij Hq).
Qed.

End ColumnPositions.

(** ** Owners and connections *)

Section Owners.

Lemma OpenConn_owned st m T s ds :
  tableSchemas (sch st m) !! ToLower T = Some (Some s) →
  DS (sch st s) = Some ds →
  Schema_OpenConn st m T = conn_or_error (ToLower T) (src_Open ds (ToLower T)).
Proof.
  intros Hs Hds. unfold Schema_OpenConn, conn_or_error. rewrite Hs, Hds.
  destruct (src_Open ds (ToLower T)) as [[c|] [e|]]; reflexivity.
Qed.

(** X6.  [SchemaForTable] and [OpenConn] agree on the owner of a table.
    A schema named ["schema"] answers [SchemaForTable] with itself for
    every name.  Any other schema answers with the owner it has recorded
    for the lowercased name, and then [OpenConn] is what that owner's
    source opens; when it answers with an error, the error is the
    not-found sentinel and [OpenConn] fails for want of a source. *)
Theorem SchemaForTable_OpenConn (st : store) (m : sptr) (T : string) :
  (Schema_Name (sch st m) = "schema" → Schema_SchemaForTable st m T = Ok m)
  ∧ (Schema_Name (sch st m) ≠ "schema" →
     (∀ ss, Schema_SchemaForTable st m T = Ok ss →
            ∃ ds, DS (sch st ss) = Some ds
                  ∧ tableSchemas (sch st m) !! ToLower T = Some (Some ss)
                  ∧ Schema_OpenConn st m T
                    = conn_or_error (ToLower T) (src_Open ds (ToLower T)))
     ∧ (∀ e, Schema_SchemaForTable st m T = Err e →
             e = ErrNotFound
             ∧ Schema_OpenConn st m T
               = Err (ErrCouldNotFindDataSource (ToLower T)))).
Proof.
  unfold Schema_SchemaForTable. split.
  - intros ->. reflexivity.
  - intros Hn. rewrite bool_decide_eq_false_2 by exact Hn.
    destruct (tableSchemas (sch st m) !! ToLower T) as [[s|]|] eqn:Hs.
    + destruct (DS (sch st s)) as [ds|] eqn:Hds; split.
      * intros ss [= <-]. exists ds. split; [exact Hds|]. split; [reflexivity|].
        eapply OpenConn_owned; eassumption.
      * intros e [=].
      * intros ss [=].
      * intros e [= <-]. split; [reflexivity|].
        unfold Schema_OpenConn. now rewrite Hs, Hds.
    + split; [intros ss [=]|]. intros e [= <-]. split; [reflexivity|].
      unfold Schema_OpenConn. now rewrite Hs.
    + split; [intros ss [=]|]. intros e [= <-]. split; [reflexivity|].
      unfold Schema_OpenConn. now rewrite Hs.
Qed.

Lemma addChildSchema_frame st P C st1 :
  addChildSchema st P C = Some st1 →
  ∀ p, DS (sch st1 p) = DS (sch st p) ∧ Conf (sch st1 p) = Conf (sch st p)
       ∧ Schema_Name (sch st1 p) = Schema_Name (sch st p)
       ∧ tableNames (sch st1 p) = tableNames (sch st p).
Proof.
  intros H p. destruct (addChildSchema_post _ _ _ _ H) as (_ & A1 & A2 & A3 & _).
  destruct (decide (p = P)) as [->|HP]; [now rewrite A3|].
  destruct (decide (p = C)) as [->|HC]; [now rewrite A2|].
  now rewrite A1.
Qed.

(** X7.  After [addChildSchema] the parent finds the child with
    [Schema] under the child's name, whatever the case of the name asked
    for, provided the child has a source; a child without a source is
    attached and still not found.  The child points back to the parent,
    and what [Schema] answers for any other name has not changed. *)
Theorem Schema_after_attach (st st1 : store) (P C : sptr) :
  addChildSchema st P C = Some st1 →
  parent (sch st1 C) = Some P
  ∧ schemas (sch st1 P) !! Schema_Name (sch st C) = Some (Some C)
  ∧ (∀ name, ToLower name = Schema_Name (sch st C) →
             Schema_Schema st1 P name
             = match DS (sch st C) with
               | Some _ => Ok C
               | None => Err (ErrCouldNotFindSchema (ToLower name))
               end)
  ∧ (∀ name, ToLower name ≠ Schema_Name (sch st C) →
             Schema_Schema st1 P name = Schema_Schema st P name).
Proof.
  intros H. pose proof (addChildSchema_frame _ _ _ _ H) as Hfr.
  destruct (addChildSchema_post _ _ _ _ H) as (Hne & A1 & A2 & A3 & _).
  assert (Hs : schemas (sch st1 P)
               = <[Schema_Name (sch st C) := Some C]> (schemas (sch st P)))
    by now rewrite A3.
  split; [now rewrite A2|]. split; [rewrite Hs; apply lookup_insert_eq|]. split.
  - intros name Hname. unfold Schema_Schema.
    rewrite Hs, Hname, lookup_insert_eq. destruct (Hfr C) as (-> & _).
    reflexivity.
  - intros name Hname. unfold Schema_Schema.
    rewrite Hs, lookup_insert_ne by congruence.
    destruct (schemas (sch st P) !! ToLower name) as [[c|]|]; try reflexivity.
    destruct (Hfr c) as (-> & _). reflexivity.
Qed.

Section WithLeftRight.

Variable LeftRight : string → string * string * bool.

(** X8.  [addChildSchema] copies the table index of the child into the
    parent: every entry of the child's table map is in the parent's
    afterwards, with the child as its owner, also where the parent had an
    entry of its own under that name; the other entries of the parent
    stay; the name list of the parent is not extended.  A table the child
    holds under a name is what the parent's [Table] returns for it, and
    [OpenConn] on the parent opens it with the child's source. *)
Theorem attach_copies_tables (st st1 : store) (P C : sptr) :
  addChildSchema st P C = Some st1 →
  (∀ k v, tableMap (sch st C) !! k = Some v →
          tableMap (sch st1 P) !! k = Some v
          ∧ tableSchemas (sch st1 P) !! k = Some (Some C))
  ∧ (∀ k, tableMap (sch st C) !! k = None →
          tableMap (sch st1 P) !! k = tableMap (sch st P) !! k
          ∧ tableSchemas (sch st1 P) !! k = tableSchemas (sch st P) !! k)
  ∧ tableNames (sch st1 P) = tableNames (sch st P)
  ∧ tableMap (sch st1 C) = tableMap (sch st C)
  ∧ (∀ T t, tableMap (sch st C) !! ToLower T = Some (Some t) →
            Schema_Table LeftRight (sch st1 P) T = Ok t
            ∧ Schema_Table LeftRight (sch st1 C) T = Ok t)
  ∧ (∀ T ds, is_Some (tableMap (sch st C) !! ToLower T) →
             DS (sch st C) = Some ds →
             Schema_OpenConn st1 P T
             = conn_or_error (ToLower T) (src_Open ds (ToLower T))).
Proof.
  intros H. pose proof (addChildSchema_frame _ _ _ _ H) as Hfr.
  destruct (addChildSchema_post _ _ _ _ H) as (Hne & A1 & A2 & A3 & _).
  assert (Hin : ∀ k v, tableMap (sch st C) !! k = Some v →
            tableMap (sch st1 P) !! k = Some v
            ∧ tableSchemas (sch st1 P) !! k = Some (Some C)).
  { intros k v Hk. rewrite A3. unfold attached. simpl. split.
    - now apply lookup_union_Some_l.
    - apply lookup_union_Some_l. now rewrite lookup_fmap, Hk. }
  split; [exact Hin|]. split; [|split; [|split; [|split]]].
  - intros k Hk. rewrite A3. unfold attached. simpl. split.
    + now rewrite lookup_union_r.
    + rewrite lookup_union_r; [reflexivity|]. now rewrite lookup_fmap, Hk.
  - apply Hfr.
  - now rewrite A2.
  - intros T t Ht. destruct (Hin _ _ Ht) as [Hp _]. split.
    + now apply Table_hit.
    + apply Table_hit. now rewrite A2.
  - intros T ds [v Hv] Hds. destruct (Hin _ _ Hv) as [_ Ho].
    apply (OpenConn_owned _ _ _ C ds Ho). destruct (Hfr C) as (-> & _).
    exact Hds.
Qed.

Lemma AddTable_frame st m t st' :
  AddTable st m t = Some st' →
  ∀ p, DS (sch st' p) = DS (sch st p) ∧ Conf (sch st' p) = Conf (sch st p)
       ∧ Schema_Name (sch st' p) = Schema_Name (sch st p)
       ∧ schemas (sch st' p) = schemas (sch st p)
       ∧ tableSchemas (sch st' p) = tableSchemas (sch st p).
Proof.
  intros H p. destruct (addTable_post _ _ _ _ H) as (Hfr & Hm & _).
  destruct (decide (p = m)) as [->|Hne]; [|now rewrite Hfr].
  rewrite Hm. cbv zeta. destruct (found_in _ _); auto.
Qed.

(** X9.  [AddTable] registers the table under its name: [Table] finds
    it under any spelling that lowercases to the name, the name is in
    [Tables], the table points to the schema, and the entries of the
    table map under other names are the ones there were. *)
Theorem AddTable_then_Table (st st' : store) (m : sptr) (t : tptr) (T : string) :
  AddTable st m t = Some st' →
  ToLower T = Table_Name (tbl st t) →
  Schema_Table LeftRight (sch st' m) T = Ok t
  ∧ Table_Name (tbl st t) ∈ Schema_Tables (sch st' m)
  ∧ Table_Schema (tbl st' t) = Some m
  ∧ Table_Name (tbl st' t) = Table_Name (tbl st t)
  ∧ (∀ k, k ≠ Table_Name (tbl st t) →
          tableMap (sch st' m) !! k = tableMap (sch st m) !! k).
Proof.
  intros H Hlow. destruct (addTable_post _ _ _ _ H) as (_ & Hm & _ & st2 & E & Ht).
  cbv zeta in Hm. destruct (addTable_configure_post _ _ _ _ E) as (_ & _ & _ & C4 & _).
  assert (Hmap : tableMap (sch st' m)
                 = <[Table_Name (tbl st t) := Some t]> (tableMap (sch st m))).
  { rewrite Hm. now destruct (found_in _ _). }
  split; [apply Table_hit; rewrite Hlow, Hmap; apply lookup_insert_eq|].
  split; [|split; [|split]].
  - unfold Schema_Tables. rewrite Hm.
    destruct (found_in _ _) eqn:Hf; simpl.
    + now apply found_in_true in Hf.
    + rewrite elem_of_sort_Strings, elem_of_app, list_elem_of_singleton. auto.
  - rewrite Ht. unfold tbl_init. now store_simpl.
  - rewrite Ht. unfold tbl_init. store_simpl. simpl. rewrite C4. simpl.
    now store_simpl.
  - intros k Hk. rewrite Hmap. now rewrite lookup_insert_ne by congruence.
Qed.

End WithLeftRight.

(** X10.  [AddTable] records no owner: the owner map of every schema is
    what it was, and so are the answers of [OpenConn] and of
    [SchemaForTable], for every schema and every name; the table just
    added has a connection only if an owner was recorded for its name
    before. *)
Theorem AddTable_keeps_owners (st st' : store) (m : sptr) (t : tptr) :
  AddTable st m t = Some st' →
  (∀ p, tableSchemas (sch st' p) = tableSchemas (sch st p))
  ∧ (∀ p T, Schema_OpenConn st' p T = Schema_OpenConn st p T)
  ∧ (∀ p T, Schema_SchemaForTable st' p T = Schema_SchemaForTable st p T)
  ∧ (tableSchemas (sch st m) !! ToLower (Table_Name (tbl st t)) = None →
     Schema_OpenConn st' m (Table_Name (tbl st t))
     = Err (ErrCouldNotFindDataSource (ToLower (Table_Name (tbl st t))))).
Proof.
  intros H. pose proof (AddTable_frame _ _ _ _ H) as Hfr.
  assert (Ho : ∀ p T, Schema_OpenConn st' p T = Schema_OpenConn st p T).
  { intros p T. unfold Schema_OpenConn.
    destruct (Hfr p) as (_ & _ & _ & _ & ->).
    destruct (tableSchemas (sch st p) !! ToLower T) as [[s|]|]; try reflexivity.
    destruct (Hfr s) as (-> & _). reflexivity. }
  split; [intros p; apply Hfr|]. split; [exact Ho|]. split.
  - intros p T. unfold Schema_SchemaForTable.
    destruct (Hfr p) as (_ & _ & -> & _ & ->).
    case_bool_decide; [reflexivity|].
    destruct (tableSchemas (sch st p) !! ToLower T) as [[s|]|]; try reflexivity.
    destruct (Hfr s) as (-> & _). reflexivity.
  - intros Hnone. rewrite Ho. unfold Schema_OpenConn. now rewrite Hnone.
Qed.

End Owners.

(** ** The table after [AddTable] *)

Section AddedTable.

Lemma lxor_byte_bound h c :
  0 ≤ h < 2 ^ 64 → 0 ≤ Z.lxor h (Z.of_N (N_of_ascii c)) < 2 ^ 64.
Proof.
  intros Hh.
  assert (Hc : 0 ≤ Z.of_N (N_of_ascii c) < 2 ^ 64).
  { pose proof (N_ascii_bounded c). lia. }
  set (b := Z.of_N (N_of_ascii c)) in *.
  assert (Hnn : 0 ≤ Z.lxor h b) by (apply Z.lxor_nonneg; lia).
  split; [exact Hnn|].
  destruct (Z.eq_dec (Z.lxor h b) 0) as [->|Hne]; [lia|].
  apply Z.log2_lt_pow2; [lia|].
  pose proof (Z.log2_lxor h b ltac:(lia) ltac:(lia)) as Hl.
  assert (Hlh : Z.log2 h < 64).
  { destruct (Z.eq_dec h 0) as [->|?]; [simpl; lia|apply Z.log2_lt_pow2; lia]. }
  assert (Hlb : Z.log2 b < 64).
  { destruct (Z.eq_dec b 0) as [->|?]; [simpl; lia|apply Z.log2_lt_pow2; lia]. }
  lia.
Qed.

Lemma Sum64_bound s : 0 ≤ Fnv.Sum64 s < 2 ^ 64.
Proof.
  unfold Fnv.Sum64.
  assert (H : ∀ h, 0 ≤ h < 2 ^ 64 → 0 ≤ Fnv.write h s < 2 ^ 64).
  { induction s as [|c s IH]; intros h Hh; simpl; [exact Hh|].
    apply IH. unfold Fnv.step. apply lxor_byte_bound.
    apply Z.mod_pos_bound. lia. }
  apply H. unfold Fnv.offset64. lia.
Qed.

Lemma Table_eta (x : Table) :
  {| Table_Name := Table_Name x; NameOriginal := NameOriginal x;
     Fields := Fields x; FieldMap := FieldMap x;
     Table_Schema := Table_Schema x; Partition := Partition x;
     PartitionCt := PartitionCt x; tblID := tblID x;
     Table_lastRefreshed := Table_lastRefreshed x |} = x.
Proof. now destruct x. Qed.

Lemma Schema_eta (s : Schema) :
  {| Schema_Name := Schema_Name s; Conf := Conf s; DS := DS s;
     InfoSchema := InfoSchema s; parent := parent s; schemas := schemas s;
     tableSchemas := tableSchemas s; tableMap := tableMap s;
     tableNames := tableNames s;
     Schema_lastRefreshed := Schema_lastRefreshed s |} = s.
Proof. now destruct s. Qed.

Lemma addTable_partitions_char t pts :
  ∀ st st', addTable_partitions t pts st = Some st' →
    Forall is_Some pts
    ∧ tbl st' t
      = match Partition (tbl st t) with
        | Some _ => tbl st t
        | None =>
            set_Partition (first_partition (Table_Name (tbl st t)) pts) (tbl st t)
        end.
Proof.
  induction pts as [|[pt|] pts IH]; intros st st' H; simpl in H.
  - injection H as <-. split; [constructor|].
    destruct (Partition (tbl st t)) eqn:Hp; [reflexivity|].
    simpl. unfold set_Partition. rewrite <- Hp. now rewrite Table_eta.
  - destruct (IH _ _ H) as [Hall Ht]. split; [constructor; eauto|].
    rewrite Ht. clear IH H Ht. simpl.
    destruct (Partition (tbl st t)) as [p0|] eqn:Hp.
    + rewrite (bool_decide_eq_false_2 (Some p0 = None)) by discriminate.
      rewrite andb_false_r. now rewrite Hp.
    + rewrite (bool_decide_eq_true_2 (None = None)) by reflexivity.
      rewrite andb_true_r. case_bool_decide as Hn.
      * store_simpl. reflexivity.
      * now rewrite Hp.
  - discriminate.
Qed.

Lemma addTable_configure_char m t st st' :
  addTable_configure m t st = Some st' →
  tbl st' t = match Conf (sch st m) with
              | Some conf => configured conf (tbl st t)
              | None => tbl st t
              end
  ∧ match Conf (sch st m) with
    | Some conf => 0 < Conf_PartitionCt conf ∨ Forall is_Some (Partitions conf)
    | None => True
    end.
Proof.
  unfold addTable_configure, configured. intros H.
  destruct (Conf (sch st m)) as [conf|]; [|injection H as <-; auto].
  destruct (0 <? Conf_PartitionCt conf) eqn:Hct.
  - injection H as <-. apply Z.ltb_lt in Hct. split; [now store_simpl|auto].
  - destruct (addTable_partitions_char _ _ _ _ H) as [Hall Ht].
    split; [|auto]. rewrite Ht. now destruct (Partition (tbl st t)).
Qed.

Lemma addTable_configure_runs m t st :
  match Conf (sch st m) with
  | Some conf => 0 < Conf_PartitionCt conf ∨ Forall is_Some (Partitions conf)
  | None => True
  end →
  is_Some (addTable_configure m t st).
Proof.
  unfold addTable_configure. destruct (Conf (sch st m)) as [conf|]; [|eauto].
  intros H. destruct (0 <? Conf_PartitionCt conf) eqn:Hct; [eauto|].
  destruct H as [H|H]; [apply Z.ltb_ge in Hct; lia|].
  now apply addTable_partitions_total.
Qed.

Lemma AddTable_char st m t st' :
  AddTable st m t = Some st' →
  tbl st' t = added m (Conf (sch st m)) (tbl st t)
  ∧ (∀ q, q ≠ t → tbl st' q = tbl st q)
  ∧ fld st' = fld st
  ∧ match Conf (sch st m) with
    | Some conf => 0 < Conf_PartitionCt conf ∨ Forall is_Some (Partitions conf)
    | None => True
    end.
Proof.
  intros H. destruct (addTable_post _ _ _ _ H) as (_ & _ & Hfld & st2 & E & Ht).
  destruct (addTable_configure_post _ _ _ _ E) as (_ & _ & C3 & _).
  destruct (addTable_configure_char _ _ _ _ E) as [Hc Hruns].
  revert Hc Hruns. store_simpl. simpl. store_simpl. intros Hc Hruns.
  split; [|split; [|split; [exact Hfld|exact Hruns]]].
  - rewrite Ht. unfold tbl_init. store_simpl. rewrite Hc. unfold added.
    now destruct (Conf (sch st m)).
  - intros q Hq. rewrite Ht. unfold tbl_init. rewrite tbl_upd_tbl_ne by congruence.
    rewrite C3 by exact Hq. simpl. now store_simpl.
Qed.

Lemma added_idem m conf x : added m conf (added m conf x) = added m conf x.
Proof.
  unfold added, configured. destruct conf as [conf|]; simpl.
  - destruct (0 <? Conf_PartitionCt conf); simpl; [reflexivity|].
    destruct (Partition x) as [p|] eqn:Hp; simpl; rewrite ?Hp; [reflexivity|].
    destruct (first_partition (Table_Name x) (Partitions conf)); reflexivity.
  - reflexivity.
Qed.

(** X11.  The identifier [AddTable] gives a table is the 64-bit FNV-1
    hash of its name: a number below 2^64 that depends on the name alone,
    so that two tables of the same name get the same identifier in
    whatever schemas they are added to.  [AddField] leaves the identifier
    of every table alone. *)
Theorem AddTable_id (st st' : store) (m : sptr) (t : tptr) :
  AddTable st m t = Some st' →
  Table_Id (tbl st' t) = Fnv.Sum64 (Table_Name (tbl st t))
  ∧ 0 ≤ Table_Id (tbl st' t) < 2 ^ 64
  ∧ (∀ st2 st2' m2 t2,
        AddTable st2 m2 t2 = Some st2' →
        Table_Name (tbl st2 t2) = Table_Name (tbl st t) →
        Table_Id (tbl st2' t2) = Table_Id (tbl st' t))
  ∧ (∀ q f p, Table_Id (tbl (Table_AddField st' q f) p) = Table_Id (tbl st' p)).
Proof.
  assert (Hid : ∀ s s' a b, AddTable s a b = Some s' →
                  Table_Id (tbl s' b) = Fnv.Sum64 (Table_Name (tbl s b))).
  { intros s s' a b H. destruct (AddTable_char _ _ _ _ H) as (-> & _).
    unfold added, configured, Table_Id.
    destruct (Conf (sch s a)) as [conf|]; simpl; [|reflexivity].
    destruct (0 <? Conf_PartitionCt conf); simpl; [reflexivity|].
    now destruct (Partition (tbl s b)). }
  intros H. rewrite (Hid _ _ _ _ H).
  split; [reflexivity|]. split; [apply Sum64_bound|]. split.
  - intros st2 st2' m2 t2 H2 Hn. rewrite (Hid _ _ _ _ H2). now rewrite Hn.
  - intros q f p. unfold Table_AddField, Table_Id.
    destruct (AddField_scan _ _ _ _); simpl;
      destruct (decide (q = p)) as [->|Hne]; store_simpl; reflexivity.
Qed.

(** X12.  Adding a table a second time changes nothing: the second
    [AddTable] returns, and every schema, every table and every field is
    what the first one left. *)
Theorem AddTable_twice (st st1 : store) (m : sptr) (t : tptr) :
  AddTable st m t = Some st1 →
  ∃ st2, AddTable st1 m t = Some st2
         ∧ (∀ p, sch st2 p = sch st1 p)
         ∧ (∀ q, tbl st2 q = tbl st1 q)
         ∧ fld st2 = fld st1.
Proof.
  intros H. destruct (AddTable_char _ _ _ _ H) as (Ht & Hq & Hf & Hruns).
  destruct (addTable_post _ _ _ _ H) as (Hfr & Hm & _).
  destruct (AddTable_frame _ _ _ _ H m) as (_ & Hconf & _).
  assert (Hname : Table_Name (tbl st1 t) = Table_Name (tbl st t)).
  { rewrite Ht. unfold added, configured.
    destruct (Conf (sch st m)) as [conf|]; simpl; [|reflexivity].
    destruct (0 <? Conf_PartitionCt conf); simpl; [reflexivity|].
    now destruct (Partition (tbl st t)). }
  destruct (addTable_configure_runs m t
              (upd_sch m (λ s, set_tableMap
                                 (<[Table_Name (tbl st1 t) := Some t]> (tableMap s)) s)
                 (upd_tbl t (set_tblID (Fnv.Sum64 (Table_Name (tbl st1 t)))) st1)))
    as [st2' E].
  { store_simpl. simpl. now rewrite Hconf. }
  destruct (AddTable_configured _ _ _ _ E) as (st2 & H2 & _).
  exists st2. split; [exact H2|].
  destruct (AddTable_char _ _ _ _ H2) as (Ht2 & Hq2 & Hf2 & _).
  destruct (addTable_post _ _ _ _ H2) as (Hfr2 & Hm2 & _).
  split; [|split; [|exact Hf2]].
  - intros p. destruct (decide (p = m)) as [->|Hne]; [|now apply Hfr2].
    rewrite Hm2. cbv zeta. rewrite Hname.
    assert (Hin : found_in (Table_Name (tbl st t)) (tableNames (sch st1 m)) = true).
    { apply found_in_true. rewrite Hm. cbv zeta.
      destruct (found_in _ _) eqn:Hfi; simpl.
      - now apply found_in_true in Hfi.
      - rewrite elem_of_sort_Strings, elem_of_app, list_elem_of_singleton. auto. }
    rewrite Hin.
    assert (Hl : tableMap (sch st1 m) !! Table_Name (tbl st t) = Some (Some t)).
    { rewrite Hm. cbv zeta. destruct (found_in _ _); simpl; apply lookup_insert_eq. }
    rewrite (insert_id _ _ _ Hl). unfold set_tableMap. apply Schema_eta.
  - intros q. destruct (decide (q = t)) as [->|Hne]; [|now apply Hq2].
    rewrite Ht2, Hconf, Ht. apply added_idem.
Qed.

End AddedTable.

(** ** Staleness of a table *)

(** X13.  A table that was never refreshed is not current, whatever the
    interval.  A table refreshed at an instant (other than the zero
    instant) is current, under the interval of the package, at every
    instant less than five minutes later, and at no instant from five
    minutes on. *)
Theorem staleness_window (t : Table) (refreshed now : GoTime.Time) :
  (∀ d, Table_lastRefreshed t = GoTime.zero → Table_Since now t d = false)
  ∧ (∀ name d, Table_Since now (NewTable name) d = false)
  ∧ (refreshed ≠ GoTime.zero →
     (Table_Current now SchemaRefreshInterval (Table_SetRefreshed refreshed t) = true
      ↔ now < refreshed + 5 * GoTime.Minute))
  ∧ (refreshed ≠ GoTime.zero → ∀ d,
     (Table_Since now (Table_SetRefreshed refreshed t) d = true
      ↔ now + d < refreshed)).
Proof.
  assert (Hs : ∀ x d, Table_Since now x d = true
                      ↔ Table_lastRefreshed x ≠ 0 ∧ now + d < Table_lastRefreshed x).
  { intros x d. unfold Table_Since. rewrite Since_true_iff.
    unfold GoTime.IsZero, GoTime.After, GoTime.Add.
    now rewrite Z.eqb_neq, Z.ltb_lt. }
  split; [|split; [|split]].
  - intros d Hz. apply not_true_is_false. rewrite Hs. intros [Hn _].
    now apply Hn.
  - intros name d. apply not_true_is_false. rewrite Hs. intros [Hn _].
    now apply Hn.
  - intros Hr. unfold Table_Current. rewrite Hs. simpl.
    unfold SchemaRefreshInterval, GoTime.Minute, GoTime.Second, GoTime.Nanosecond.
    unfold GoTime.zero in Hr. split; [intros [_ ?]; lia|intros ?; split; [exact Hr|lia]].
  - intros Hr d. rewrite Hs. simpl. unfold GoTime.zero in Hr. tauto.
Qed.

(** ** What the structural operations leave alone *)

Section Growth.

Lemma grows_refl st : grows st st.
Proof. intros p. repeat split; auto. Qed.

Lemma grows_trans st1 st2 st3 : grows st1 st2 → grows st2 st3 → grows st1 st3.
Proof.
  intros H1 H2 p.
  destruct (H1 p) as (A1 & A2 & A3 & A4 & A5 & A6 & A7 & A8).
  destruct (H2 p) as (B1 & B2 & B3 & B4 & B5 & B6 & B7 & B8).
  repeat split; try congruence; try (etrans; eassumption). auto.
Qed.

Lemma keeps_refl st : keeps st st.
Proof. split; [intros p; repeat split; eauto|auto]. Qed.

Lemma keeps_trans st1 st2 st3 : keeps st1 st2 → keeps st2 st3 → keeps st1 st3.
Proof.
  intros [H1 N1] [H2 N2]. split; [|intros q; now rewrite N2].
  intros p. destruct (H1 p) as (A1 & A2 & A3). destruct (H2 p) as (B1 & B2 & B3).
  repeat split; try congruence.
  intros k x Hk. destruct (A3 _ _ Hk) as [y Hy]. eauto.
Qed.

Lemma loadTable_partitions_names n t pts :
  ∀ st st', loadTable_partitions n t pts st = Some st' →
            ∀ q, Table_Name (tbl st' q) = Table_Name (tbl st q).
Proof.
  induction pts as [|[tp|] pts IH]; intros st st' H q; simpl in H.
  - now injection H as <-.
  - rewrite (IH _ _ H). case_bool_decide; [|reflexivity].
    destruct (decide (t = q)) as [->|Hne]; now store_simpl.
  - discriminate.
Qed.

Lemma loadTable_names st m n st' e :
  loadTable st m n = Some (st', e) →
  ∀ q, Table_Name (tbl st' q) = Table_Name (tbl st q).
Proof.
  unfold loadTable. intros H q.
  destruct (DS (sch st m)) as [ds|]; [|discriminate].
  destruct (src_Table ds n) as [[t|] [err|]];
    try (injection H as <- <-; reflexivity).
  match type of H with (?x ≫= _) = _ => destruct x as [st1|] eqn:E end;
    [|discriminate].
  simpl in H. injection H as <- <-. simpl.
  assert (Hn : Table_Name (tbl st1 q)
               = Table_Name (tbl (upd_tbl t (set_Table_Schema (Some m)) st) q)).
  { destruct (Conf _); [now apply (loadTable_partitions_names _ _ _ _ _ E)|].
    now injection E as <-. }
  rewrite Hn. destruct (decide (t = q)) as [->|Hne]; now store_simpl.
Qed.

Lemma addschema_table_names st m n ss st' :
  addschemaForTableUnlocked st m n ss = Some st' →
  ∀ q, Table_Name (tbl st' q) = Table_Name (tbl st q).
Proof.
  unfold addschemaForTableUnlocked. intros H q.
  destruct (found_in n (tableNames (sch st m))); [now injection H as <-|].
  set (st1 := upd_sch m (λ s, set_tableNames (sort_Strings (tableNames s ++ [n])) s) st)
    in H.
  assert (H1 : tbl st1 q = tbl st q) by reflexivity.
  match type of H with (?x ≫= _) = _ => destruct x as [[st2 t2]|] eqn:E end;
    [|discriminate].
  cbn [mbind option_bind] in H.
  assert (Hn : Table_Name (tbl st2 q) = Table_Name (tbl st q)).
  { rewrite <- H1.
    destruct (map_get (tableMap (sch st1 ss)) n); [now injection E as <- <-|].
    destruct (loadTable st1 m n) as [[st3 e]|] eqn:El; [|discriminate].
    cbn [mbind option_bind] in E. rewrite <- (loadTable_names _ _ _ _ _ El q).
    destruct e; now injection E as <- <-. }
  destruct (map_has _ _); injection H as <-; exact Hn.
Qed.

Lemma maybe_loaded_frame m s s' :
  maybe_loaded m s s' →
  Schema_Name s' = Schema_Name s ∧ parent s' = parent s
  ∧ Schema_lastRefreshed s' = Schema_lastRefreshed s
  ∧ dom (tableSchemas s) ⊆ dom (tableSchemas s').
Proof.
  intros [->|(name & t & ->)]; [auto|].
  unfold loaded. simpl. rewrite dom_insert_L. repeat split. set_solver.
Qed.

Lemma addschema_grows_keeps st m n ss st' :
  addschemaForTableUnlocked st m n ss = Some st' → grows st st' ∧ keeps st st'.
Proof.
  intros H. destruct (addschema_post _ _ _ _ _ H) as [Hfr Hm].
  pose proof (addschema_table_names _ _ _ _ _ H) as Hnames.
  assert (Hp : ∀ p, p ≠ m → sch st' p = sch st p) by exact Hfr.
  destruct Hm as [[_ E]|(Hn & s2 & Hl & Hcase)].
  { assert (Hall : ∀ p, sch st' p = sch st p).
    { intros p. destruct (decide (p = m)) as [->|?]; auto. }
    split; [intros p|split; [intros p|exact Hnames]]; rewrite Hall;
      repeat split; eauto. }
  destruct (maybe_loaded_facts _ _ _ Hl) as (L1 & L2 & L3 & L4 & L5 & _ & L7).
  destruct (maybe_loaded_frame _ _ _ Hl) as (L8 & L9 & L10 & L11).
  simpl in L1, L2, L3, L4, L5, L7, L8, L9, L10, L11.
  assert (Hin : ∀ x, x ∈ tableNames (sch st m) → x ∈ tableNames s2).
  { intros x Hx. rewrite L1, elem_of_sort_Strings, elem_of_app. auto. }
  assert (Hnn : ∀ k x, tableMap (sch st m) !! k = Some (Some x) →
                       ∃ y, tableMap s2 !! k = Some (Some y)).
  { intros k x Hk. destruct (L7 k) as [->|?]; eauto. }
  split.
  - intros p. destruct (decide (p = m)) as [->|Hne];
      [|rewrite Hp by auto; repeat split; auto].
    destruct Hcase as [[_ ->]|(Hd & t & -> & _)]; simpl;
      rewrite ?dom_insert_L, ?L2, ?L3, ?L4, ?L8, ?L10;
      repeat split; auto; set_solver.
  - split; [|exact Hnames]. intros p.
    destruct (decide (p = m)) as [->|Hne];
      [|rewrite Hp by auto; repeat split; eauto].
    destruct Hcase as [[_ ->]|(Hd & t & -> & _)]; simpl;
      rewrite ?L4, ?L9; repeat split; auto.
    intros k x Hk. destruct (Hnn _ _ Hk) as [y Hy].
    rewrite lookup_insert_ne; [eauto|]. intros <-. apply Hd.
    apply elem_of_dom. eauto.
Qed.

Lemma AddTable_grows st m t st' :
  AddTable st m t = Some st' →
  grows st st'
  ∧ ∀ p, schemas (sch st' p) = schemas (sch st p)
         ∧ parent (sch st' p) = parent (sch st p)
         ∧ ∀ k x, tableMap (sch st p) !! k = Some (Some x) →
                  ∃ y, tableMap (sch st' p) !! k = Some (Some y).
Proof.
  intros H. destruct (addTable_post _ _ _ _ H) as (Hfr & Hm & _).
  cbv zeta in Hm. split; intros p.
  - destruct (decide (p = m)) as [->|Hne];
      [|rewrite Hfr by auto; repeat split; auto].
    rewrite Hm. destruct (found_in _ _); simpl; rewrite dom_insert_L;
      repeat split; auto; try set_solver.
    intros x Hx. rewrite elem_of_sort_Strings, elem_of_app. auto.
  - destruct (decide (p = m)) as [->|Hne];
      [|rewrite Hfr by auto; repeat split; eauto].
    rewrite Hm.
    assert (Hk : ∀ k x, tableMap (sch st m) !! k = Some (Some x) →
               ∃ y, <[Table_Name (tbl st t) := Some t]> (tableMap (sch st m)) !! k
                    = Some (Some y)).
    { intros k x Hk. rewrite lookup_insert. case_decide; eauto. }
    destruct (found_in _ _); simpl; repeat split; auto.
Qed.

Lemma addChildSchema_grows st m child st' :
  addChildSchema st m child = Some st' → grows st st'.
Proof.
  intros H p. destruct (addChildSchema_post _ _ _ _ H) as (Hne & A1 & A2 & A3 & _).
  destruct (decide (p = m)) as [->|Hpm].
  - rewrite A3. unfold attached. simpl.
    rewrite !dom_union_L, dom_insert_L. repeat split; auto; set_solver.
  - destruct (decide (p = child)) as [->|Hpc];
      [rewrite A2|rewrite A1 by auto]; repeat split; auto.
Qed.

Variable range_order : gmap string (option sptr) → list (string * option sptr).

Lemma refresh_grows_keeps fuel :
  ∀ st m st', refreshSchemaUnlocked range_order fuel st m = Some st' →
              grows st st' ∧ keeps st st'.
Proof.
  induction fuel as [|fuel IH]; intros st m st' H; simpl in H; [discriminate|].
  destruct (DS (sch st m)) as [ds|]; [|discriminate].
  cbn [mbind option_bind] in H.
  match type of H with (?x ≫= _) = _ => destruct x as [st1|] eqn:E1 end;
    [|discriminate].
  cbn [mbind option_bind] in H.
  set (I := λ s, grows st s ∧ keeps st s).
  assert (Hstep : ∀ s n ss s', I s → addschemaForTableUnlocked s m n ss = Some s' →
                               I s').
  { intros s n ss s' [G K] Hs. destruct (addschema_grows_keeps _ _ _ _ _ Hs).
    split; [eapply grows_trans|eapply keeps_trans]; eassumption. }
  assert (H1 : I st1).
  { revert E1. apply forM_inv; [|split; [apply grows_refl|apply keeps_refl]].
    intros s x s' _. apply Hstep. }
  revert H. apply (forM_inv I); [|exact H1].
  intros s [k [ss|]] s' _ Hs Hst; [|discriminate].
  cbn [mbind option_bind] in Hst.
  destruct (refreshSchemaUnlocked range_order fuel s ss) as [s1|] eqn:Er;
    [|discriminate].
  cbn [mbind option_bind] in Hst.
  revert Hst. apply (forM_inv I).
  - intros s2 x s3 _. apply Hstep.
  - destruct (IH _ _ _ Er) as [G K]. destruct Hs as [G0 K0].
    split; [eapply grows_trans|eapply keeps_trans]; eassumption.
Qed.

Lemma run_ops_grows fuel ops :
  ∀ st st', run_ops range_order fuel ops st = Some st' → grows st st'.
Proof.
  intros st st'. unfold run_ops.
  apply (forM_inv (λ s, grows st s)); [|apply grows_refl].
  intros s [m t|m child|m] s' _ Hs Hstep; simpl in Hstep;
    (eapply grows_trans; [exact Hs|]).
  - now apply (AddTable_grows _ _ _ _ Hstep).
  - now apply (addChildSchema_grows _ _ _ _ Hstep).
  - now apply (refresh_grows_keeps _ _ _ _ Hstep).
Qed.

(** X14.  No sequence of [AddTable], [addChildSchema] and
    [refreshSchemaUnlocked] ever drops anything: in every schema, a name
    of the name list stays in the list, a key of the table map, of the
    owner map or of the child map stays a key, and the name, the source
    and the configuration of the schema are what they were. *)
Theorem catalog_only_grows (fuel : nat) (ops : list op) (st st' : store) :
  run_ops range_order fuel ops st = Some st' →
  ∀ p, (∀ n, n ∈ Schema_Tables (sch st p) → n ∈ Schema_Tables (sch st' p))
       ∧ dom (tableMap (sch st p)) ⊆ dom (tableMap (sch st' p))
       ∧ dom (tableSchemas (sch st p)) ⊆ dom (tableSchemas (sch st' p))
       ∧ dom (schemas (sch st p)) ⊆ dom (schemas (sch st' p))
       ∧ Schema_Name (sch st' p) = Schema_Name (sch st p)
       ∧ DS (sch st' p) = DS (sch st p)
       ∧ Conf (sch st' p) = Conf (sch st p).
Proof.
  intros H p.
  destruct (run_ops_grows _ _ _ _ H p) as (A1 & A2 & A3 & A4 & A5 & A6 & A7 & A8).
  repeat split; auto.
Qed.

(** X15.  None of the three operations writes the refresh time of a
    schema: after any sequence of them a schema that was never refreshed,
    as every schema [NewSchemaSource] builds, is not current, at any
    instant and for any interval. *)
Theorem schema_never_current (fuel : nat) (ops : list op) (st st' : store)
    (p : sptr) :
  run_ops range_order fuel ops st = Some st' →
  Schema_lastRefreshed (sch st p) = GoTime.zero →
  Schema_lastRefreshed (sch st' p) = GoTime.zero
  ∧ (∀ now d, Schema_Since now (sch st' p) d = false)
  ∧ (∀ now interval, Schema_Current now interval (sch st' p) = false)
  ∧ (∀ name ds, Schema_lastRefreshed (NewSchemaSource name ds) = GoTime.zero).
Proof.
  intros H Hz. destruct (run_ops_grows _ _ _ _ H p) as (_ & _ & _ & A4 & _).
  rewrite Hz in A4.
  assert (Hs : ∀ now d, Schema_Since now (sch st' p) d = false).
  { intros now d. unfold Schema_Since. now rewrite A4. }
  repeat split; auto.
Qed.

Section KeepsTables.

Variable LeftRight : string → string * string * bool.

Lemma Table_kept (s s' : Schema) T t :
  (∀ k x, tableMap s !! k = Some (Some x) → ∃ y, tableMap s' !! k = Some (Some y)) →
  Schema_Table LeftRight s T = Ok t →
  ∃ t', Schema_Table LeftRight s' T = Ok t'.
Proof.
  intros Hk. unfold Schema_Table.
  destruct (tableMap s !! ToLower T) as [[x|]|] eqn:E1.
  { destruct (Hk _ _ E1) as [y ->]. eauto. }
  all: destruct (LeftRight (ToLower T)) as [[l r] ok]; destruct ok;
    try discriminate;
    destruct (tableMap s !! r) as [[x|]|] eqn:E2; try discriminate;
    intros _; destruct (Hk _ _ E2) as [y Hy];
    destruct (tableMap s' !! ToLower T) as [[z|]|]; eauto;
    rewrite Hy; eauto.
Qed.

(** X16.  A refresh and an [AddTable] keep every table resolvable: a
    name for which [Table] returned a table before still gets one after
    (not always the same one), in every schema; and neither touches the
    children or the parent of any schema. *)
Theorem tables_stay_resolvable (st st' : store) :
  (∃ fuel m, refreshSchemaUnlocked range_order fuel st m = Some st')
  ∨ (∃ m t, AddTable st m t = Some st') →
  ∀ p, (∀ T t, Schema_Table LeftRight (sch st p) T = Ok t →
               ∃ t', Schema_Table LeftRight (sch st' p) T = Ok t')
       ∧ schemas (sch st' p) = schemas (sch st p)
       ∧ parent (sch st' p) = parent (sch st p).
Proof.
  intros H p.
  assert (K : schemas (sch st' p) = schemas (sch st p)
              ∧ parent (sch st' p) = parent (sch st p)
              ∧ ∀ k x, tableMap (sch st p) !! k = Some (Some x) →
                       ∃ y, tableMap (sch st' p) !! k = Some (Some y)).
  { destruct H as [(fuel & m & H)|(m & t & H)].
    - destruct (refresh_grows_keeps _ _ _ _ H) as [_ [K _]]. apply K.
    - destruct (AddTable_grows _ _ _ _ H) as [_ K]. apply K. }
  destruct K as (K1 & K2 & K3). split; [|auto].
  intros T t. now apply Table_kept.
Qed.

End KeepsTables.

End Growth.

(** ** Refreshing a tree of schemas *)

Section RefreshTree.

Variable range_order : gmap string (option sptr) → list (string * option sptr).
Hypothesis range_order_perm : ∀ m, range_order m ≡ₚ map_to_list m.

Lemma forM_at {A} (R : store → store → Prop) (step : store → A → option store)
    l x :
  (∀ s, R s s) → (∀ s1 s2 s3, R s1 s2 → R s2 s3 → R s1 s3) →
  (∀ s y s', step s y = Some s' → R s s') →
  x ∈ l →
  ∀ st st', forM step l st = Some st' →
            ∃ s s', R st s ∧ step s x = Some s' ∧ R s' st'.
Proof.
  intros Hrefl Htrans Hstep. induction l as [|y l IH]; intros Hx st st' H.
  { inversion Hx. }
  simpl in H. destruct (step st y) as [st1|] eqn:E; [|discriminate].
  cbn [mbind option_bind] in H.
  apply elem_of_cons in Hx as [->|Hx].
  - exists st, st1. repeat split; auto.
    revert H. apply (forM_inv (λ s, R st1 s)); [|auto].
    intros s z s' _ Hs Hz. eapply Htrans; [exact Hs|eauto].
  - destruct (IH Hx _ _ H) as (s & s' & H1 & H2 & H3).
    exists s, s'. repeat split; auto. eapply Htrans; [|exact H1]. eauto.
Qed.

Lemma forM_None {A} (I : store → Prop) (step : store → A → option store) l x :
  (∀ s y s', I s → step s y = Some s' → I s') →
  (∀ s, I s → step s x = None) →
  x ∈ l → ∀ st, I st → forM step l st = None.
Proof.
  intros Hstep Hx. induction l as [|y l IH]; intros Hin st HI.
  { inversion Hin. }
  simpl. destruct (step st y) as [st1|] eqn:E; [|reflexivity].
  cbn [mbind option_bind].
  apply elem_of_cons in Hin as [->|Hin].
  - rewrite Hx in E by auto. discriminate.
  - apply IH; eauto.
Qed.

Lemma settles_refl st : settles st st.
Proof. split; [apply grows_refl|apply keeps_refl]. Qed.

Lemma settles_trans s1 s2 s3 : settles s1 s2 → settles s2 s3 → settles s1 s3.
Proof.
  intros [G1 K1] [G2 K2].
  split; [eapply grows_trans|eapply keeps_trans]; eassumption.
Qed.

Lemma forM_addschema_settles m ss l :
  ∀ st st', forM (λ st n, addschemaForTableUnlocked st m n ss) l st = Some st' →
            settles st st'.
Proof.
  intros st st'. apply (forM_inv (λ s, settles st s)); [|apply settles_refl].
  intros s x s' _ Hs Hx. eapply settles_trans; [exact Hs|].
  now apply addschema_grows_keeps in Hx.
Qed.

Lemma child_step_settles fuel m s (kc : string * option sptr) s' :
  (let '(_, child) := kc in
   ss ← child;
   st ← refreshSchemaUnlocked range_order fuel s ss;
   forM (λ st tableName, addschemaForTableUnlocked st m tableName ss)
        (Schema_Tables (sch st ss)) st) = Some s' →
  settles s s'.
Proof.
  destruct kc as [k [ss|]]; [|discriminate]. cbn [mbind option_bind].
  destruct (refreshSchemaUnlocked range_order fuel s ss) as [s1|] eqn:Er;
    [|discriminate].
  cbn [mbind option_bind]. intros H.
  eapply settles_trans; [|exact (forM_addschema_settles _ _ _ _ _ H)].
  now apply refresh_grows_keeps in Er.
Qed.

Lemma child_of_settles st s m c : settles st s → child_of st m c ↔ child_of s m c.
Proof.
  intros [_ [K _]]. destruct (K m) as (E & _). unfold child_of. now rewrite E.
Qed.

Lemma visible_settles st s m n : settles st s → visible st m n → visible s m n.
Proof.
  intros Hs H. induction H as [m n H|m ds n Hds H|m c n Hc _ IH].
  - apply visible_name. destruct Hs as [G _].
    destruct (G m) as (_ & _ & _ & _ & _ & Hn & _). auto.
  - apply visible_listed with ds; [|exact H]. destruct Hs as [G _].
    destruct (G m) as (_ & -> & _). exact Hds.
  - apply visible_child with c; [|exact IH]. now apply (child_of_settles st s).
Qed.

Lemma child_listed st m c :
  child_of st m c → ∃ name, (name, Some c) ∈ range_order (schemas (sch st m)).
Proof.
  intros [name H]. exists name. rewrite range_order_perm.
  now apply elem_of_map_to_list.
Qed.

Lemma refresh_visible fuel :
  ∀ st m st', refreshSchemaUnlocked range_order fuel st m = Some st' →
              ∀ n, visible st m n → n ∈ tableNames (sch st' m).
Proof.
  induction fuel as [|fuel IH]; intros st m st' H n Hv; [discriminate|].
  simpl in H. destruct (DS (sch st m)) as [ds|] eqn:Hds; [|discriminate].
  cbn [mbind option_bind] in H.
  match type of H with (?x ≫= _) = _ => destruct x as [st1|] eqn:E1 end;
    [|discriminate].
  cbn [mbind option_bind] in H.
  pose proof (forM_addschema_settles _ _ _ _ _ E1) as S1.
  destruct (forM_names _ _ _ _ _ E1) as [Hmono Hl].
  assert (S2 : settles st1 st').
  { revert H. apply (forM_inv (λ s, settles st1 s)); [|apply settles_refl].
    intros s x s' _ Hs Hx. eapply settles_trans; [exact Hs|].
    eapply child_step_settles. exact Hx. }
  assert (Hup : ∀ x, x ∈ tableNames (sch st1 m) → x ∈ tableNames (sch st' m)).
  { destruct S2 as [G _]. destruct (G m) as (_ & _ & _ & _ & _ & Hn & _). exact Hn. }
  inversion Hv as [m0 n0 Hin|m0 ds0 n0 Hds0 Hin|m0 c n0 Hc Hvc]; subst.
  - auto.
  - apply Hup, Hl. congruence.
  - apply (child_of_settles _ _ _ _ S1) in Hc.
    destruct (child_listed _ _ _ Hc) as [name Hname].
    destruct (forM_at settles _ _ _ settles_refl settles_trans
                (λ s y s', child_step_settles fuel m s y s') Hname _ _ H)
      as (s & s' & Hs & Hstep & Hs').
    cbn [mbind option_bind] in Hstep.
    destruct (refreshSchemaUnlocked range_order fuel s c) as [s1|] eqn:Er;
      [|discriminate].
    cbn [mbind option_bind] in Hstep.
    assert (Hvs : visible s c n).
    { eapply visible_settles; [|exact Hvc]. eapply settles_trans; eassumption. }
    pose proof (IH _ _ _ Er _ Hvs) as Hin.
    destruct (forM_names _ _ _ _ _ Hstep) as [_ Hl'].
    destruct Hs' as [G _]. destruct (G m) as (_ & _ & _ & _ & _ & Hn & _).
    apply Hn, Hl'. exact Hin.
Qed.

(** X17.  A refresh that returns flattens the tree below the schema into
    its name list: every name the schema's source lists, every name a
    child, grandchild, ... had in its list or has in its source's list,
    is in the name list of the schema afterwards. *)
Theorem refresh_flattens (fuel : nat) (st st' : store) (m : sptr) (n : string) :
  refreshSchemaUnlocked range_order fuel st m = Some st' →
  visible st m n →
  n ∈ Schema_Tables (sch st' m).
Proof. intros H Hv. exact (refresh_visible _ _ _ _ H _ Hv). Qed.

Lemma unrefreshable_settles st s m :
  settles st s → unrefreshable st m → unrefreshable s m.
Proof.
  intros Hs H. induction H as [m H|m name H|m c Hc _ IH|m H].
  - apply unrefreshable_source. destruct Hs as [G _].
    destruct (G m) as (_ & -> & _). exact H.
  - apply unrefreshable_nil with name. destruct Hs as [_ [K _]].
    destruct (K m) as (-> & _). exact H.
  - apply unrefreshable_child with c; [|exact IH].
    now apply (child_of_settles st s).
  - apply unrefreshable_cycle.
    apply (tc_congruence (λ x, x) (child_of s)) in H; [exact H|].
    intros a b Hab. now apply (child_of_settles st s).
Qed.

Lemma refresh_unrefreshable fuel :
  ∀ st m, unrefreshable st m → refreshSchemaUnlocked range_order fuel st m = None.
Proof.
  induction fuel as [|fuel IH]; intros st m Hu; [reflexivity|].
  simpl. destruct (DS (sch st m)) as [ds|] eqn:Hds; [|reflexivity].
  cbn [mbind option_bind].
  match goal with |- (?x ≫= _) = _ => destruct x as [st1|] eqn:E1 end;
    [|reflexivity].
  cbn [mbind option_bind].
  pose proof (forM_addschema_settles _ _ _ _ _ E1) as S1.
  assert (Hchild : ∀ c, child_of st m c → unrefreshable st c →
            forM (λ st '(_, child),
                    ss ← child;
                    st ← refreshSchemaUnlocked range_order fuel st ss;
                    forM (λ st tableName,
                            addschemaForTableUnlocked st m tableName ss)
                         (Schema_Tables (sch st ss)) st)
                 (range_order (schemas (sch st1 m))) st1 = None).
  { intros c Hc Huc. apply (child_of_settles _ _ _ _ S1) in Hc.
    destruct (child_listed _ _ _ Hc) as [name Hname].
    apply (forM_None (λ s, settles st s)) with (x := (name, Some c)); auto.
    - intros s y s' Hs Hy. eapply settles_trans; [exact Hs|].
      eapply child_step_settles. exact Hy.
    - intros s Hs. cbn [mbind option_bind].
      rewrite (IH s c); [reflexivity|]. now apply (unrefreshable_settles st). }
  inversion Hu as [m0 H|m0 name H|m0 c Hc Huc|m0 H]; subst.
  - congruence.
  - assert (Hname : (name, None) ∈ range_order (schemas (sch st1 m))).
    { rewrite range_order_perm. apply elem_of_map_to_list.
      destruct S1 as [_ [K _]]. destruct (K m) as (-> & _). exact H. }
    apply (forM_None (λ _, True)) with (x := (name, None)); auto.
  - now apply Hchild with c.
  - inversion H as [x y Hxy|x y z Hxy Hyz]; subst.
    + apply Hchild with m; [exact Hxy|]. now apply unrefreshable_cycle.
    + apply Hchild with y; [exact Hxy|]. apply unrefreshable_cycle.
      eapply tc_r; eassumption.
Qed.

(** X18.  A refresh does not return, whatever the recursion depth
    allowed, when the schema or one of its descendants has no source or a
    nil child, or when the schema is its own descendant. *)
Theorem refresh_needs_sources (st : store) (m : sptr) :
  unrefreshable st m →
  ∀ fuel, refreshSchemaUnlocked range_order fuel st m = None.
Proof. intros H fuel. now apply refresh_unrefreshable. Qed.

End RefreshTree.

(** ** Loading a table from the source *)

Section Loading.

Lemma loadTable_partitions_spec n t pts :
  ∀ st st', loadTable_partitions n t pts st = Some st' →
    (∀ p, sch st' p = sch st p)
    ∧ (∀ q, q ≠ t → tbl st' q = tbl st q)
    ∧ Table_Name (tbl st' t) = Table_Name (tbl st t)
    ∧ Table_Schema (tbl st' t) = Table_Schema (tbl st t)
    ∧ (no_descriptor n pts → Partition (tbl st' t) = Partition (tbl st t))
    ∧ (∀ l1 tp l2, pts = (l1 ++ Some tp :: l2)%list → pt_Table tp = n →
                   no_descriptor n l2 → Partition (tbl st' t) = Some tp).
Proof.
  induction pts as [|[tp|] pts IH]; intros st st' H; simpl in H;
    [|..|discriminate].
  - injection H as <-. repeat split; auto.
    intros [|? ?] ? ? E; discriminate E.
  - destruct (IH _ _ H) as (A1 & A2 & A3 & A4 & A5 & A6). clear IH H.
    set (s1 := if bool_decide (pt_Table tp = n)
               then upd_tbl t (set_Partition (Some tp)) st else st) in *.
    assert (B1 : ∀ p, sch s1 p = sch st p)
      by (intros p; unfold s1; now case_bool_decide).
    assert (B2 : ∀ q, q ≠ t → tbl s1 q = tbl st q).
    { intros q Hq. unfold s1. case_bool_decide; [|reflexivity]. now store_simpl. }
    assert (B3 : Table_Name (tbl s1 t) = Table_Name (tbl st t)
                 ∧ Table_Schema (tbl s1 t) = Table_Schema (tbl st t)).
    { unfold s1. case_bool_decide; [|auto]. now store_simpl. }
    destruct B3 as [B3 B4].
    split; [intros p; now rewrite A1|]. split; [intros q Hq; now rewrite A2, B2|].
    split; [congruence|]. split; [congruence|]. split.
    + intros Hno. apply Forall_cons in Hno as [Hx Hno]. rewrite (A5 Hno).
      unfold s1. case_bool_decide as Hd; [|reflexivity].
      now destruct (Hx tp eq_refl).
    + intros [|x l1] tp' l2 E Hm Hno; simpl in E; injection E as E1 E2.
      * subst. rewrite (A5 Hno). unfold s1. rewrite bool_decide_eq_true_2 by auto.
        now store_simpl.
      * subst. now apply (A6 l1 tp' l2).
Qed.

Lemma loadTable_found st m n ds t st' e :
  DS (sch st m) = Some ds → src_Table ds n = (Some t, None) →
  loadTable st m n = Some (st', e) →
  e = None
  ∧ (∀ p, p ≠ m → sch st' p = sch st p)
  ∧ tableMap (sch st' m) !! Table_Name (tbl st t) = Some (Some t)
  ∧ tableSchemas (sch st' m) !! Table_Name (tbl st t) = Some (Some m)
  ∧ tableNames (sch st' m) = tableNames (sch st m)
  ∧ Table_Schema (tbl st' t) = Some m
  ∧ (∀ q, q ≠ t → tbl st' q = tbl st q)
  ∧ (∀ conf, Conf (sch st m) = Some conf → no_descriptor n (Partitions conf) →
             Partition (tbl st' t) = Partition (tbl st t))
  ∧ (Conf (sch st m) = None → Partition (tbl st' t) = Partition (tbl st t))
  ∧ (∀ conf l1 tp l2, Conf (sch st m) = Some conf →
                      Partitions conf = (l1 ++ Some tp :: l2)%list →
                      pt_Table tp = n → no_descriptor n l2 →
                      Partition (tbl st' t) = Some tp).
Proof.
  unfold loadTable. intros Hds Hsrc H. rewrite Hds, Hsrc in H.
  set (s0 := upd_tbl t (set_Table_Schema (Some m)) st) in H.
  assert (Z1 : ∀ p, sch s0 p = sch st p) by reflexivity.
  assert (Z2 : tbl s0 t = set_Table_Schema (Some m) (tbl st t))
    by (unfold s0; now store_simpl).
  assert (Z3 : ∀ q, q ≠ t → tbl s0 q = tbl st q)
    by (intros q Hq; unfold s0; now store_simpl).
  match type of H with (?x ≫= _) = _ => destruct x as [s1|] eqn:E end;
    [|discriminate].
  cbn [mbind option_bind] in H. injection H as <- <-.
  assert (Hs1 : (∀ p, sch s1 p = sch st p)
    ∧ (∀ q, q ≠ t → tbl s1 q = tbl st q)
    ∧ Table_Name (tbl s1 t) = Table_Name (tbl st t)
    ∧ Table_Schema (tbl s1 t) = Some m
    ∧ (∀ conf, Conf (sch st m) = Some conf → no_descriptor n (Partitions conf) →
               Partition (tbl s1 t) = Partition (tbl st t))
    ∧ (Conf (sch st m) = None → Partition (tbl s1 t) = Partition (tbl st t))
    ∧ (∀ conf l1 tp l2, Conf (sch st m) = Some conf →
                        Partitions conf = (l1 ++ Some tp :: l2)%list →
                        pt_Table tp = n → no_descriptor n l2 →
                        Partition (tbl s1 t) = Some tp)).
  { rewrite Z1 in E. destruct (Conf (sch st m)) as [conf|].
    - destruct (loadTable_partitions_spec _ _ _ _ _ E)
        as (A1 & A2 & A3 & A4 & A5 & A6).
      rewrite Z2 in A3, A4, A5. simpl in A3, A4, A5.
      split; [intros p; now rewrite A1|].
      split; [intros q Hq; now rewrite A2, Z3|].
      split; [exact A3|]. split; [exact A4|].
      split; [intros c [= <-]; exact A5|]. split; [discriminate|].
      intros c l1 tp l2 [= <-]. apply A6.
    - injection E as <-. rewrite Z2. simpl. repeat split; auto; discriminate. }
  destruct Hs1 as (A1 & A2 & A3 & A4 & A5 & A6 & A7).
  split; [reflexivity|]. rewrite A3. simpl. split.
  { intros p Hp. store_simpl. apply A1. }
  store_simpl. simpl. rewrite !lookup_insert_eq, A1.
  repeat split; auto.
Qed.

(** X19.  [loadTable] has three outcomes.  An error of the source is
    returned as it is and a source that knows no such table gives
    [ErrNotFound], the schema untouched in both cases.  A table the
    source describes is stored under its own name with this schema as
    owner and as its [Schema], other schemas untouched, the name list is
    left as it was, and the table gets the last descriptor the
    configuration has for the name asked, whatever descriptor it
    carried; without one it keeps its own. *)
Theorem loadTable_outcomes (st : store) (m : sptr) (n : string) (ds : Source) :
  DS (sch st m) = Some ds →
  conf_ok (sch st m) →
  match src_Table ds n with
  | (_, Some err) => loadTable st m n = Some (st, Some err)
  | (None, None) => loadTable st m n = Some (st, Some ErrNotFound)
  | (Some t, None) =>
      ∃ st', loadTable st m n = Some (st', None)
        ∧ (∀ p, p ≠ m → sch st' p = sch st p)
        ∧ tableMap (sch st' m) !! Table_Name (tbl st t) = Some (Some t)
        ∧ tableSchemas (sch st' m) !! Table_Name (tbl st t) = Some (Some m)
        ∧ Schema_Tables (sch st' m) = Schema_Tables (sch st m)
        ∧ Table_Schema (tbl st' t) = Some m
        ∧ (∀ conf, Conf (sch st m) = Some conf →
                   no_descriptor n (Partitions conf) →
                   Partition (tbl st' t) = Partition (tbl st t))
        ∧ (∀ conf l1 tp l2, Conf (sch st m) = Some conf →
                            Partitions conf = (l1 ++ Some tp :: l2)%list →
                            pt_Table tp = n → no_descriptor n l2 →
                            Partition (tbl st' t) = Some tp)
  end.
Proof.
  intros Hds Hc.
  destruct (src_Table ds n) as [[t|] [err|]] eqn:Hsrc;
    try (unfold loadTable; now rewrite Hds, Hsrc).
  destruct (loadTable_total st m n) as [[st' e] H]; [eauto|exact Hc|].
  destruct (loadTable_found _ _ _ _ _ _ _ Hds Hsrc H)
    as (-> & A1 & A2 & A3 & A4 & A5 & _ & A7 & _ & A9).
  exists st'. repeat split; auto.
Qed.

Variable range_order : gmap string (option sptr) → list (string * option sptr).

Lemma addschema_loads st m n ds t st' :
  DS (sch st m) = Some ds → src_Table ds n = (Some t, None) →
  Table_Name (tbl st t) = n →
  n ∉ tableNames (sch st m) →
  addschemaForTableUnlocked st m n m = Some st' →
  ∃ x, tableMap (sch st' m) !! n = Some (Some x).
Proof.
  intros Hds Hsrc Hname Hnot. unfold addschemaForTableUnlocked.
  apply found_in_false in Hnot. rewrite Hnot.
  set (st1 := upd_sch m (λ s, set_tableNames (sort_Strings (tableNames s ++ [n])) s) st).
  assert (H1 : sch st1 m = named n (sch st m)) by apply sch_upd_sch_eq.
  assert (H2 : tbl st1 t = tbl st t) by reflexivity.
  intros H.
  match type of H with (?x ≫= _) = _ => destruct x as [[st2 t2]|] eqn:E end;
    [|discriminate].
  cbn [mbind option_bind] in H.
  assert (Hx : ∃ x, tableMap (sch st2 m) !! n = Some (Some x)).
  { destruct (map_get (tableMap (sch st1 m)) n) as [x|] eqn:Hg.
    - injection E as <- <-. exists x. unfold map_get in Hg.
      destruct (tableMap (sch st1 m) !! n) as [v|]; [now subst|discriminate].
    - destruct (loadTable st1 m n) as [[st3 e]|] eqn:El; [|discriminate].
      cbn [mbind option_bind] in E.
      assert (Hds1 : DS (sch st1 m) = Some ds) by (now rewrite H1).
      destruct (loadTable_found _ _ _ _ _ _ _ Hds1 Hsrc El) as (-> & _ & A & _).
      rewrite H2, Hname in A. injection E as <- <-. eauto. }
  destruct Hx as [x Hx].
  assert (Hh : map_has (tableMap (sch st2 m)) n = true).
  { apply map_has_true, elem_of_dom. eauto. }
  rewrite Hh in H. injection H as <-. eauto.
Qed.

Lemma listed_has_table_step st m n' st' ds t n :
  settles st st' →
  DS (sch st m) = Some ds → src_Table ds n = (Some t, None) →
  Table_Name (tbl st t) = n →
  addschemaForTableUnlocked st m n' m = Some st' →
  listed_has_table st m n → listed_has_table st' m n.
Proof.
  intros [_ [K _]] Hds Hsrc Hname H Hl Hin.
  destruct (K m) as (_ & _ & Hk).
  destruct (decide (n ∈ tableNames (sch st m))) as [Hold|Hnew].
  { destruct (Hl Hold) as [x Hx]. eauto. }
  apply (addschema_names _ _ _ _ _ H) in Hin as [?|[_ ->]]; [tauto|].
  now apply (addschema_loads _ _ _ _ _ _ Hds Hsrc Hname Hnew).
Qed.

Section WithLeftRight.

Variable LeftRight : string → string * string * bool.

(** X20.  After a refresh that returns, [Table] finds a table for every
    name the schema's own source lists and describes by a table of that
    name, provided that the name, if the schema listed it already, had a
    table. *)
Theorem refresh_loads (fuel : nat) (st st' : store) (m : sptr) (ds : Source)
    (n : string) (t : tptr) :
  refreshSchemaUnlocked range_order fuel st m = Some st' →
  DS (sch st m) = Some ds →
  n ∈ src_Tables ds →
  src_Table ds n = (Some t, None) →
  Table_Name (tbl st t) = n →
  listed_has_table st m n →
  n ∈ Schema_Tables (sch st' m)
  ∧ ∀ T, ToLower T = n → ∃ t', Schema_Table LeftRight (sch st' m) T = Ok t'.
Proof.
  intros H Hds Hin Hsrc Hname Hl.
  destruct fuel as [|fuel]; [discriminate|]. simpl in H. rewrite Hds in H.
  cbn [mbind option_bind] in H.
  match type of H with (?x ≫= _) = _ => destruct x as [st1|] eqn:E1 end;
    [|discriminate].
  cbn [mbind option_bind] in H.
  assert (H1 : settles st st1 ∧ listed_has_table st1 m n).
  { revert E1.
    apply (forM_inv (λ s, settles st s ∧ listed_has_table s m n));
      [|split; [apply settles_refl|exact Hl]].
    intros s x s' _ [Hs Hls] Hx.
    pose proof (addschema_grows_keeps _ _ _ _ _ Hx) as Hss.
    split; [eapply settles_trans; [exact Hs|exact Hss]|].
    destruct Hs as [G [_ Kn]]. destruct (G m) as (_ & Hd & _).
    eapply (listed_has_table_step s m x s' ds t n); auto.
    - now rewrite Hd.
    - now rewrite Kn. }
  destruct H1 as [S1 Hl1].
  destruct (forM_names _ _ _ _ _ E1) as [_ Hall].
  destruct (Hl1 (Hall _ Hin)) as [x Hx].
  assert (S2 : settles st1 st').
  { revert H. apply (forM_inv (λ s, settles st1 s)); [|apply settles_refl].
    intros s y s' _ Hs Hy. eapply settles_trans; [exact Hs|].
    eapply child_step_settles. exact Hy. }
  destruct S2 as [G [K _]]. destruct (K m) as (_ & _ & Hk).
  destruct (G m) as (_ & _ & _ & _ & _ & Hn & _).
  destruct (Hk _ _ Hx) as [y Hy].
  split; [apply Hn, Hall, Hin|].
  intros T HT. exists y. apply Table_hit. now rewrite HT.
Qed.

End WithLeftRight.

End Loading.

(** ** Building a table column by column *)

Section Building.

Variable UnknownType : ValueType.

Lemma AddFieldType_built m l st f name valType :
  columns_built m l st →
  f ∉ l.*1.*1 → name ∉ l.*1.*2 →
  columns_built m (l ++ [(f, name, valType)])%list
    (Table_AddFieldType st m f name valType).
Proof.
  intros [HF Hall] Hf Hname. unfold Table_AddFieldType.
  set (st0 := upd_fld f (λ _, Field_literal name valType) st).
  assert (H0 : fld st0 f = Field_literal name valType)
    by (unfold st0; simpl; now rewrite fn_lookup_insert).
  assert (H0' : ∀ p, p ≠ f → fld st0 p = fld st p)
    by (intros p Hp; unfold st0; simpl; now rewrite fn_lookup_insert_ne).
  assert (HT : tbl st0 = tbl st) by reflexivity.
  assert (Hscan : AddField_scan st0 (Field_Name (fld st0 f)) 0 (Fields (tbl st0 m))
                  = None).
  { apply AddField_scan_None. intros o Ho. rewrite HT, HF in Ho.
    apply list_elem_of_lookup in Ho as [i Hi].
    rewrite !list_lookup_fmap in Hi.
    destruct (l !! i) as [[[f' name'] ty']|] eqn:Hl; [|discriminate].
    simpl in Hi. injection Hi as <-.
    destruct (Hall _ _ _ _ Hl) as (_ & Hn & _).
    assert (Hne : f' ≠ f).
    { intros ->. apply Hf. apply list_elem_of_lookup. exists i.
      now rewrite !list_lookup_fmap, Hl. }
    rewrite H0' by auto. rewrite H0, Hn. simpl. intros ->. apply Hname.
    apply list_elem_of_lookup. exists i. now rewrite !list_lookup_fmap, Hl. }
  destruct (AddField_append _ _ _ Hscan) as (Hfld & HFs & HM).
  set (st1 := Table_AddField st0 m f) in *.
  rewrite HT in HFs, HM. rewrite H0 in HM, Hfld.
  change (Field_Name (Field_literal name valType)) with name in HM.
  assert (Hlen : length (Fields (tbl st m)) = length l)
    by (rewrite HF; now rewrite !length_fmap).
  split.
  - rewrite HFs, HF, !fmap_app. reflexivity.
  - intros i f' name' ty' Hi. rewrite Hfld, HM.
    apply lookup_app_Some in Hi as [Hi|[Hge Hi]].
    + destruct (Hall _ _ _ _ Hi) as (A1 & A2 & A3 & A4).
      assert (Hne : f' ≠ f).
      { intros ->. apply Hf. apply list_elem_of_lookup. exists i.
        now rewrite !list_lookup_fmap, Hi. }
      assert (Hnn : name' ≠ name).
      { intros ->. apply Hname. apply list_elem_of_lookup. exists i.
        now rewrite !list_lookup_fmap, Hi. }
      rewrite fn_lookup_insert_ne by auto. rewrite H0' by auto.
      rewrite lookup_insert_ne by auto. auto.
    + apply list_lookup_singleton_Some in Hi as [Hi [= <- <- <-]].
      rewrite fn_lookup_insert, lookup_insert_eq. simpl.
      repeat split; auto. rewrite Hlen. f_equal. lia.
Qed.

Lemma fmap_fst_fst_app {A B C} (d k : list (A * B * C)) x :
  (d ++ x :: k)%list.*1.*1 = (d.*1.*1 ++ x.1.1 :: k.*1.*1)%list.
Proof. rewrite !fmap_app, !fmap_cons. reflexivity. Qed.

Lemma fmap_fst_snd_app {A B C} (d k : list (A * B * C)) x :
  (d ++ x :: k)%list.*1.*2 = (d.*1.*2 ++ x.1.2 :: k.*1.*2)%list.
Proof. rewrite !fmap_app, !fmap_cons. reflexivity. Qed.

Lemma add_columns_built m l :
  ∀ done st, columns_built m done st →
             NoDup ((done ++ l)%list.*1.*1) → NoDup ((done ++ l)%list.*1.*2) →
             columns_built m (done ++ l)%list (add_columns m l st).
Proof.
  induction l as [|[[f name] ty] l IH]; intros done st Hd N1 N2; simpl.
  - now rewrite app_nil_r.
  - assert (Hnew : (f ∉ done.*1.*1) ∧ (name ∉ done.*1.*2)).
    { pose proof N1 as M1. pose proof N2 as M2.
      rewrite fmap_fst_fst_app in M1. rewrite fmap_fst_snd_app in M2.
      apply NoDup_app in M1 as (_ & M1 & _). apply NoDup_app in M2 as (_ & M2 & _).
      split; intros H; [apply (M1 _ H)|apply (M2 _ H)]; now left. }
    destruct Hnew as [Hf Hname].
    assert (E : (done ++ (f, name, ty) :: l)%list
                = ((done ++ [(f, name, ty)]) ++ l)%list)
      by (now rewrite <- app_assoc).
    rewrite E in N1, N2 |- *.
    apply IH; auto. now apply AddFieldType_built.
Qed.

(** X21.  A table without fields to which columns are added with
    [AddFieldType], each under a name of its own: its field list is the
    fields of the calls in the order of the calls, every field carries
    its position as ordinal, [HasField] holds for every name and
    [Column] returns the type the name was added with. *)
Theorem AddFieldType_builds (st : store) (m : tptr)
    (l : list (fptr * string * ValueType)) :
  Fields (tbl st m) = [] →
  NoDup (l.*1.*1) → NoDup (l.*1.*2) →
  let st' := add_columns m l st in
  Fields (tbl st' m) = l.*1.*1
  ∧ field_names st' m = l.*1.*2
  ∧ idx_is_position st' m
  ∧ ∀ i f name valType,
      l !! i = Some (f, name, valType) →
      Field_Id (fld st' f) = Z.of_nat i
      ∧ Table_HasField (tbl st' m) name = true
      ∧ Table_Column UnknownType st' m name = (valType, true).
Proof.
  intros He N1 N2 st'.
  destruct (add_columns_built m l [] st) as [HF Hall]; auto.
  { split; [exact He|]. intros i ? ? ? Hi. discriminate Hi. }
  simpl in HF, Hall. fold st' in HF, Hall.
  split; [exact HF|]. split; [|split].
  - unfold field_names. rewrite HF. apply list_eq. intros i.
    rewrite !list_lookup_fmap.
    destruct (l !! i) as [[[f name] ty]|] eqn:Hi; [|reflexivity].
    simpl. destruct (Hall _ _ _ _ Hi) as (_ & -> & _). reflexivity.
  - intros i p Hi. rewrite HF, !list_lookup_fmap in Hi.
    destruct (l !! i) as [[[f name] ty]|] eqn:Hl; [|discriminate].
    simpl in Hi. injection Hi as <-. now destruct (Hall _ _ _ _ Hl).
  - intros i f name ty Hi. destruct (Hall _ _ _ _ Hi) as (A1 & A2 & A3 & A4).
    split; [exact A1|]. split.
    + apply map_has_true, elem_of_dom. eauto.
    + unfold Table_Column, Field_ValueType. now rewrite A4, A3.
Qed.

End Building.

(** ** The properties on the sample catalogs *)

Lemma Schema_after_attach_witness :
  parent (sch Stock.attached_t1 1%nat) = Some 0%nat
  ∧ Schema_Schema Stock.attached_t1 0 "C" = Ok 1%nat.
Proof.
  destruct (Schema_after_attach Sample.with_t1 Stock.attached_t1 0%nat 1%nat)
    as (A & _ & B & _); [vm_compute; reflexivity|].
  split; [exact A|]. exact (B "C" eq_refl).
Defined.

Lemma attach_copies_tables_witness :
  tableMap (sch Stock.attached_t1 0%nat) !! "t1" = Some (Some 1%nat)
  ∧ tableSchemas (sch Stock.attached_t1 0%nat) !! "t1" = Some (Some 1%nat).
Proof.
  destruct (attach_copies_tables LeftRight_dot Sample.with_t1 Stock.attached_t1
              0%nat 1%nat) as (A & _); [vm_compute; reflexivity|].
  apply (A "t1" (Some 1%nat)). vm_compute; reflexivity.
Defined.

Lemma AddTable_then_Table_witness :
  Schema_Table LeftRight_dot (sch Sample.with_t1 1%nat) "T1" = Ok 1%nat
  ∧ "t1" ∈ Schema_Tables (sch Sample.with_t1 1%nat).
Proof.
  destruct (AddTable_then_Table LeftRight_dot Sample.family Sample.with_t1
              1%nat 1%nat "T1") as (A & B & _);
    [vm_compute; reflexivity|reflexivity|].
  split; [exact A|exact B].
Defined.

Lemma AddTable_keeps_owners_witness :
  Schema_OpenConn Sample.with_t1 1 "t1" = Err (ErrCouldNotFindDataSource "t1").
Proof.
  destruct (AddTable_keeps_owners Sample.family Sample.with_t1 1%nat 1%nat)
    as (_ & _ & _ & A); [vm_compute; reflexivity|].
  apply A. vm_compute; reflexivity.
Defined.

Lemma AddTable_id_witness :
  Table_Id (tbl Sample.with_t1 1%nat) = Fnv.Sum64 "t1"
  ∧ 0 ≤ Table_Id (tbl Sample.with_t1 1%nat) < 2 ^ 64.
Proof.
  destruct (AddTable_id Sample.family Sample.with_t1 1%nat 1%nat)
    as (A & B & _); [vm_compute; reflexivity|].
  split; [exact A|exact B].
Defined.

Lemma AddTable_twice_witness :
  ∃ st2, AddTable Sample.with_t1 1 1 = Some st2
         ∧ ∀ p, sch st2 p = sch Sample.with_t1 p.
Proof.
  destruct (AddTable_twice Sample.family Sample.with_t1 1%nat 1%nat)
    as (st2 & A & B & _); [vm_compute; reflexivity|].
  exists st2. split; [exact A|exact B].
Defined.

Lemma catalog_only_grows_witness :
  "t1" ∈ Schema_Tables (sch Stock.grown 1%nat)
  ∧ DS (sch Stock.grown 0%nat) = Some Sample.quiet.
Proof.
  destruct (catalog_only_grows Sample.in_order 2 Stock.history Sample.with_t1
              Stock.grown) with (p := 1%nat) as (A & _);
    [vm_compute; reflexivity|].
  destruct (catalog_only_grows Sample.in_order 2 Stock.history Sample.with_t1
              Stock.grown) with (p := 0%nat) as (_ & _ & _ & _ & _ & B & _);
    [vm_compute; reflexivity|].
  split; [|exact B]. apply A. vm_compute. left.
Defined.

Lemma schema_never_current_witness :
  Schema_lastRefreshed (sch Stock.grown 0%nat) = GoTime.zero
  ∧ Schema_Current 1000 SchemaRefreshInterval (sch Stock.grown 0%nat) = false.
Proof.
  destruct (schema_never_current Sample.in_order 2 Stock.history Sample.with_t1
              Stock.grown 0%nat) as (Z & _ & A & _);
    [vm_compute; reflexivity|reflexivity|].
  split; [exact Z|apply A].
Defined.

Lemma tables_stay_resolvable_witness :
  ∃ t', Schema_Table LeftRight_dot (sch Stock.with_t2 1%nat) "t1" = Ok t'.
Proof.
  destruct (tables_stay_resolvable Sample.in_order LeftRight_dot Sample.with_t1
              Stock.with_t2) with (p := 1%nat) as (A & _).
  { right. exists 1%nat, 2%nat. vm_compute; reflexivity. }
  apply (A "t1" 1%nat). vm_compute; reflexivity.
Defined.

Lemma refresh_flattens_witness : "t1" ∈ Schema_Tables (sch Stock.refreshed 0%nat).
Proof.
  apply (refresh_flattens Sample.in_order (λ m, reflexivity _) 2 Stock.joined
           Stock.refreshed 0%nat "t1").
  - vm_compute; reflexivity.
  - apply visible_child with 1%nat.
    + exists "c". vm_compute; reflexivity.
    + apply visible_listed with Stock.warehouse; [vm_compute; reflexivity|].
      simpl. left.
Defined.

Lemma refresh_needs_sources_witness :
  refreshSchemaUnlocked Sample.in_order 5 Sample.partitioned 0 = None.
Proof.
  apply (refresh_needs_sources Sample.in_order (λ m, reflexivity _)
           Sample.partitioned 0%nat).
  apply unrefreshable_source. reflexivity.
Defined.

Lemma loadTable_outcomes_witness :
  ∃ st', loadTable Stock.apart 1 "t1" = Some (st', None)
         ∧ tableMap (sch st' 1%nat) !! "t1" = Some (Some 1%nat)
         ∧ Schema_Tables (sch st' 1%nat) = [].
Proof.
  destruct (loadTable_outcomes Stock.apart 1%nat "t1" Stock.warehouse)
    as (st' & A & _ & B & _ & C & _).
  - reflexivity.
  - intros conf H. vm_compute in H. discriminate.
  - exists st'. split; [exact A|]. split; [exact B|exact C].
Defined.

Lemma refresh_loads_witness :
  ∃ t', Schema_Table LeftRight_dot (sch Stock.child_refreshed 1%nat) "T1" = Ok t'.
Proof.
  destruct (refresh_loads Sample.in_order LeftRight_dot 1 Stock.apart
              Stock.child_refreshed 1%nat Stock.warehouse "t1" 1%nat) as (_ & A).
  - vm_compute; reflexivity.
  - reflexivity.
  - simpl. left.
  - reflexivity.
  - reflexivity.
  - intros H. vm_compute in H. inversion H.
  - apply A. reflexivity.
Defined.

Lemma AddFieldType_builds_witness :
  let st' := add_columns 0 Stock.two_columns Sample.blank in
  Table_Column 0 st' 0 "b" = (12, true) ∧ Field_Id (fld st' 1%nat) = 1.
Proof.
  intros st'.
  destruct (AddFieldType_builds 0 Sample.blank 0%nat Stock.two_columns)
    as (_ & _ & _ & A).
  - reflexivity.
  - apply (bool_decide_unpack _). vm_compute. exact I.
  - apply (bool_decide_unpack _). vm_compute. exact I.
  - destruct (A 1%nat 1%nat "b" 12 eq_refl) as (B & _ & C).
    split; [exact C|exact B].
Defined.

